(** * CasADi integrator core: a shallow embedding of
      [casadi/core/function/integrator.cpp]

    The file follows the C++ translation unit: the [Integrator] base class
    (evaluation protocol, augmented systems, offset table, sparsity
    propagation), the [FixedStepIntegrator] stepping scheme with its tape, and
    the [ImplicitFixedStepIntegrator] set-up.  Definitions come first, the
    properties proved about them afterwards. *)

From Stdlib Require Import ZArith Floats Uint63 Lia FunctionalExtensionality.
From stdpp Require Import base option list gmap strings pretty.

Set Warnings "-register-all".
Local Open Scope Z_scope.

(** ** Machine numbers *)

(** [double] is IEEE binary64, the kernel's primitive floats. *)
Abbreviation double := float.

Definition quiet_NaN : double := PrimFloat.nan.

(** The implicit conversion [int -> double] of [m->k*h_] and of the division
    by [nk_]. *)
Definition int_to_double (k : Z) : double :=
  if k <? 0 then PrimFloat.opp (PrimFloat.of_uint63 (Uint63.of_Z (- k)))
  else PrimFloat.of_uint63 (Uint63.of_Z k).

Definition INT_MIN : Z := - 2 ^ 31.
Definition INT_MAX : Z := 2 ^ 31 - 1.

(** [std::ceil] and [std::floor] as integers.  A finite double has the value
    [v * 2 ^ e] for its signed mantissa [v] and exponent [e]; NaN and the
    infinities have no integer value. *)
Definition double_ceil (d : double) : option Z :=
  match Prim2SF d with
  | S754_zero _ => Some 0
  | S754_finite s m e =>
      let v := if s then Z.neg m else Z.pos m in
      Some (if 0 <=? e then v * 2 ^ e else - ((- v) / 2 ^ (- e)))
  | S754_infinity _ | S754_nan => None
  end.

Definition double_floor (d : double) : option Z :=
  match Prim2SF d with
  | S754_zero _ => Some 0
  | S754_finite s m e =>
      let v := if s then Z.neg m else Z.pos m in
      Some (if 0 <=? e then v * 2 ^ e else v / 2 ^ (- e))
  | S754_infinity _ | S754_nan => None
  end.

(** [int k = std::ceil(d)] and [int k = std::floor(d)]: the rounded value,
    converted to [int].  C++ leaves the conversion undefined for NaN, the
    infinities and values outside the range of [int]; those give [None]. *)
Definition in_int_range (v : option Z) : option Z :=
  match v with
  | Some c => if (INT_MIN <=? c) && (c <=? INT_MAX) then Some c else None
  | None => None
  end.

Definition std_ceil_int (d : double) : option Z := in_int_range (double_ceil d).
Definition std_floor_int (d : double) : option Z := in_int_range (double_floor d).

(** ** Exceptions and stateful computations *)

Inductive Exception :=
  | CasadiAssert (cond : string)   (* casadi_assert(cond) failed *)
  | OutOfRange                     (* std::vector::at *)
  | UndefinedConversion            (* double -> int outside the range of int *)
  | NullFunction                   (* a call through a null Function *)
  | BadOption (key : string)       (* an option value of the wrong type *)
  | LengthError                    (* std::length_error of a vector constructor *)
  | CallError (what : string)      (* an exception raised inside a Function call *)
  | LoopFuel.                      (* the model's loop bound was too small *)

Inductive Result (A : Type) :=
  | Ok (a : A)
  | Throw (e : Exception).
Arguments Ok {A} a.
Arguments Throw {A} e.

(** A method that mutates a memory object of type [S] and may throw: the
    memory as it stands when the method returns or throws is part of the
    result. *)
Definition Stateful (S A : Type) : Type := S -> Result A * S.

Definition ret {S A} (a : A) : Stateful S A := fun s => (Ok a, s).
Definition throw {S A} (e : Exception) : Stateful S A := fun s => (Throw e, s).
Definition bind {S A B} (c : Stateful S A) (f : A -> Stateful S B) : Stateful S B :=
  fun s => match c s with
           | (Ok a, s') => f a s'
           | (Throw e, s') => (Throw e, s')
           end.
Definition get {S} : Stateful S S := fun s => (Ok s, s).
Definition modify {S} (f : S -> S) : Stateful S unit := fun s => (Ok tt, f s).
Definition lift {S A} (r : Result A) : Stateful S A := fun s => (r, s).
Definition casadi_assert {S} (b : bool) (cond : string) : Stateful S unit :=
  if b then ret tt else throw (CasadiAssert cond).

Declare Scope stateful_scope.
Delimit Scope stateful_scope with stateful.
Notation "x <- c ;; k" := (bind c (fun x => k))
  (at level 100, c at next level, right associativity) : stateful_scope.
Notation "c ;;; k" := (bind c (fun _ => k))
  (at level 100, right associativity) : stateful_scope.

(** ** Arrays and the CasADi runtime *)

(** [const T*]: [None] is the null pointer, [Some l] points to the array
    [l]. *)
Definition cptr (T : Type) : Type := option (list T).

(** [get_ptr(v)] of std_vector_tools.hpp: null for an empty vector. *)
Definition get_ptr {T} (v : list T) : cptr T :=
  match v with [] => None | _ => Some v end.

(** [v.at(k)] with an [int] index: a negative index converts to a huge
    [size_t], so it is out of range as well. *)
Definition vec_at {T} (v : list T) (k : Z) : option T :=
  if k <? 0 then None else v !! Z.to_nat k.

(** Modelled from the spec: [casadi_copy(x, n, y)], [casadi_fill(x, n, alpha)]
    and [casadi_axpy(n, alpha, x, y)] belong to the CasADi runtime, which is
    outside this translation unit.  The spec has [reset] "copy inputs into
    Runtime Memory" and "zero quadratures", and the stepping loop "accumulate
    quadrature by addition to the running total": copy writes the first [n]
    entries of [y] from [x] (zeros when [x] is null), fill writes [alpha] to
    the first [n] entries, axpy adds [alpha * x[i]] to [y[i]].  A null
    destination is left alone. *)
Definition casadi_copy (x : cptr double) (n : Z) (y : list double) : list double :=
  match get_ptr y with
  | None => y
  | Some _ =>
      match x with
      | Some xs => take (Z.to_nat n) xs ++ drop (Z.to_nat n) y
      | None => replicate (Z.to_nat n) 0%float ++ drop (Z.to_nat n) y
      end
  end.

Definition casadi_fill (y : list double) (n : Z) (alpha : double) : list double :=
  match get_ptr y with
  | None => y
  | Some _ => replicate (Z.to_nat n) alpha ++ drop (Z.to_nat n) y
  end.

Fixpoint axpy_loop (n : nat) (alpha : double) (x y : list double) : list double :=
  match n, x, y with
  | S n', xi :: x', yi :: y' => (yi + alpha * xi)%float :: axpy_loop n' alpha x' y'
  | _, _, _ => y
  end.

Definition casadi_axpy (n : Z) (alpha : double) (x : cptr double) (y : list double) : list double :=
  match x, get_ptr y with
  | Some xs, Some _ => axpy_loop (Z.to_nat n) alpha xs y
  | _, _ => y
  end.

(** [for (int i=lo; i<hi; ++i) body(i)] over a state [S]. *)
Fixpoint for_loop {S} (n : nat) (i : Z) (body : Z -> S -> S) (s : S) : S :=
  match n with
  | O => s
  | S n' => for_loop n' (i + 1) body (body i s)
  end.

Definition for_range {S} (lo hi : Z) (body : Z -> S -> S) (s : S) : S :=
  for_loop (Z.to_nat (hi - lo)) lo body s.

(** ** Slots of the integrator and of its oracle *)

Inductive IntegratorInput :=
  | INTEGRATOR_X0 | INTEGRATOR_P | INTEGRATOR_Z0
  | INTEGRATOR_RX0 | INTEGRATOR_RP | INTEGRATOR_RZ0.

Inductive IntegratorOutput :=
  | INTEGRATOR_XF | INTEGRATOR_QF | INTEGRATOR_ZF
  | INTEGRATOR_RXF | INTEGRATOR_RQF | INTEGRATOR_RZF.

(** Modelled from the spec: the slot enumerations of the oracle ([DE_*]) and
    of the discrete-time maps ([DAE_*], [RDAE_*]) are declared in
    integrator_impl.hpp, outside this translation unit.  The spec lists the
    oracle's slots as (time, state, algebraic, parameter, backward-state,
    backward-algebraic, backward-parameter) in and (ODE-rate,
    algebraic-residual, quadrature-rate and their backward counterparts)
    out; the discrete maps use the slots the stepping code names. *)
Inductive DEInput := DE_T | DE_X | DE_Z | DE_P | DE_RX | DE_RZ | DE_RP.
Inductive DEOutput := DE_ODE | DE_ALG | DE_QUAD | DE_RODE | DE_RALG | DE_RQUAD.
Inductive DAEInput := DAE_T | DAE_X | DAE_Z | DAE_P.
Inductive DAEOutput := DAE_ODE | DAE_ALG | DAE_QUAD.
Inductive RDAEInput :=
  | RDAE_T | RDAE_X | RDAE_Z | RDAE_P | RDAE_RX | RDAE_RZ | RDAE_RP.
Inductive RDAEOutput := RDAE_ODE | RDAE_ALG | RDAE_QUAD.

#[global] Instance IntegratorInput_eq_dec : EqDecision IntegratorInput.
Proof. solve_decision. Defined.
#[global] Instance IntegratorOutput_eq_dec : EqDecision IntegratorOutput.
Proof. solve_decision. Defined.
#[global] Instance DEInput_eq_dec : EqDecision DEInput.
Proof. solve_decision. Defined.
#[global] Instance DEOutput_eq_dec : EqDecision DEOutput.
Proof. solve_decision. Defined.

(** An array indexed by a slot enumeration ([arg1[DE_X] = ...]). *)
Definition slot_set {I T} `{EqDecision I} (a : I -> T) (i : I) (v : T) : I -> T :=
  fun j => if decide (j = i) then v else a j.

(** Position of an enumerator, for the option values that name a slot. *)
Definition DAEInput_index (i : DAEInput) : Z :=
  match i with DAE_T => 0 | DAE_X => 1 | DAE_Z => 2 | DAE_P => 3 end.
Definition DAEOutput_index (o : DAEOutput) : Z :=
  match o with DAE_ODE => 0 | DAE_ALG => 1 | DAE_QUAD => 2 end.
Definition RDAEInput_index (i : RDAEInput) : Z :=
  match i with
  | RDAE_T => 0 | RDAE_X => 1 | RDAE_Z => 2 | RDAE_P => 3
  | RDAE_RX => 4 | RDAE_RZ => 5 | RDAE_RP => 6
  end.
Definition RDAEOutput_index (o : RDAEOutput) : Z :=
  match o with RDAE_ODE => 0 | RDAE_ALG => 1 | RDAE_QUAD => 2 end.

(** ** Sparsity patterns and symbolic matrices *)

(** Modelled from the spec: the [Sparsity] class is outside this translation
    unit.  The integrator uses a pattern's shape and its number of
    nonzeros ("Problem Dimensions: non-negative integer counts of
    nonzeros"), so a pattern is its row count, column count and nonzero
    count. *)
Record Sparsity := { size1 : Z; size2 : Z; nnz : Z }.

(** [repmat(sp, 1, m)]: [m] copies side by side. *)
Definition repmat_cols (sp : Sparsity) (m : Z) : Sparsity :=
  {| size1 := size1 sp; size2 := size2 sp * m; nnz := nnz sp * m |}.

(** Modelled from the spec: [MatType] stands for the symbolic classes SX and
    MX, "used only through a narrow interface".  An expression is kept as
    the way it was built, with the pattern it was given: a fresh symbol, an
    input or output expression of the oracle, a projection onto a pattern,
    and a horizontal concatenation ("horizontally stacked copies"), whose
    columns are those of its blocks. *)
Inductive MatType :=
  | Sym (name : string) (sp : Sparsity)
  | Zeros (sp : Sparsity)
  | OracleIn (i : DEInput) (sp : Sparsity)
  | OracleOut (o : DEOutput) (sp : Sparsity)
  | Derivative (d : Z) (slot : string) (sp : Sparsity)
  | Project (e : MatType) (sp : Sparsity)
  | Horzcat (blocks : list MatType).

Fixpoint columns (e : MatType) : Z :=
  match e with
  | Sym _ sp | Zeros sp | OracleIn _ sp | OracleOut _ sp => size2 sp
  | Derivative _ _ sp | Project _ sp => size2 sp
  | Horzcat blocks => foldr (fun b acc => columns b + acc) 0 blocks
  end.

Definition horzcat (v : list MatType) : MatType := Horzcat v.
Definition project (e : MatType) (sp : Sparsity) : MatType := Project e sp.

(** [MatType()]: the empty 0-by-0 matrix. *)
Definition MatType_empty : MatType := Zeros {| size1 := 0; size2 := 0; nnz := 0 |}.

(** ** Options *)

(** [GenericType] and [Dict = std::map<std::string, GenericType>]. *)
Inductive GenericType :=
  | GT_bool (b : bool)
  | GT_int (i : Z)
  | GT_double (d : double)
  | GT_string (s : string)
  | GT_doublevector (v : list double)
  | GT_dict (d : gmap string GenericType).

Abbreviation Dict := (gmap string GenericType).

(** The conversions [op.second] undergoes when it is assigned to a typed
    variable; a value of another type is refused. *)
Definition to_bool (key : string) (g : GenericType) : Result bool :=
  match g with GT_bool b => Ok b | _ => Throw (BadOption key) end.
Definition to_int (key : string) (g : GenericType) : Result Z :=
  match g with GT_int i => Ok i | _ => Throw (BadOption key) end.
Definition to_double (key : string) (g : GenericType) : Result double :=
  match g with
  | GT_double d => Ok d
  | GT_int i => Ok (int_to_double i)
  | _ => Throw (BadOption key)
  end.
Definition to_string (key : string) (g : GenericType) : Result string :=
  match g with GT_string s => Ok s | _ => Throw (BadOption key) end.
Definition to_double_vector (key : string) (g : GenericType) : Result (list double) :=
  match g with GT_doublevector v => Ok v | _ => Throw (BadOption key) end.
Definition to_dict (key : string) (g : GenericType) : Result Dict :=
  match g with GT_dict d => Ok d | _ => Throw (BadOption key) end.

(** One arm of the option loop [for (auto&& op : opts) if (op.first==key)
    var = op.second]: the variable keeps its default when the key is
    absent. *)
Definition read_option {A} (opts : Dict) (key : string)
    (conv : string -> GenericType -> Result A) (default : A) : Result A :=
  match opts !! key with
  | Some g => conv key g
  | None => Ok default
  end.

Definition rbind {A B} (r : Result A) (f : A -> Result B) : Result B :=
  match r with Ok a => f a | Throw e => Throw e end.
Notation "x <-- r ; k" := (rbind r (fun x => k))
  (at level 100, r at next level, right associativity, only parsing).

(** ** The oracle and the dependency patterns *)

(** Dependency bit vectors ([bvec_t], an unsigned 64-bit word). *)
Abbreviation bvec_t := Z.

(** Modelled from the spec: the oracle is an external [Function], consumed
    through "evaluate, get sparsity, compute forward/reverse directional
    derivatives" and the Boolean dependency propagation in both directions.
    [sp_forward] gives the dependency bits of every output from those of the
    inputs (null: no dependency); [sp_reverse] gives the new contents of the
    input and output buffers it was handed; [sp_scratch] is what a call
    leaves in its work vector. *)
Record Oracle := {
  sparsity_in : DEInput -> Sparsity;
  sparsity_out : DEOutput -> Sparsity;
  forward : (DEInput -> MatType) -> (DEOutput -> MatType) ->
            list (DEInput -> MatType) -> list (list MatType);
  reverse : (DEInput -> MatType) -> (DEOutput -> MatType) ->
            list (DEOutput -> MatType) -> list (list MatType);
  sp_forward : (DEInput -> cptr bvec_t) -> DEOutput -> list bvec_t;
  sp_reverse : (DEInput -> cptr bvec_t) -> (DEOutput -> cptr bvec_t) ->
               (DEInput -> list bvec_t) * (DEOutput -> list bvec_t);
  sp_scratch : (DEInput -> cptr bvec_t) -> (DEOutput -> cptr bvec_t) -> list bvec_t
}.

(** Modelled from the spec: the "Dependency Sparsity Pattern ... factored
    into block-triangular form once", with the structural solve
    [sp.spsolve(btf, X, B, tr)] of the [Sparsity] class: the new contents of
    [X] from [X], [B] and the transposition flag. *)
Record BtfPattern := {
  spsolve : list bvec_t -> list bvec_t -> bool -> list bvec_t
}.

Definition DEInput_index (i : DEInput) : nat :=
  match i with
  | DE_T => 0 | DE_X => 1 | DE_Z => 2 | DE_P => 3 | DE_RX => 4 | DE_RZ => 5 | DE_RP => 6
  end%nat.
Definition DEOutput_index (o : DEOutput) : nat :=
  match o with
  | DE_ODE => 0 | DE_ALG => 1 | DE_QUAD => 2 | DE_RODE => 3 | DE_RALG => 4 | DE_RQUAD => 5
  end%nat.
Definition DE_NUM_IN : Z := 7.
Definition DE_NUM_OUT : Z := 6.

(** ** class Integrator *)

Record Integrator := {
  name_ : string;
  oracle_ : Oracle;
  (* sparsities, set by the constructor *)
  t_ : Sparsity; x_ : Sparsity; z_ : Sparsity; p_ : Sparsity; q_ : Sparsity;
  rx_ : Sparsity; rz_ : Sparsity; rp_ : Sparsity; rq_ : Sparsity;
  (* dimensions, set by init *)
  nx_ : Z; nz_ : Z; nq_ : Z; np_ : Z;
  nrx_ : Z; nrz_ : Z; nrp_ : Z; nrq_ : Z;
  (* time grid *)
  grid_ : list double; ngrid_ : Z; ntout_ : Z;
  (* options *)
  print_stats_ : bool; output_t0_ : bool;
  augmented_options_ : Dict; opts_ : Dict;
  (* dependency patterns with their block-triangular factorizations *)
  sp_jac_dae_ : BtfPattern; sp_jac_rdae_ : BtfPattern
}.

(** [grid_.front()], [grid_.back()] and [grid_[k]]; [init] leaves the grid
    non-empty. *)
Definition grid_front (self : Integrator) : double := default 0%float (head (grid_ self)).
Definition grid_back (self : Integrator) : double := default 0%float (last (grid_ self)).

(** [Integrator::Integrator(name, oracle)]. *)
Definition Integrator_new (name : string) (oracle : Oracle)
    (jac_dae jac_rdae : BtfPattern) : Integrator :=
  {| name_ := name; oracle_ := oracle;
     t_ := sparsity_in oracle DE_T; x_ := sparsity_in oracle DE_X;
     z_ := sparsity_in oracle DE_Z; p_ := sparsity_in oracle DE_P;
     q_ := sparsity_out oracle DE_QUAD;
     rx_ := sparsity_in oracle DE_RX; rz_ := sparsity_in oracle DE_RZ;
     rp_ := sparsity_in oracle DE_RP; rq_ := sparsity_out oracle DE_RQUAD;
     nx_ := 0; nz_ := 0; nq_ := 0; np_ := -1;
     nrx_ := 0; nrz_ := 0; nrp_ := 0; nrq_ := 0;
     grid_ := []; ngrid_ := 0; ntout_ := 0;
     print_stats_ := false; output_t0_ := false;
     augmented_options_ := ∅; opts_ := ∅;
     sp_jac_dae_ := jac_dae; sp_jac_rdae_ := jac_rdae |}.

(** [Integrator::init(opts)].  The patterns [sp_jac_dae()] and
    [sp_jac_rdae()] and their factorizations come from the [Sparsity] class;
    the object holds them from its construction on. *)
Definition Integrator_init (self : Integrator) (opts : Dict) : Result Integrator :=
  expand <-- read_option opts "expand" to_bool false;
  output_t0 <-- read_option opts "output_t0" to_bool (output_t0_ self);
  print_stats <-- read_option opts "print_stats" to_bool (print_stats_ self);
  grid <-- read_option opts "grid" to_double_vector (grid_ self);
  augmented_options <-- read_option opts "augmented_options" to_dict (augmented_options_ self);
  t0 <-- read_option opts "t0" to_double 0%float;
  tf <-- read_option opts "tf" to_double 1%float;
  let grid := match grid with [] => [t0; tf] | _ => grid end in
  let ngrid := Z.of_nat (length grid) in
  Ok {| name_ := name_ self; oracle_ := oracle_ self;
        t_ := t_ self; x_ := x_ self; z_ := z_ self; p_ := p_ self; q_ := q_ self;
        rx_ := rx_ self; rz_ := rz_ self; rp_ := rp_ self; rq_ := rq_ self;
        nx_ := nnz (x_ self); nz_ := nnz (z_ self);
        nq_ := nnz (q_ self); np_ := nnz (p_ self);
        nrx_ := nnz (rx_ self); nrz_ := nnz (rz_ self);
        nrp_ := nnz (rp_ self); nrq_ := nnz (rq_ self);
        grid_ := grid; ngrid_ := ngrid;
        ntout_ := if output_t0 then ngrid else ngrid - 1;
        print_stats_ := print_stats; output_t0_ := output_t0;
        augmented_options_ := augmented_options; opts_ := opts;
        sp_jac_dae_ := sp_jac_dae_ self; sp_jac_rdae_ := sp_jac_rdae_ self |}.

(** [Integrator::get_sparsity_in] and [Integrator::get_sparsity_out]. *)
Definition get_sparsity_in (self : Integrator) (i : IntegratorInput) : Sparsity :=
  match i with
  | INTEGRATOR_X0 => x_ self
  | INTEGRATOR_P => p_ self
  | INTEGRATOR_Z0 => z_ self
  | INTEGRATOR_RX0 => repmat_cols (rx_ self) (ntout_ self)
  | INTEGRATOR_RP => repmat_cols (rp_ self) (ntout_ self)
  | INTEGRATOR_RZ0 => repmat_cols (rz_ self) (ntout_ self)
  end.

Definition get_sparsity_out (self : Integrator) (o : IntegratorOutput) : Sparsity :=
  match o with
  | INTEGRATOR_XF => repmat_cols (x_ self) (ntout_ self)
  | INTEGRATOR_QF => repmat_cols (q_ self) (ntout_ self)
  | INTEGRATOR_ZF => repmat_cols (z_ self) (ntout_ self)
  | INTEGRATOR_RXF => rx_ self
  | INTEGRATOR_RQF => rq_ self
  | INTEGRATOR_RZF => rz_ self
  end.

(** ** Integrator::eval *)

(** What [advance] and [retreat] copy to the caller's three buffers on
    return: for each buffer the source pointer and the number of entries,
    the first two arguments of the closing [casadi_copy] calls.  [eval]
    stores them where its cursors point. *)
Definition OutCopy : Type := cptr double * Z.
Definition StepOutput : Type := OutCopy * OutCopy * OutCopy.

(** The pure virtual stepping interface of [Integrator], over the memory
    type of the concrete scheme. *)
Record IntegratorMethods (Mem : Type) := {
  reset : double -> cptr double -> cptr double -> cptr double -> Stateful Mem unit;
  advance : double -> Stateful Mem StepOutput;
  resetB : double -> cptr double -> cptr double -> cptr double -> Stateful Mem unit;
  retreat : double -> Stateful Mem StepOutput;
  printStats : Stateful Mem unit
}.
Arguments reset {Mem} _ _ _ _ _ _.
Arguments advance {Mem} _ _ _.
Arguments resetB {Mem} _ _ _ _ _ _.
Arguments retreat {Mem} _ _ _.
Arguments printStats {Mem} _ _.

(** The memory object together with the result buffers [res]; a null
    buffer is [None]. *)
Record EvalState (Mem : Type) := {
  es_mem : Mem;
  es_res : IntegratorOutput -> cptr double
}.
Arguments es_mem {Mem} _.
Arguments es_res {Mem} _ _.
Arguments Build_EvalState {Mem} _ _.

Definition on_mem {Mem A} (c : Stateful Mem A) : Stateful (EvalState Mem) A :=
  fun s => match c (es_mem s) with
           | (r, m') => (r, Build_EvalState m' (es_res s))
           end.

(** [casadi_copy(src, n, x)] for the cursor [x = res[o] + off]; nothing is
    written through a null [res[o]]. *)
Definition copy_out {Mem} (o : IntegratorOutput) (off : Z) (c : OutCopy)
    (s : EvalState Mem) : EvalState Mem :=
  match es_res s o with
  | None => s
  | Some buf =>
      let buf' := take (Z.to_nat off) buf
                  ++ casadi_copy (fst c) (snd c) (drop (Z.to_nat off) buf) in
      Build_EvalState (es_mem s) (slot_set (es_res s) o (Some buf'))
  end.

(** The forward loop [for (int k=0; k<grid_.size(); ++k)]: [ts] is the grid
    from index [k] on, [x], [z], [q] are the offsets of the three cursors
    into their buffers. *)
Fixpoint eval_forward {Mem} (self : Integrator) (impl : IntegratorMethods Mem)
    (k : Z) (ts : list double) (x z q : Z) : Stateful (EvalState Mem) unit :=
  match ts with
  | [] => ret tt
  | tk :: ts' =>
      if (k =? 0) && negb (output_t0_ self)
      then eval_forward self impl (k + 1) ts' x z q
      else
        (out <- on_mem (advance impl tk) ;;
         modify (fun s =>
           copy_out INTEGRATOR_QF q (snd out)
             (copy_out INTEGRATOR_ZF z (snd (fst out))
               (copy_out INTEGRATOR_XF x (fst (fst out)) s))) ;;;
         eval_forward self impl (k + 1) ts'
           (x + nnz (x_ self)) (z + nnz (z_ self)) (q + nnz (q_ self)))%stateful
  end.

Definition eval {Mem} (self : Integrator) (impl : IntegratorMethods Mem)
    (arg : IntegratorInput -> cptr double) : Stateful (EvalState Mem) unit :=
  (let x0 := arg INTEGRATOR_X0 in
   let z0 := arg INTEGRATOR_Z0 in
   let p := arg INTEGRATOR_P in
   let rx0 := arg INTEGRATOR_RX0 in
   let rz0 := arg INTEGRATOR_RZ0 in
   let rp := arg INTEGRATOR_RP in
   on_mem (reset impl (grid_front self) x0 z0 p) ;;;
   eval_forward self impl 0 (grid_ self) 0 0 0 ;;;
   (if 0 <? nrx_ self then
      on_mem (resetB impl (grid_back self) rx0 rz0 rp) ;;;
      out <- on_mem (retreat impl (grid_front self)) ;;
      modify (fun s =>
        copy_out INTEGRATOR_RQF 0 (snd out)
          (copy_out INTEGRATOR_RZF 0 (snd (fst out))
            (copy_out INTEGRATOR_RXF 0 (fst (fst out)) s)))
    else ret tt) ;;;
   (if print_stats_ self then on_mem (printStats impl) else ret tt))%stateful.

(** The calls [eval] makes, as a scheme that only records them. *)
Inductive Call :=
  | CallReset (t : double) (x0 z0 p : cptr double)
  | CallAdvance (t : double)
  | CallResetB (t : double) (rx0 rz0 rp : cptr double)
  | CallRetreat (t : double)
  | CallPrintStats.

Definition null_output : StepOutput := ((None, 0), (None, 0), (None, 0)).
Definition record_call (c : Call) : Stateful (list Call) unit :=
  modify (fun log => log ++ [c]).

Definition Recorder : IntegratorMethods (list Call) :=
  {| reset := fun t x0 z0 p => record_call (CallReset t x0 z0 p);
     advance := fun t => (record_call (CallAdvance t) ;;; ret null_output)%stateful;
     resetB := fun t rx0 rz0 rp => record_call (CallResetB t rx0 rz0 rp);
     retreat := fun t => (record_call (CallRetreat t) ;;; ret null_output)%stateful;
     printStats := record_call CallPrintStats |}.

(** ** struct FixedStepMemory *)

(** Modelled from the spec: the struct is declared in integrator_impl.hpp,
    outside this translation unit; its members are those the stepping code
    uses.  The spec's Runtime Memory: "current discrete step index, current
    time, current values of all state vectors (differential, algebraic,
    quadrature, and backward analogues) and their previous-step shadow
    copies", with the Tape "owned by Runtime Memory".  [m_Z] and [m_RZ] hold
    the nonzeros of the discrete-time algebraic variables, so [Z.nnz()] is
    the length of [m_Z]. *)
Record FixedStepMemory := {
  m_t : double;
  m_k : Z;
  m_x : list double;
  m_z : list double;
  m_p : list double;
  m_q : list double;
  m_rx : list double;
  m_rz : list double;
  m_rp : list double;
  m_rq : list double;
  m_x_prev : list double;
  m_Z_prev : list double;
  m_q_prev : list double;
  m_rx_prev : list double;
  m_RZ_prev : list double;
  m_rq_prev : list double;
  m_Z : list double;
  m_RZ : list double;
  m_x_tape : list (list double);
  m_Z_tape : list (list double)
}.

(** Assignment to one member. *)
Definition set_m_t (v : double) (m : FixedStepMemory) : FixedStepMemory :=
  {| m_t := v; m_k := m_k m; m_x := m_x m; m_z := m_z m; m_p := m_p m; m_q := m_q m;
     m_rx := m_rx m; m_rz := m_rz m; m_rp := m_rp m; m_rq := m_rq m;
     m_x_prev := m_x_prev m; m_Z_prev := m_Z_prev m; m_q_prev := m_q_prev m;
     m_rx_prev := m_rx_prev m; m_RZ_prev := m_RZ_prev m; m_rq_prev := m_rq_prev m;
     m_Z := m_Z m; m_RZ := m_RZ m; m_x_tape := m_x_tape m; m_Z_tape := m_Z_tape m |}.
Definition set_m_k (v : Z) (m : FixedStepMemory) : FixedStepMemory :=
  {| m_t := m_t m; m_k := v; m_x := m_x m; m_z := m_z m; m_p := m_p m; m_q := m_q m;
     m_rx := m_rx m; m_rz := m_rz m; m_rp := m_rp m; m_rq := m_rq m;
     m_x_prev := m_x_prev m; m_Z_prev := m_Z_prev m; m_q_prev := m_q_prev m;
     m_rx_prev := m_rx_prev m; m_RZ_prev := m_RZ_prev m; m_rq_prev := m_rq_prev m;
     m_Z := m_Z m; m_RZ := m_RZ m; m_x_tape := m_x_tape m; m_Z_tape := m_Z_tape m |}.
Definition set_m_x (v : list double) (m : FixedStepMemory) : FixedStepMemory :=
  {| m_t := m_t m; m_k := m_k m; m_x := v; m_z := m_z m; m_p := m_p m; m_q := m_q m;
     m_rx := m_rx m; m_rz := m_rz m; m_rp := m_rp m; m_rq := m_rq m;
     m_x_prev := m_x_prev m; m_Z_prev := m_Z_prev m; m_q_prev := m_q_prev m;
     m_rx_prev := m_rx_prev m; m_RZ_prev := m_RZ_prev m; m_rq_prev := m_rq_prev m;
     m_Z := m_Z m; m_RZ := m_RZ m; m_x_tape := m_x_tape m; m_Z_tape := m_Z_tape m |}.
Definition set_m_z (v : list double) (m : FixedStepMemory) : FixedStepMemory :=
  {| m_t := m_t m; m_k := m_k m; m_x := m_x m; m_z := v; m_p := m_p m; m_q := m_q m;
     m_rx := m_rx m; m_rz := m_rz m; m_rp := m_rp m; m_rq := m_rq m;
     m_x_prev := m_x_prev m; m_Z_prev := m_Z_prev m; m_q_prev := m_q_prev m;
     m_rx_prev := m_rx_prev m; m_RZ_prev := m_RZ_prev m; m_rq_prev := m_rq_prev m;
     m_Z := m_Z m; m_RZ := m_RZ m; m_x_tape := m_x_tape m; m_Z_tape := m_Z_tape m |}.
Definition set_m_p (v : list double) (m : FixedStepMemory) : FixedStepMemory :=
  {| m_t := m_t m; m_k := m_k m; m_x := m_x m; m_z := m_z m; m_p := v; m_q := m_q m;
     m_rx := m_rx m; m_rz := m_rz m; m_rp := m_rp m; m_rq := m_rq m;
     m_x_prev := m_x_prev m; m_Z_prev := m_Z_prev m; m_q_prev := m_q_prev m;
     m_rx_prev := m_rx_prev m; m_RZ_prev := m_RZ_prev m; m_rq_prev := m_rq_prev m;
     m_Z := m_Z m; m_RZ := m_RZ m; m_x_tape := m_x_tape m; m_Z_tape := m_Z_tape m |}.
Definition set_m_q (v : list double) (m : FixedStepMemory) : FixedStepMemory :=
  {| m_t := m_t m; m_k := m_k m; m_x := m_x m; m_z := m_z m; m_p := m_p m; m_q := v;
     m_rx := m_rx m; m_rz := m_rz m; m_rp := m_rp m; m_rq := m_rq m;
     m_x_prev := m_x_prev m; m_Z_prev := m_Z_prev m; m_q_prev := m_q_prev m;
     m_rx_prev := m_rx_prev m; m_RZ_prev := m_RZ_prev m; m_rq_prev := m_rq_prev m;
     m_Z := m_Z m; m_RZ := m_RZ m; m_x_tape := m_x_tape m; m_Z_tape := m_Z_tape m |}.
Definition set_m_rx (v : list double) (m : FixedStepMemory) : FixedStepMemory :=
  {| m_t := m_t m; m_k := m_k m; m_x := m_x m; m_z := m_z m; m_p := m_p m;
     m_q := m_q m; m_rx := v; m_rz := m_rz m; m_rp := m_rp m; m_rq := m_rq m;
     m_x_prev := m_x_prev m; m_Z_prev := m_Z_prev m; m_q_prev := m_q_prev m;
     m_rx_prev := m_rx_prev m; m_RZ_prev := m_RZ_prev m; m_rq_prev := m_rq_prev m;
     m_Z := m_Z m; m_RZ := m_RZ m; m_x_tape := m_x_tape m; m_Z_tape := m_Z_tape m |}.
Definition set_m_rz (v : list double) (m : FixedStepMemory) : FixedStepMemory :=
  {| m_t := m_t m; m_k := m_k m; m_x := m_x m; m_z := m_z m; m_p := m_p m;
     m_q := m_q m; m_rx := m_rx m; m_rz := v; m_rp := m_rp m; m_rq := m_rq m;
     m_x_prev := m_x_prev m; m_Z_prev := m_Z_prev m; m_q_prev := m_q_prev m;
     m_rx_prev := m_rx_prev m; m_RZ_prev := m_RZ_prev m; m_rq_prev := m_rq_prev m;
     m_Z := m_Z m; m_RZ := m_RZ m; m_x_tape := m_x_tape m; m_Z_tape := m_Z_tape m |}.
Definition set_m_rp (v : list double) (m : FixedStepMemory) : FixedStepMemory :=
  {| m_t := m_t m; m_k := m_k m; m_x := m_x m; m_z := m_z m; m_p := m_p m;
     m_q := m_q m; m_rx := m_rx m; m_rz := m_rz m; m_rp := v; m_rq := m_rq m;
     m_x_prev := m_x_prev m; m_Z_prev := m_Z_prev m; m_q_prev := m_q_prev m;
     m_rx_prev := m_rx_prev m; m_RZ_prev := m_RZ_prev m; m_rq_prev := m_rq_prev m;
     m_Z := m_Z m; m_RZ := m_RZ m; m_x_tape := m_x_tape m; m_Z_tape := m_Z_tape m |}.
Definition set_m_rq (v : list double) (m : FixedStepMemory) : FixedStepMemory :=
  {| m_t := m_t m; m_k := m_k m; m_x := m_x m; m_z := m_z m; m_p := m_p m;
     m_q := m_q m; m_rx := m_rx m; m_rz := m_rz m; m_rp := m_rp m; m_rq := v;
     m_x_prev := m_x_prev m; m_Z_prev := m_Z_prev m; m_q_prev := m_q_prev m;
     m_rx_prev := m_rx_prev m; m_RZ_prev := m_RZ_prev m; m_rq_prev := m_rq_prev m;
     m_Z := m_Z m; m_RZ := m_RZ m; m_x_tape := m_x_tape m; m_Z_tape := m_Z_tape m |}.
Definition set_m_x_prev (v : list double) (m : FixedStepMemory) : FixedStepMemory :=
  {| m_t := m_t m; m_k := m_k m; m_x := m_x m; m_z := m_z m; m_p := m_p m;
     m_q := m_q m; m_rx := m_rx m; m_rz := m_rz m; m_rp := m_rp m; m_rq := m_rq m;
     m_x_prev := v; m_Z_prev := m_Z_prev m; m_q_prev := m_q_prev m;
     m_rx_prev := m_rx_prev m; m_RZ_prev := m_RZ_prev m; m_rq_prev := m_rq_prev m;
     m_Z := m_Z m; m_RZ := m_RZ m; m_x_tape := m_x_tape m; m_Z_tape := m_Z_tape m |}.
Definition set_m_Z_prev (v : list double) (m : FixedStepMemory) : FixedStepMemory :=
  {| m_t := m_t m; m_k := m_k m; m_x := m_x m; m_z := m_z m; m_p := m_p m;
     m_q := m_q m; m_rx := m_rx m; m_rz := m_rz m; m_rp := m_rp m; m_rq := m_rq m;
     m_x_prev := m_x_prev m; m_Z_prev := v; m_q_prev := m_q_prev m;
     m_rx_prev := m_rx_prev m; m_RZ_prev := m_RZ_prev m; m_rq_prev := m_rq_prev m;
     m_Z := m_Z m; m_RZ := m_RZ m; m_x_tape := m_x_tape m; m_Z_tape := m_Z_tape m |}.
Definition set_m_q_prev (v : list double) (m : FixedStepMemory) : FixedStepMemory :=
  {| m_t := m_t m; m_k := m_k m; m_x := m_x m; m_z := m_z m; m_p := m_p m;
     m_q := m_q m; m_rx := m_rx m; m_rz := m_rz m; m_rp := m_rp m; m_rq := m_rq m;
     m_x_prev := m_x_prev m; m_Z_prev := m_Z_prev m; m_q_prev := v;
     m_rx_prev := m_rx_prev m; m_RZ_prev := m_RZ_prev m; m_rq_prev := m_rq_prev m;
     m_Z := m_Z m; m_RZ := m_RZ m; m_x_tape := m_x_tape m; m_Z_tape := m_Z_tape m |}.
Definition set_m_rx_prev (v : list double) (m : FixedStepMemory) : FixedStepMemory :=
  {| m_t := m_t m; m_k := m_k m; m_x := m_x m; m_z := m_z m; m_p := m_p m;
     m_q := m_q m; m_rx := m_rx m; m_rz := m_rz m; m_rp := m_rp m; m_rq := m_rq m;
     m_x_prev := m_x_prev m; m_Z_prev := m_Z_prev m; m_q_prev := m_q_prev m;
     m_rx_prev := v; m_RZ_prev := m_RZ_prev m; m_rq_prev := m_rq_prev m; m_Z := m_Z m;
     m_RZ := m_RZ m; m_x_tape := m_x_tape m; m_Z_tape := m_Z_tape m |}.
Definition set_m_RZ_prev (v : list double) (m : FixedStepMemory) : FixedStepMemory :=
  {| m_t := m_t m; m_k := m_k m; m_x := m_x m; m_z := m_z m; m_p := m_p m;
     m_q := m_q m; m_rx := m_rx m; m_rz := m_rz m; m_rp := m_rp m; m_rq := m_rq m;
     m_x_prev := m_x_prev m; m_Z_prev := m_Z_prev m; m_q_prev := m_q_prev m;
     m_rx_prev := m_rx_prev m; m_RZ_prev := v; m_rq_prev := m_rq_prev m; m_Z := m_Z m;
     m_RZ := m_RZ m; m_x_tape := m_x_tape m; m_Z_tape := m_Z_tape m |}.
Definition set_m_rq_prev (v : list double) (m : FixedStepMemory) : FixedStepMemory :=
  {| m_t := m_t m; m_k := m_k m; m_x := m_x m; m_z := m_z m; m_p := m_p m;
     m_q := m_q m; m_rx := m_rx m; m_rz := m_rz m; m_rp := m_rp m; m_rq := m_rq m;
     m_x_prev := m_x_prev m; m_Z_prev := m_Z_prev m; m_q_prev := m_q_prev m;
     m_rx_prev := m_rx_prev m; m_RZ_prev := m_RZ_prev m; m_rq_prev := v; m_Z := m_Z m;
     m_RZ := m_RZ m; m_x_tape := m_x_tape m; m_Z_tape := m_Z_tape m |}.
Definition set_m_Z (v : list double) (m : FixedStepMemory) : FixedStepMemory :=
  {| m_t := m_t m; m_k := m_k m; m_x := m_x m; m_z := m_z m; m_p := m_p m;
     m_q := m_q m; m_rx := m_rx m; m_rz := m_rz m; m_rp := m_rp m; m_rq := m_rq m;
     m_x_prev := m_x_prev m; m_Z_prev := m_Z_prev m; m_q_prev := m_q_prev m;
     m_rx_prev := m_rx_prev m; m_RZ_prev := m_RZ_prev m; m_rq_prev := m_rq_prev m;
     m_Z := v; m_RZ := m_RZ m; m_x_tape := m_x_tape m; m_Z_tape := m_Z_tape m |}.
Definition set_m_RZ (v : list double) (m : FixedStepMemory) : FixedStepMemory :=
  {| m_t := m_t m; m_k := m_k m; m_x := m_x m; m_z := m_z m; m_p := m_p m;
     m_q := m_q m; m_rx := m_rx m; m_rz := m_rz m; m_rp := m_rp m; m_rq := m_rq m;
     m_x_prev := m_x_prev m; m_Z_prev := m_Z_prev m; m_q_prev := m_q_prev m;
     m_rx_prev := m_rx_prev m; m_RZ_prev := m_RZ_prev m; m_rq_prev := m_rq_prev m;
     m_Z := m_Z m; m_RZ := v; m_x_tape := m_x_tape m; m_Z_tape := m_Z_tape m |}.
Definition set_m_x_tape (v : list (list double)) (m : FixedStepMemory) : FixedStepMemory :=
  {| m_t := m_t m; m_k := m_k m; m_x := m_x m; m_z := m_z m; m_p := m_p m;
     m_q := m_q m; m_rx := m_rx m; m_rz := m_rz m; m_rp := m_rp m; m_rq := m_rq m;
     m_x_prev := m_x_prev m; m_Z_prev := m_Z_prev m; m_q_prev := m_q_prev m;
     m_rx_prev := m_rx_prev m; m_RZ_prev := m_RZ_prev m; m_rq_prev := m_rq_prev m;
     m_Z := m_Z m; m_RZ := m_RZ m; m_x_tape := v; m_Z_tape := m_Z_tape m |}.
Definition set_m_Z_tape (v : list (list double)) (m : FixedStepMemory) : FixedStepMemory :=
  {| m_t := m_t m; m_k := m_k m; m_x := m_x m; m_z := m_z m; m_p := m_p m;
     m_q := m_q m; m_rx := m_rx m; m_rz := m_rz m; m_rp := m_rp m; m_rq := m_rq m;
     m_x_prev := m_x_prev m; m_Z_prev := m_Z_prev m; m_q_prev := m_q_prev m;
     m_rx_prev := m_rx_prev m; m_RZ_prev := m_RZ_prev m; m_rq_prev := m_rq_prev m;
     m_Z := m_Z m; m_RZ := m_RZ m; m_x_tape := m_x_tape m; m_Z_tape := v |}.

(** ** class FixedStepIntegrator *)

(** Modelled from the spec: a CasADi [Function] over numeric buffers, for the
    discrete-time maps [F] and [G] ("one application of an explicit (or
    implicit, via root-finder) discrete-time map").  A call reads its
    inputs through [arg] (null: absent) and gives the nonzeros it writes to
    every output, through the buffers [res] points to.  It need not return:
    "Root-Finder failure (non-convergence) is surfaced as a fatal per-step
    error", and "a hung or non-converging Root-Finder call simply never
    returns control".  [call_throws] is the exception that ends such a call,
    [None] for a call that returns; in both failing cases nothing that
    follows the call is run, and [call] is what the call has written by
    then. *)
Record CasadiFunction (I O : Type) := {
  nnz_in : I -> Z;
  call : (I -> cptr double) -> O -> list double;
  call_throws : (I -> cptr double) -> option Exception
}.
Arguments nnz_in {I O} _ _.
Arguments call {I O} _ _ _.
Arguments call_throws {I O} _ _.

(** The function writes an output's nonzeros into the buffer it was given;
    the buffer keeps its size, and an empty vector has a null [get_ptr]. *)
Definition store_result {T} (r buf : list T) : list T :=
  take (length buf) r ++ drop (length r) buf.

Record FixedStepIntegrator := {
  base : Integrator;
  nk_ : Z;
  h_ : double;
  F_ : CasadiFunction DAEInput DAEOutput;
  G_ : option (CasadiFunction RDAEInput RDAEOutput);
  nZ_ : Z;
  nRZ_ : Z;
  (* virtual: F_ and G_ for an explicit scheme, the root-finders for an
     implicit one *)
  getExplicit : CasadiFunction DAEInput DAEOutput;
  getExplicitB : option (CasadiFunction RDAEInput RDAEOutput)
}.

(** [FixedStepIntegrator::FixedStepIntegrator(name, dae)]; the discrete maps
    are set by [setupFG] during [init]. *)
Definition FixedStepIntegrator_new (b : Integrator)
    (F : CasadiFunction DAEInput DAEOutput) : FixedStepIntegrator :=
  {| base := b; nk_ := 20; h_ := 0%float; F_ := F; G_ := None;
     nZ_ := 0; nRZ_ := 0; getExplicit := F; getExplicitB := None |}.

(** [FixedStepIntegrator::init(opts)].  [setupFG] is pure virtual; the
    concrete scheme supplies [F] and [G] ([G] null without a backward
    problem) and what [getExplicit] and [getExplicitB] return. *)
Definition FixedStepIntegrator_init (self : FixedStepIntegrator) (opts : Dict)
    (setupFG : Integrator ->
               CasadiFunction DAEInput DAEOutput *
               option (CasadiFunction RDAEInput RDAEOutput))
    : Result FixedStepIntegrator :=
  b <-- Integrator_init (base self) opts;
  nk <-- read_option opts "number_of_finite_elements" to_int (nk_ self);
  if negb (0 <? nk) then Throw (CasadiAssert "nk_>0") else
  let h := ((grid_back b - grid_front b) / int_to_double nk)%float in
  let '(F, G) := setupFG b in
  Ok {| base := b; nk_ := nk; h_ := h; F_ := F; G_ := G;
        nZ_ := nnz_in F DAE_Z;
        nRZ_ := match G with None => 0 | Some g => nnz_in g RDAE_RZ end;
        getExplicit := F; getExplicitB := G |}.

(** A default-constructed memory object. *)
Definition FixedStepMemory_new : FixedStepMemory :=
  {| m_t := 0%float; m_k := 0; m_x := []; m_z := []; m_p := []; m_q := [];
     m_rx := []; m_rz := []; m_rp := []; m_rq := [];
     m_x_prev := []; m_Z_prev := []; m_q_prev := [];
     m_rx_prev := []; m_RZ_prev := []; m_rq_prev := [];
     m_Z := []; m_RZ := []; m_x_tape := []; m_Z_tape := [] |}.

(** [std::vector::resize(n)] and [resize(n, val)] are stdpp's [resize];
    [vector<double>(n)] and [DM::zeros] hold zeros. *)
Definition zeros (n : Z) : list double := replicate (Z.to_nat n) 0%float.

(** [FixedStepIntegrator::init_memory(mem)]. *)
Definition init_memory (self : FixedStepIntegrator) (m : FixedStepMemory) : FixedStepMemory :=
  let b := base self in
  let m := set_m_Z (zeros (nnz_in (F_ self) DAE_Z)) m in
  let m := set_m_RZ (match G_ self with
                     | None => []
                     | Some g => zeros (nnz_in g RDAE_RZ)
                     end) m in
  let m :=
    if 0 <? nrx_ b then
      let m := set_m_x_tape
                 (resize (Z.to_nat (nk_ self + 1)) (zeros (nx_ b)) (m_x_tape m)) m in
      set_m_Z_tape (resize (Z.to_nat (nk_ self)) (zeros (nZ_ self)) (m_Z_tape m)) m
    else m in
  let m := set_m_x (resize (Z.to_nat (nx_ b)) 0%float (m_x m)) m in
  let m := set_m_z (resize (Z.to_nat (nz_ b)) 0%float (m_z m)) m in
  let m := set_m_p (resize (Z.to_nat (np_ b)) 0%float (m_p m)) m in
  let m := set_m_q (resize (Z.to_nat (nq_ b)) 0%float (m_q m)) m in
  let m := set_m_rx (resize (Z.to_nat (nrx_ b)) 0%float (m_rx m)) m in
  let m := set_m_rz (resize (Z.to_nat (nrz_ b)) 0%float (m_rz m)) m in
  let m := set_m_rp (resize (Z.to_nat (nrp_ b)) 0%float (m_rp m)) m in
  let m := set_m_rq (resize (Z.to_nat (nrq_ b)) 0%float (m_rq m)) m in
  let m := set_m_x_prev (resize (Z.to_nat (nx_ b)) 0%float (m_x_prev m)) m in
  let m := set_m_Z_prev (resize (Z.to_nat (nZ_ self)) 0%float (m_Z_prev m)) m in
  let m := set_m_q_prev (resize (Z.to_nat (nq_ b)) 0%float (m_q_prev m)) m in
  let m := set_m_rx_prev (resize (Z.to_nat (nrx_ b)) 0%float (m_rx_prev m)) m in
  let m := set_m_RZ_prev (resize (Z.to_nat (nRZ_ self)) 0%float (m_RZ_prev m)) m in
  set_m_rq_prev (resize (Z.to_nat (nrq_ b)) 0%float (m_rq_prev m)) m.

(** [p + off] for a pointer into an array. *)
Definition cptr_add {T} (p : cptr T) (off : Z) : cptr T :=
  match p with
  | None => None
  | Some l => Some (drop (Z.to_nat off) l)
  end.

(** [casadi_copy(src, n, get_ptr(tape.at(i)))]: the tape entry is
    overwritten in place; [at] throws when [i] is out of range. *)
Definition tape_write (tape : list (list double)) (i : Z) (src : cptr double) (n : Z)
    : Result (list (list double)) :=
  match vec_at tape i with
  | None => Throw OutOfRange
  | Some entry => Ok (<[Z.to_nat i := casadi_copy src n entry]> tape)
  end.

(** *** FixedStepIntegrator::advance *)

(** The discrete time sought: [int k_out = std::ceil((t - grid_.front())/h_)],
    [k_out = std::min(k_out, nk_)], [casadi_assert(k_out>=0)]. *)
Definition advance_k_out (self : FixedStepIntegrator) (t : double) : Result Z :=
  match std_ceil_int ((t - grid_front (base self)) / h_ self)%float with
  | None => Throw UndefinedConversion
  | Some k_out =>
      let k_out := Z.min k_out (nk_ self) in
      if 0 <=? k_out then Ok k_out else Throw (CasadiAssert "k_out>=0")
  end.

(** The argument array of [F]: pointers to [m->t], [m->x_prev], [m->Z_prev]
    and [m->p], read when [F] is called. *)
Definition advance_arg (m : FixedStepMemory) : DAEInput -> cptr double :=
  fun i => match i with
           | DAE_T => Some [m_t m]
           | DAE_X => get_ptr (m_x_prev m)
           | DAE_Z => get_ptr (m_Z_prev m)
           | DAE_P => get_ptr (m_p m)
           end.

(** [F(m->arg, m->res, m->iw, m->w, 0)] with [res] pointing to [m->x],
    [m->Z] and [m->q]. *)
Definition call_F (F : CasadiFunction DAEInput DAEOutput) (m : FixedStepMemory)
    : FixedStepMemory :=
  let out := call F (advance_arg m) in
  set_m_q (store_result (out DAE_QUAD) (m_q m))
    (set_m_Z (store_result (out DAE_ALG) (m_Z m))
      (set_m_x (store_result (out DAE_ODE) (m_x m)) m)).

(** The body of [while (m->k<k_out)], block by block. *)

(** "Update the previous step". *)
Definition update_previous (self : FixedStepIntegrator) (m : FixedStepMemory)
    : FixedStepMemory :=
  let b := base self in
  let m := set_m_x_prev (casadi_copy (get_ptr (m_x m)) (nx_ b) (m_x_prev m)) m in
  let m := set_m_Z_prev (casadi_copy (get_ptr (m_Z m)) (nZ_ self) (m_Z_prev m)) m in
  set_m_q_prev (casadi_copy (get_ptr (m_q m)) (nq_ b) (m_q_prev m)) m.

(** "Take step" when the call returns: the call of [F] and the accumulation
    of the quadrature. *)
Definition take_step (self : FixedStepIntegrator) (m : FixedStepMemory) : FixedStepMemory :=
  let m := call_F (getExplicit self) m in
  set_m_q (casadi_axpy (nq_ (base self)) 1%float (get_ptr (m_q_prev m)) (m_q m)) m.

(** "Tape": [m->x] goes to [x_tape.at(m->k+1)], [m->Z] to
    [Z_tape.at(m->k)]. *)
Definition record_tape (self : FixedStepIntegrator) : Stateful FixedStepMemory unit :=
  (m <- get ;;
   xt <- lift (tape_write (m_x_tape m) (m_k m + 1) (get_ptr (m_x m)) (nx_ (base self))) ;;
   modify (set_m_x_tape xt) ;;;
   Zt <- lift (tape_write (m_Z_tape m) (m_k m) (get_ptr (m_Z m))
                 (Z.of_nat (length (m_Z m)))) ;;
   modify (set_m_Z_tape Zt))%stateful.

(** "Advance time": [m->k++; m->t = grid_.front() + m->k*h_]. *)
Definition advance_time (self : FixedStepIntegrator) (m : FixedStepMemory)
    : FixedStepMemory :=
  let m := set_m_k (m_k m + 1) m in
  set_m_t (grid_front (base self) + int_to_double (m_k m) * h_ self)%float m.

(** One pass through the body.  When the call of [F] throws, its results
    are in the memory and neither the quadrature, nor the tape, nor the
    discrete time is touched. *)
Definition advance_step (self : FixedStepIntegrator) : Stateful FixedStepMemory unit :=
  (modify (update_previous self) ;;;
   m <- get ;;
   match call_throws (getExplicit self) (advance_arg m) with
   | Some e => modify (call_F (getExplicit self)) ;;; throw e
   | None => modify (take_step self)
   end ;;;
   (if 0 <? nrx_ (base self) then record_tape self else ret tt) ;;;
   modify (advance_time self))%stateful.

Fixpoint advance_loop (self : FixedStepIntegrator) (k_out : Z) (fuel : nat)
    : Stateful FixedStepMemory unit :=
  fun m =>
    if m_k m <? k_out then
      match fuel with
      | O => (Throw LoopFuel, m)
      | S fuel' => (advance_step self ;;; advance_loop self k_out fuel')%stateful m
      end
    else (Ok tt, m).

Definition FixedStepIntegrator_advance (self : FixedStepIntegrator) (t : double)
    : Stateful FixedStepMemory StepOutput :=
  (let b := base self in
   k_out <- lift (advance_k_out self t) ;;
   m <- get ;;
   advance_loop self k_out (Z.to_nat (k_out - m_k m)) ;;;
   m <- get ;;
   ret ((get_ptr (m_x m), nx_ b),
        (cptr_add (get_ptr (m_Z m)) (Z.of_nat (length (m_Z m)) - nz_ b), nz_ b),
        (get_ptr (m_q m), nq_ b)))%stateful.

(** *** FixedStepIntegrator::retreat *)

(** [int k_out = std::floor((t - grid_.front())/h_)],
    [k_out = std::max(k_out, 0)], [casadi_assert(k_out<=nk_)]. *)
Definition retreat_k_out (self : FixedStepIntegrator) (t : double) : Result Z :=
  match std_floor_int ((t - grid_front (base self)) / h_ self)%float with
  | None => Throw UndefinedConversion
  | Some k_out =>
      let k_out := Z.max k_out 0 in
      if k_out <=? nk_ self then Ok k_out else Throw (CasadiAssert "k_out<=nk_")
  end.

(** The argument array of [G] for one backward step: [x] and [Z] are the
    tape entries [m->x_tape.at(m->k)] and [m->Z_tape.at(m->k)]. *)
Definition retreat_arg (m : FixedStepMemory) (x Z : list double) : RDAEInput -> cptr double :=
  fun i => match i with
           | RDAE_T => Some [m_t m]
           | RDAE_X => get_ptr x
           | RDAE_Z => get_ptr Z
           | RDAE_P => get_ptr (m_p m)
           | RDAE_RX => get_ptr (m_rx_prev m)
           | RDAE_RZ => get_ptr (m_RZ_prev m)
           | RDAE_RP => get_ptr (m_rp m)
           end.

(** [G(m->arg, m->res, m->iw, m->w, 0)] with [res] pointing to [m->rx],
    [m->RZ] and [m->rq]. *)
Definition call_G (G : CasadiFunction RDAEInput RDAEOutput) (x Z : list double)
    (m : FixedStepMemory) : FixedStepMemory :=
  let out := call G (retreat_arg m x Z) in
  set_m_rq (store_result (out RDAE_QUAD) (m_rq m))
    (set_m_RZ (store_result (out RDAE_ALG) (m_RZ m))
      (set_m_rx (store_result (out RDAE_ODE) (m_rx m)) m)).

Definition tape_read (tape : list (list double)) (i : Z) : Result (list double) :=
  match vec_at tape i with
  | None => Throw OutOfRange
  | Some entry => Ok entry
  end.

(** The body of [while (m->k>k_out)], block by block. *)

(** "Advance time": [m->k--; m->t = grid_.front() + m->k*h_]. *)
Definition retreat_time (self : FixedStepIntegrator) (m : FixedStepMemory)
    : FixedStepMemory :=
  let m := set_m_k (m_k m - 1) m in
  set_m_t (grid_front (base self) + int_to_double (m_k m) * h_ self)%float m.

(** "Update the previous step". *)
Definition update_previousB (self : FixedStepIntegrator) (m : FixedStepMemory)
    : FixedStepMemory :=
  let b := base self in
  let m := set_m_rx_prev (casadi_copy (get_ptr (m_rx m)) (nrx_ b) (m_rx_prev m)) m in
  let m := set_m_RZ_prev (casadi_copy (get_ptr (m_RZ m)) (nRZ_ self) (m_RZ_prev m)) m in
  set_m_rq_prev (casadi_copy (get_ptr (m_rq m)) (nrq_ b) (m_rq_prev m)) m.

(** "Take step" when the call returns: [G] is called on the tape entries [x]
    and [Z], and the backward quadrature is accumulated. *)
Definition take_stepB (self : FixedStepIntegrator)
    (G : CasadiFunction RDAEInput RDAEOutput) (x Z : list double) (m : FixedStepMemory)
    : FixedStepMemory :=
  let m := call_G G x Z m in
  set_m_rq (casadi_axpy (nrq_ (base self)) 1%float (get_ptr (m_rq_prev m)) (m_rq m)) m.

Definition retreat_step (self : FixedStepIntegrator)
    (G : CasadiFunction RDAEInput RDAEOutput) : Stateful FixedStepMemory unit :=
  (modify (retreat_time self) ;;;
   modify (update_previousB self) ;;;
   m <- get ;;
   x <- lift (tape_read (m_x_tape m) (m_k m)) ;;
   Z <- lift (tape_read (m_Z_tape m) (m_k m)) ;;
   match call_throws G (retreat_arg m x Z) with
   | Some e => modify (call_G G x Z) ;;; throw e
   | None => modify (take_stepB self G x Z)
   end)%stateful.

Fixpoint retreat_loop (self : FixedStepIntegrator)
    (G : CasadiFunction RDAEInput RDAEOutput) (k_out : Z) (fuel : nat)
    : Stateful FixedStepMemory unit :=
  fun m =>
    if k_out <? m_k m then
      match fuel with
      | O => (Throw LoopFuel, m)
      | S fuel' => (retreat_step self G ;;; retreat_loop self G k_out fuel')%stateful m
      end
    else (Ok tt, m).

Definition FixedStepIntegrator_retreat (self : FixedStepIntegrator) (t : double)
    : Stateful FixedStepMemory StepOutput :=
  (let b := base self in
   k_out <- lift (retreat_k_out self t) ;;
   G <- lift (match getExplicitB self with
              | Some G => Ok G
              | None => Throw NullFunction
              end) ;;
   m <- get ;;
   retreat_loop self G k_out (Z.to_nat (m_k m - k_out)) ;;;
   m <- get ;;
   ret ((get_ptr (m_rx m), nrx_ b),
        (cptr_add (get_ptr (m_RZ m)) (Z.of_nat (length (m_RZ m)) - nrz_ b), nrz_ b),
        (get_ptr (m_rq m), nrq_ b)))%stateful.

(** *** FixedStepIntegrator::reset and resetB *)

Definition FixedStepIntegrator_reset (self : FixedStepIntegrator) (t : double)
    (x z p : cptr double) : Stateful FixedStepMemory unit :=
  (let b := base self in
   (* Update time *)
   modify (set_m_t t) ;;;
   (* Set parameters *)
   modify (fun m => set_m_p (casadi_copy p (np_ b) (m_p m)) m) ;;;
   (* Update the state *)
   modify (fun m => set_m_x (casadi_copy x (nx_ b) (m_x m)) m) ;;;
   modify (fun m => set_m_z (casadi_copy z (nz_ b) (m_z m)) m) ;;;
   (* Reset summation states *)
   modify (fun m => set_m_q (casadi_fill (m_q m) (nq_ b) 0%float) m) ;;;
   (* Bring discrete time to the beginning *)
   modify (set_m_k 0) ;;;
   (* Get consistent initial conditions *)
   modify (fun m => set_m_Z (casadi_fill (m_Z m) (Z.of_nat (length (m_Z m))) quiet_NaN) m) ;;;
   (* Add the first element in the tape *)
   (if 0 <? nrx_ b then
      m <- get ;;
      xt <- lift (tape_write (m_x_tape m) 0 x (nx_ b)) ;;
      modify (set_m_x_tape xt)
    else ret tt))%stateful.

Definition FixedStepIntegrator_resetB (self : FixedStepIntegrator) (t : double)
    (rx rz rp : cptr double) : Stateful FixedStepMemory unit :=
  (let b := base self in
   (* Update time *)
   modify (set_m_t t) ;;;
   (* Set parameters *)
   modify (fun m => set_m_rp (casadi_copy rp (nrp_ b) (m_rp m)) m) ;;;
   (* Update the state *)
   modify (fun m => set_m_rx (casadi_copy rx (nrx_ b) (m_rx m)) m) ;;;
   modify (fun m => set_m_rz (casadi_copy rz (nrz_ b) (m_rz m)) m) ;;;
   (* Reset summation states *)
   modify (fun m => set_m_rq (casadi_fill (m_rq m) (nrq_ b) 0%float) m) ;;;
   (* Bring discrete time to the end *)
   modify (set_m_k (nk_ self)) ;;;
   (* Get consistent initial conditions *)
   modify (fun m =>
     set_m_RZ (casadi_fill (m_RZ m) (Z.of_nat (length (m_RZ m))) quiet_NaN) m))%stateful.

(** The fixed-step scheme as an implementation of the stepping interface. *)
Definition FixedStepMethods (self : FixedStepIntegrator) : IntegratorMethods FixedStepMemory :=
  {| reset := FixedStepIntegrator_reset self;
     advance := FixedStepIntegrator_advance self;
     resetB := FixedStepIntegrator_resetB self;
     retreat := FixedStepIntegrator_retreat self;
     printStats := ret tt |}.

(** A top-level evaluation of a fixed-step integrator on the memory [m]. *)
Definition FixedStepIntegrator_eval (self : FixedStepIntegrator)
    (arg : IntegratorInput -> cptr double) : Stateful (EvalState FixedStepMemory) unit :=
  eval (base self) (FixedStepMethods self) arg.

(** ** Dependency propagation: Integrator::sp_fwd and Integrator::sp_rev *)

(** The memory the two methods work on: the argument and result buffers
    ([None]: a null entry of [arg] or [res]) and the work vector [w],
    addressed by offset. *)
Record SpMemory := {
  sp_arg : IntegratorInput -> cptr bvec_t;
  sp_res : IntegratorOutput -> cptr bvec_t;
  sp_w : Z -> bvec_t
}.

(** A [bvec_t*]: null, one of the caller's buffers, or a place in [w]. *)
Inductive bptr :=
  | Null
  | ArgPtr (i : IntegratorInput)
  | ResPtr (o : IntegratorOutput)
  | WPtr (off : Z).

(** The pointers [arg[i]] and [res[o]]. *)
Definition arg_ptr (m : SpMemory) (i : IntegratorInput) : bptr :=
  match sp_arg m i with Some _ => ArgPtr i | None => Null end.
Definition res_ptr (m : SpMemory) (o : IntegratorOutput) : bptr :=
  match sp_res m o with Some _ => ResPtr o | None => Null end.

Definition is_null (p : bptr) : bool :=
  match p with Null => true | _ => false end.

(** The [n] entries a pointer points to. *)
Definition load (m : SpMemory) (p : bptr) (n : Z) : cptr bvec_t :=
  match p with
  | Null => None
  | ArgPtr i => take (Z.to_nat n) <$> sp_arg m i
  | ResPtr o => take (Z.to_nat n) <$> sp_res m o
  | WPtr off => Some ((fun j => sp_w m (off + j)) <$> seqZ 0 n)
  end.

(** Writing the entries [v] through a pointer. *)
Definition store (m : SpMemory) (p : bptr) (v : list bvec_t) : SpMemory :=
  match p with
  | Null => m
  | ArgPtr i =>
      match sp_arg m i with
      | None => m
      | Some old =>
          {| sp_arg := slot_set (sp_arg m) i (Some (store_result v old));
             sp_res := sp_res m; sp_w := sp_w m |}
      end
  | ResPtr o =>
      match sp_res m o with
      | None => m
      | Some old =>
          {| sp_arg := sp_arg m;
             sp_res := slot_set (sp_res m) o (Some (store_result v old));
             sp_w := sp_w m |}
      end
  | WPtr off =>
      {| sp_arg := sp_arg m; sp_res := sp_res m;
         sp_w := fun j =>
           if (off <=? j) && (j <? off + Z.of_nat (length v))
           then default 0 (v !! Z.to_nat (j - off))
           else sp_w m j |}
  end.

Definition loaded (m : SpMemory) (p : bptr) (n : Z) : list bvec_t :=
  resize (Z.to_nat n) 0 (default [] (load m p n)).

(** [copy_n(src, n, dst)] and [fill_n(dst, n, 0)]. *)
Definition copy_n (src : bptr) (n : Z) (dst : bptr) (m : SpMemory) : SpMemory :=
  store m dst (loaded m src n).
Definition fill_n (dst : bptr) (n : Z) (v : bvec_t) (m : SpMemory) : SpMemory :=
  store m dst (replicate (Z.to_nat n) v).

(** [for (int i=0; i<n; ++i) dst[i] |= src[i]]. *)
Definition or_into (dst : bptr) (n : Z) (src : bptr) (m : SpMemory) : SpMemory :=
  store m dst (zip_with Z.lor (loaded m dst n) (loaded m src n)).

(** [sp.spsolve(btf, X, B, tr)] on [n] entries. *)
Definition spsolve_call (sp : BtfPattern) (X B : bptr) (n : Z) (tr : bool)
    (m : SpMemory) : SpMemory :=
  store m X (resize (Z.to_nat n) 0 (spsolve sp (loaded m X n) (loaded m B n) tr)).

Definition all_DEInput : list DEInput := [DE_T; DE_X; DE_Z; DE_P; DE_RX; DE_RZ; DE_RP].
Definition all_DEOutput : list DEOutput :=
  [DE_ODE; DE_ALG; DE_QUAD; DE_RODE; DE_RALG; DE_RQUAD].

Definition oracle_nnz_in (o : Oracle) (i : DEInput) : Z := nnz (sparsity_in o i).
Definition oracle_nnz_out (o : Oracle) (out : DEOutput) : Z := nnz (sparsity_out o out).

(** [oracle_(arg1, res1, iw, w, 0)] on dependency bits: the oracle reads
    the buffers of [arg1], uses the work vector from [w] on, and writes
    every output that has a buffer in [res1]. *)
Definition oracle_fwd_call (o : Oracle) (arg1 : DEInput -> bptr) (res1 : DEOutput -> bptr)
    (w : Z) (m : SpMemory) : SpMemory :=
  let ins := fun i => load m (arg1 i) (oracle_nnz_in o i) in
  let outs := sp_forward o ins in
  let m := store m (WPtr w) (sp_scratch o ins (fun _ => None)) in
  foldl (fun m out =>
           store m (res1 out) (resize (Z.to_nat (oracle_nnz_out o out)) 0 (outs out)))
        m all_DEOutput.

(** [oracle_.rev(arg1, res1, iw, w, 0)]: the seeds are read from the
    buffers of [res1], the dependencies are added to the buffers of [arg1],
    and the oracle leaves its new contents in both. *)
Definition oracle_rev_call (o : Oracle) (arg1 : DEInput -> bptr) (res1 : DEOutput -> bptr)
    (w : Z) (m : SpMemory) : SpMemory :=
  let ins := fun i => load m (arg1 i) (oracle_nnz_in o i) in
  let seeds := fun out => load m (res1 out) (oracle_nnz_out o out) in
  let new := sp_reverse o ins seeds in
  let m := store m (WPtr w) (sp_scratch o ins seeds) in
  let m := foldl (fun m i =>
                    store m (arg1 i) (resize (Z.to_nat (oracle_nnz_in o i)) 0 (fst new i)))
                 m all_DEInput in
  foldl (fun m out =>
           store m (res1 out) (resize (Z.to_nat (oracle_nnz_out o out)) 0 (snd new out)))
        m all_DEOutput.

Definition sp_fwd (self : Integrator) (m : SpMemory) : SpMemory :=
  let o := oracle_ self in
  let nx := nx_ self in let nz := nz_ self in
  let nrx := nrx_ self in let nrz := nrz_ self in
  (* Work vectors *)
  let tmp_x := WPtr 0 in
  let tmp_z := WPtr nx in
  let tmp_rx := WPtr (nx + nz) in
  let tmp_rz := WPtr (nx + nz + nrx) in
  let w := nx + nz + nrx + nrz in
  (* Propagate forward *)
  let arg1 : DEInput -> bptr := fun _ => Null in
  let arg1 := slot_set arg1 DE_X (arg_ptr m INTEGRATOR_X0) in
  let arg1 := slot_set arg1 DE_P (arg_ptr m INTEGRATOR_P) in
  let res1 : DEOutput -> bptr := fun _ => Null in
  let res1 := slot_set res1 DE_ODE tmp_x in
  let res1 := slot_set res1 DE_ALG tmp_z in
  let m := oracle_fwd_call o arg1 res1 w m in
  let m := if is_null (arg_ptr m INTEGRATOR_X0) then m
           else or_into tmp_x nx (arg_ptr m INTEGRATOR_X0) m in
  (* "Solve" in order to resolve interdependencies *)
  let m := copy_n tmp_x (nx + nz) (WPtr w) m in
  let m := fill_n tmp_x (nx + nz) 0 m in
  let m := spsolve_call (sp_jac_dae_ self) tmp_x (WPtr w) (nx + nz) false m in
  (* Get xf and zf *)
  let m := if is_null (res_ptr m INTEGRATOR_XF) then m
           else copy_n tmp_x nx (res_ptr m INTEGRATOR_XF) m in
  let m := if is_null (res_ptr m INTEGRATOR_ZF) then m
           else copy_n tmp_z nz (res_ptr m INTEGRATOR_ZF) m in
  (* Propagate to quadratures *)
  let '(arg1, res1, m) :=
    if (0 <? nq_ self) && negb (is_null (res_ptr m INTEGRATOR_QF)) then
      let arg1 := slot_set arg1 DE_X tmp_x in
      let arg1 := slot_set arg1 DE_Z tmp_z in
      let res1 := slot_set (slot_set res1 DE_ALG Null) DE_ODE Null in
      let res1 := slot_set res1 DE_QUAD (res_ptr m INTEGRATOR_QF) in
      (arg1, res1, oracle_fwd_call o arg1 res1 w m)
    else (arg1, res1, m) in
  if 0 <? nrx then
    (* Propagate through g *)
    let arg1 : DEInput -> bptr := fun _ => Null in
    let arg1 := slot_set arg1 DE_X tmp_x in
    let arg1 := slot_set arg1 DE_P (arg_ptr m INTEGRATOR_P) in
    let arg1 := slot_set arg1 DE_Z tmp_z in
    let arg1 := slot_set arg1 DE_RX (arg_ptr m INTEGRATOR_X0) in
    let arg1 := slot_set arg1 DE_RX (arg_ptr m INTEGRATOR_RX0) in
    let arg1 := slot_set arg1 DE_RP (arg_ptr m INTEGRATOR_RP) in
    let res1 : DEOutput -> bptr := fun _ => Null in
    let res1 := slot_set res1 DE_RODE tmp_rx in
    let res1 := slot_set res1 DE_RALG tmp_rz in
    let m := oracle_fwd_call o arg1 res1 w m in
    let m := if is_null (arg_ptr m INTEGRATOR_RX0) then m
             else or_into tmp_rx nrx (arg_ptr m INTEGRATOR_RX0) m in
    (* "Solve" in order to resolve interdependencies *)
    let m := copy_n tmp_rx (nrx + nrz) (WPtr w) m in
    let m := fill_n tmp_rx (nrx + nrz) 0 m in
    let m := spsolve_call (sp_jac_rdae_ self) tmp_rx (WPtr w) (nrx + nrz) false m in
    (* Get rxf and rzf *)
    let m := if is_null (res_ptr m INTEGRATOR_RXF) then m
             else copy_n tmp_rx nrx (res_ptr m INTEGRATOR_RXF) m in
    let m := if is_null (res_ptr m INTEGRATOR_RZF) then m
             else copy_n tmp_rz nrz (res_ptr m INTEGRATOR_RZF) m in
    (* Propagate to quadratures *)
    if (0 <? nrq_ self) && negb (is_null (res_ptr m INTEGRATOR_RQF)) then
      let arg1 := slot_set arg1 DE_RX tmp_rx in
      let arg1 := slot_set arg1 DE_RZ tmp_rz in
      let res1 := slot_set (slot_set res1 DE_RALG Null) DE_RODE Null in
      let res1 := slot_set res1 DE_RQUAD (res_ptr m INTEGRATOR_RQF) in
      oracle_fwd_call o arg1 res1 w m
    else m
  else m.

(** [if (out) { copy_n(out, n, tmp); fill_n(out, n, 0); } else
    fill_n(tmp, n, 0);] *)
Definition take_seed (out : bptr) (n : Z) (tmp : bptr) (m : SpMemory) : SpMemory :=
  if is_null out then fill_n tmp n 0 m
  else fill_n out n 0 (copy_n out n tmp m).

Definition sp_rev (self : Integrator) (m : SpMemory) : SpMemory :=
  let o := oracle_ self in
  let nx := nx_ self in let nz := nz_ self in
  let nrx := nrx_ self in let nrz := nrz_ self in
  (* Work vectors *)
  let tmp_x := WPtr 0 in
  let tmp_z := WPtr nx in
  let w := nx + nz in
  (* Shorthands *)
  let x0 := arg_ptr m INTEGRATOR_X0 in
  let p := arg_ptr m INTEGRATOR_P in
  let xf := res_ptr m INTEGRATOR_XF in
  let zf := res_ptr m INTEGRATOR_ZF in
  let qf := res_ptr m INTEGRATOR_QF in
  (* Propagate from outputs to state vectors *)
  let m := take_seed xf nx tmp_x m in
  let m := take_seed zf nz tmp_z m in
  let '(w, m) :=
    if 0 <? nrx then
      (* Work vectors *)
      let tmp_rx := WPtr w in
      let w := w + nrx in
      let tmp_rz := WPtr w in
      let w := w + nrz in
      (* Shorthands *)
      let rx0 := arg_ptr m INTEGRATOR_RX0 in
      let rp := arg_ptr m INTEGRATOR_RP in
      let rxf := res_ptr m INTEGRATOR_RXF in
      let rzf := res_ptr m INTEGRATOR_RZF in
      let rqf := res_ptr m INTEGRATOR_RQF in
      (* Propagate from outputs to state vectors *)
      let m := take_seed rxf nrx tmp_rx m in
      let m := take_seed rzf nrz tmp_rz m in
      (* Get dependencies from backward quadratures *)
      let res1 : DEOutput -> bptr := fun _ => Null in
      let arg1 : DEInput -> bptr := fun _ => Null in
      let res1 := slot_set res1 DE_RQUAD rqf in
      let arg1 := slot_set arg1 DE_X tmp_x in
      let arg1 := slot_set arg1 DE_Z tmp_z in
      let arg1 := slot_set arg1 DE_P p in
      let arg1 := slot_set arg1 DE_RX tmp_rx in
      let arg1 := slot_set arg1 DE_RZ tmp_rz in
      let arg1 := slot_set arg1 DE_RP rp in
      let m := oracle_rev_call o arg1 res1 w m in
      (* Propagate interdependencies *)
      let m := fill_n (WPtr w) (nrx + nrz) 0 m in
      let m := spsolve_call (sp_jac_rdae_ self) (WPtr w) tmp_rx (nrx + nrz) true m in
      let m := copy_n (WPtr w) (nrx + nrz) tmp_rx m in
      (* Direct dependency rx0 -> rxf *)
      let m := if is_null rx0 then m else or_into rx0 nrx tmp_rx m in
      (* Indirect dependency via g *)
      let res1 := slot_set res1 DE_RODE tmp_rx in
      let res1 := slot_set res1 DE_RALG tmp_rz in
      let res1 := slot_set res1 DE_RQUAD Null in
      let arg1 := slot_set arg1 DE_RX rx0 in
      let arg1 := slot_set arg1 DE_RZ Null in (* arg[INTEGRATOR_RZ0] is a guess *)
      (w, oracle_rev_call o arg1 res1 w m)
    else (w, m) in
  (* Get dependencies from forward quadratures *)
  let res1 : DEOutput -> bptr := fun _ => Null in
  let arg1 : DEInput -> bptr := fun _ => Null in
  let res1 := slot_set res1 DE_QUAD qf in
  let arg1 := slot_set arg1 DE_X tmp_x in
  let arg1 := slot_set arg1 DE_Z tmp_z in
  let arg1 := slot_set arg1 DE_P p in
  let m := if negb (is_null qf) && (0 <? nq_ self)
           then oracle_rev_call o arg1 res1 w m else m in
  (* Propagate interdependencies *)
  let m := fill_n (WPtr w) (nx + nz) 0 m in
  let m := spsolve_call (sp_jac_dae_ self) (WPtr w) tmp_x (nx + nz) true m in
  let m := copy_n (WPtr w) (nx + nz) tmp_x m in
  (* Direct dependency x0 -> xf *)
  let m := if is_null x0 then m else or_into x0 nx tmp_x m in
  (* Indirect dependency through f *)
  let res1 := slot_set res1 DE_ODE tmp_x in
  let res1 := slot_set res1 DE_ALG tmp_z in
  let res1 := slot_set res1 DE_QUAD Null in
  let arg1 := slot_set arg1 DE_X x0 in
  let arg1 := slot_set arg1 DE_Z Null in (* arg[INTEGRATOR_Z0] is a guess *)
  oracle_rev_call o arg1 res1 w m.

(** ** Augmented systems: Integrator::aug_fwd and Integrator::aug_adj *)

(** The local vectors of expressions the two builders fill, by name. *)
Inductive AugVec :=
  | aug_x | aug_z | aug_p | aug_rx | aug_rz | aug_rp
  | aug_ode | aug_alg | aug_quad | aug_rode | aug_ralg | aug_rquad.

#[global] Instance AugVec_eq_dec : EqDecision AugVec.
Proof. solve_decision. Defined.

(** [v.push_back(e)] on one of a family of vectors. *)
Definition push_back {I T} `{EqDecision I} (vs : I -> list T) (i : I) (e : T) : I -> list T :=
  slot_set vs i (vs i ++ [e]).

(** The input and output expressions of the oracle, and the part common to
    both builders: the nondifferentiated column of every block. *)
Definition oracle_arg (o : Oracle) : DEInput -> MatType :=
  fun i => OracleIn i (sparsity_in o i).
Definition oracle_res (o : Oracle) : DEOutput -> MatType :=
  fun out => OracleOut out (sparsity_out o out).

Definition aug_start (o : Oracle) : AugVec -> list MatType :=
  let arg := oracle_arg o in
  let res := oracle_res o in
  let v : AugVec -> list MatType := fun _ => [] in
  let v := push_back v aug_x (arg DE_X) in
  let v := push_back v aug_z (arg DE_Z) in
  let v := push_back v aug_p (arg DE_P) in
  let v := push_back v aug_rx (arg DE_RX) in
  let v := push_back v aug_rz (arg DE_RZ) in
  let v := push_back v aug_rp (arg DE_RP) in
  let v := push_back v aug_ode (res DE_ODE) in
  let v := push_back v aug_alg (res DE_ALG) in
  let v := push_back v aug_quad (res DE_QUAD) in
  let v := push_back v aug_rode (res DE_RODE) in
  let v := push_back v aug_ralg (res DE_RALG) in
  push_back v aug_rquad (res DE_RQUAD).

(** The returned [map<string, MatType>]. *)
Definition aug_ret (o : Oracle) (v : AugVec -> list MatType) : gmap string MatType :=
  let ret : gmap string MatType := ∅ in
  let ret := <["t" := oracle_arg o DE_T]> ret in
  let ret := <["x" := horzcat (v aug_x)]> ret in
  let ret := <["z" := horzcat (v aug_z)]> ret in
  let ret := <["p" := horzcat (v aug_p)]> ret in
  let ret := <["ode" := horzcat (v aug_ode)]> ret in
  let ret := <["alg" := horzcat (v aug_alg)]> ret in
  let ret := <["quad" := horzcat (v aug_quad)]> ret in
  let ret := <["rx" := horzcat (v aug_rx)]> ret in
  let ret := <["rz" := horzcat (v aug_rz)]> ret in
  let ret := <["rp" := horzcat (v aug_rp)]> ret in
  let ret := <["rode" := horzcat (v aug_rode)]> ret in
  let ret := <["ralg" := horzcat (v aug_ralg)]> ret in
  <["rquad" := horzcat (v aug_rquad)]> ret.

(** [sens[d][slot]] once the sizes have been asserted. *)
Definition sens_at (row : list MatType) (slot : nat) : MatType :=
  default MatType_empty (row !! slot).

(** The loop that collects the sensitivity equations, with its assertion
    [cond] on the size of every [sens[d]]. *)
Definition collect_sens (sens : list (list MatType)) (n_expected : Z) (cond : string)
    (n : Z)
    (body : list MatType -> (AugVec -> list MatType) -> AugVec -> list MatType)
    (v : AugVec -> list MatType) : Result (AugVec -> list MatType) :=
  for_range 0 n
    (fun d r =>
       v <-- r;
       let row := default [] (sens !! Z.to_nat d) in
       if Z.of_nat (length row) =? n_expected then Ok (body row v)
       else Throw (CasadiAssert cond))
    (Ok v).

Definition aug_fwd (self : Integrator) (nfwd : Z) : Result (gmap string MatType) :=
  let o := oracle_ self in
  let v := aug_start o in
  (* Zero of time dimension *)
  let zero_t := Zeros (t_ self) in
  (* Forward directional derivatives: [seed(nfwd, ...)] cannot be constructed
     with a negative count *)
  if nfwd <? 0 then Throw LengthError else
  let '(v, seed) :=
    for_range 0 nfwd
      (fun d '(v, seed) =>
         let sd : DEInput -> MatType := fun _ => MatType_empty in
         let sd := slot_set sd DE_T zero_t in
         let pref := "aug" +:+ pretty d +:+ "_" in
         let e := Sym (pref +:+ "x") (x_ self) in
         let sd := slot_set sd DE_X e in let v := push_back v aug_x e in
         let e := Sym (pref +:+ "z") (z_ self) in
         let sd := slot_set sd DE_Z e in let v := push_back v aug_z e in
         let e := Sym (pref +:+ "p") (p_ self) in
         let sd := slot_set sd DE_P e in let v := push_back v aug_p e in
         let e := Sym (pref +:+ "rx") (rx_ self) in
         let sd := slot_set sd DE_RX e in let v := push_back v aug_rx e in
         let e := Sym (pref +:+ "rz") (rz_ self) in
         let sd := slot_set sd DE_RZ e in let v := push_back v aug_rz e in
         let e := Sym (pref +:+ "rp") (rp_ self) in
         let sd := slot_set sd DE_RP e in let v := push_back v aug_rp e in
         (v, seed ++ [sd]))
      (v, []) in
  (* Calculate directional derivatives *)
  let sens := forward o (oracle_arg o) (oracle_res o) seed in
  (* Collect sensitivity equations *)
  if negb (Z.of_nat (length sens) =? nfwd) then Throw (CasadiAssert "sens.size()==nfwd")
  else
    v <-- collect_sens sens DE_NUM_OUT "sens[d].size()==DE_NUM_OUT" nfwd
            (fun row v =>
               let v := push_back v aug_ode
                          (project (sens_at row (DEOutput_index DE_ODE)) (x_ self)) in
               let v := push_back v aug_alg
                          (project (sens_at row (DEOutput_index DE_ALG)) (z_ self)) in
               let v := push_back v aug_quad
                          (project (sens_at row (DEOutput_index DE_QUAD)) (q_ self)) in
               let v := push_back v aug_rode
                          (project (sens_at row (DEOutput_index DE_RODE)) (rx_ self)) in
               let v := push_back v aug_ralg
                          (project (sens_at row (DEOutput_index DE_RALG)) (rz_ self)) in
               push_back v aug_rquad
                 (project (sens_at row (DEOutput_index DE_RQUAD)) (rq_ self)))
            v;
    Ok (aug_ret o v).

Definition aug_adj (self : Integrator) (nadj : Z) : Result (gmap string MatType) :=
  let o := oracle_ self in
  let v := aug_start o in
  (* Reverse mode directional derivatives: [seed(nadj, ...)] cannot be
     constructed with a negative count *)
  if nadj <? 0 then Throw LengthError else
  let '(v, seed) :=
    for_range 0 nadj
      (fun d '(v, seed) =>
         let sd : DEOutput -> MatType := fun _ => MatType_empty in
         let pref := "aug" +:+ pretty d +:+ "_" in
         let e := Sym (pref +:+ "ode") (x_ self) in
         let sd := slot_set sd DE_ODE e in let v := push_back v aug_rx e in
         let e := Sym (pref +:+ "alg") (z_ self) in
         let sd := slot_set sd DE_ALG e in let v := push_back v aug_rz e in
         let e := Sym (pref +:+ "quad") (q_ self) in
         let sd := slot_set sd DE_QUAD e in let v := push_back v aug_rp e in
         let e := Sym (pref +:+ "rode") (rx_ self) in
         let sd := slot_set sd DE_RODE e in let v := push_back v aug_x e in
         let e := Sym (pref +:+ "ralg") (rz_ self) in
         let sd := slot_set sd DE_RALG e in let v := push_back v aug_z e in
         let e := Sym (pref +:+ "rquad") (rq_ self) in
         let sd := slot_set sd DE_RQUAD e in let v := push_back v aug_p e in
         (v, seed ++ [sd]))
      (v, []) in
  (* Calculate directional derivatives *)
  let sens := reverse o (oracle_arg o) (oracle_res o) seed in
  (* Collect sensitivity equations *)
  if negb (Z.of_nat (length sens) =? nadj) then Throw (CasadiAssert "sens.size()==nadj")
  else
    v <-- collect_sens sens DE_NUM_IN "sens[d].size()==DE_NUM_IN" nadj
            (fun row v =>
               let v := push_back v aug_rode
                          (project (sens_at row (DEInput_index DE_X)) (x_ self)) in
               let v := push_back v aug_ralg
                          (project (sens_at row (DEInput_index DE_Z)) (z_ self)) in
               let v := push_back v aug_rquad
                          (project (sens_at row (DEInput_index DE_P)) (p_ self)) in
               let v := push_back v aug_ode
                          (project (sens_at row (DEInput_index DE_RX)) (rx_ self)) in
               let v := push_back v aug_alg
                          (project (sens_at row (DEInput_index DE_RZ)) (rz_ self)) in
               push_back v aug_quad
                 (project (sens_at row (DEInput_index DE_RP)) (rp_ self)))
            v;
    Ok (aug_ret o v).

(** ** Integrator::getAugOffset *)

(** [struct AugOffset { std::vector<int> x, z, q, p, rx, rz, rq, rp; }]: one
    offset vector for each quantity. *)
Inductive Quantity := Q_x | Q_z | Q_q | Q_p | Q_rx | Q_rz | Q_rq | Q_rp.

#[global] Instance Quantity_eq_dec : EqDecision Quantity.
Proof. solve_decision. Defined.

Definition AugOffset : Type := Quantity -> list Z.

(** [if (c) v.push_back(e)]. *)
Definition push_if (c : bool) (ret : AugOffset) (f : Quantity) (e : Z) : AugOffset :=
  if c then push_back ret f e else ret.

(** [for (int i=1; i<v.size(); ++i) v[i] += v[i-1]]. *)
Definition cumsum (v : list Z) : list Z :=
  for_range 1 (Z.of_nat (length v))
    (fun i v =>
       <[Z.to_nat i := default 0 (v !! Z.to_nat i) + default 0 (v !! Z.to_nat (i - 1))]> v)
    v.

Definition getAugOffset (self : Integrator) (nfwd nadj : Z) : AugOffset :=
  (* Form return object *)
  let ret : AugOffset := fun _ => [0] in
  (* Count nondifferentiated and forward sensitivities *)
  let ret :=
    for_range (-1) nfwd
      (fun dir ret =>
         let ret := push_if (0 <? nx_ self) ret Q_x (size2 (x_ self)) in
         let ret := push_if (0 <? nz_ self) ret Q_z (size2 (z_ self)) in
         let ret := push_if (0 <? nq_ self) ret Q_q (size2 (q_ self)) in
         let ret := push_if (0 <? np_ self) ret Q_p (size2 (p_ self)) in
         let ret := push_if (0 <? nrx_ self) ret Q_rx (size2 (rx_ self)) in
         let ret := push_if (0 <? nrz_ self) ret Q_rz (size2 (rz_ self)) in
         let ret := push_if (0 <? nrq_ self) ret Q_rq (size2 (rq_ self)) in
         push_if (0 <? nrp_ self) ret Q_rp (size2 (rp_ self)))
      ret in
  (* Count adjoint sensitivities *)
  let ret :=
    for_range 0 nadj
      (fun dir ret =>
         let ret := push_if (0 <? nx_ self) ret Q_rx (size2 (x_ self)) in
         let ret := push_if (0 <? nz_ self) ret Q_rz (size2 (z_ self)) in
         let ret := push_if (0 <? np_ self) ret Q_rq (size2 (p_ self)) in
         let ret := push_if (0 <? nq_ self) ret Q_rp (size2 (q_ self)) in
         let ret := push_if (0 <? nrx_ self) ret Q_x (size2 (x_ self)) in
         let ret := push_if (0 <? nrz_ self) ret Q_z (size2 (rz_ self)) in
         let ret := push_if (0 <? nrp_ self) ret Q_q (size2 (rp_ self)) in
         push_if (0 <? nrq_ self) ret Q_p (size2 (rq_ self)))
      ret in
  (* Get cummulative offsets *)
  fun f => cumsum (ret f).

(** The block of the augmented problem that carries a quantity: the
    variable block for a state or a parameter, the quadrature equation
    block for a quadrature. *)
Definition block_name (f : Quantity) : string :=
  match f with
  | Q_x => "x" | Q_z => "z" | Q_q => "quad" | Q_p => "p"
  | Q_rx => "rx" | Q_rz => "rz" | Q_rq => "rquad" | Q_rp => "rp"
  end.

(** The nonzero count that goes with a quantity. *)
Definition dimension (self : Integrator) (f : Quantity) : Z :=
  match f with
  | Q_x => nx_ self | Q_z => nz_ self | Q_q => nq_ self | Q_p => np_ self
  | Q_rx => nrx_ self | Q_rz => nrz_ self | Q_rq => nrq_ self | Q_rp => nrp_ self
  end.

(** The last entry of an offset vector: the total number of columns. *)
Definition final_offset (off : AugOffset) (f : Quantity) : Z :=
  default 0 (last (off f)).

(** The column count of a block of an augmented problem. *)
Definition block_columns (dae : Result (gmap string MatType)) (f : Quantity) : option Z :=
  match dae with
  | Ok ret => columns <$> ret !! block_name f
  | Throw _ => None
  end.

(** ** class ImplicitFixedStepIntegrator *)

(** Modelled from the spec: the root-finder factory
    [rootfinder(name, solver, f, opts)] is an external collaborator ("given
    an implicit discrete map, solves for the algebraic/implicit output
    satisfying it").  A root-finder instance is kept as the arguments it
    was constructed with; [F] is the type of the function handle. *)
Record Rootfinder (F : Type) := {
  rf_name : string;
  rf_solver : string;
  rf_function : F;
  rf_options : Dict
}.
Arguments rf_name {F} _.
Arguments rf_solver {F} _.
Arguments rf_function {F} _.
Arguments rf_options {F} _.
Arguments Build_Rootfinder {F} _ _ _ _.

Definition rootfinder {F} (name solver : string) (f : F) (opts : Dict) : Rootfinder F :=
  Build_Rootfinder name solver f opts.

Record ImplicitFixedStepIntegrator := {
  fixed_step : FixedStepIntegrator;
  (* null until init *)
  rootfinder_ : option (Rootfinder (CasadiFunction DAEInput DAEOutput));
  backward_rootfinder_ :
    option (Rootfinder (option (CasadiFunction RDAEInput RDAEOutput)))
}.

Definition ImplicitFixedStepIntegrator_new (fs : FixedStepIntegrator)
    : ImplicitFixedStepIntegrator :=
  {| fixed_step := fs; rootfinder_ := None; backward_rootfinder_ := None |}.

(** [ImplicitFixedStepIntegrator::init(opts)]. *)
Definition ImplicitFixedStepIntegrator_init (self : ImplicitFixedStepIntegrator)
    (opts : Dict)
    (setupFG : Integrator ->
               CasadiFunction DAEInput DAEOutput *
               option (CasadiFunction RDAEInput RDAEOutput))
    : Result ImplicitFixedStepIntegrator :=
  (* Call the base class init *)
  fs <-- FixedStepIntegrator_init (fixed_step self) opts setupFG;
  (* Read options *)
  implicit_function_name <-- read_option opts "rootfinder" to_string "newton";
  rootfinder_options <-- read_option opts "rootfinder_options" to_dict ∅;
  (* Complete rootfinder dictionary *)
  let rootfinder_options :=
    <["implicit_input" := GT_int (DAEInput_index DAE_Z)]> rootfinder_options in
  let rootfinder_options :=
    <["implicit_output" := GT_int (DAEOutput_index DAE_ALG)]> rootfinder_options in
  (* Allocate a solver *)
  let rf := rootfinder (name_ (base fs) +:+ "_rootfinder") implicit_function_name
              (F_ fs) rootfinder_options in
  (* Allocate a root-finding solver for the backward problem *)
  let brf :=
    if 0 <? nRZ_ fs then
      let backward_rootfinder_options := rootfinder_options in
      let backward_rootfinder_options :=
        <["implicit_input" := GT_int (RDAEInput_index RDAE_RZ)]>
          backward_rootfinder_options in
      let backward_rootfinder_options :=
        <["implicit_output" := GT_int (RDAEOutput_index RDAE_ALG)]>
          backward_rootfinder_options in
      let backward_implicit_function_name := implicit_function_name in
      Some (rootfinder (name_ (base fs) +:+ "_backward_rootfinder")
              backward_implicit_function_name (G_ fs) backward_rootfinder_options)
    else backward_rootfinder_ self in
  Ok {| fixed_step := fs; rootfinder_ := Some rf; backward_rootfinder_ := brf |}.

(** ** A worked problem *)

(** Linear decay [dx/dt = -x] with the quadrature [dq/dt = x], a backward
    state driven by the forward one, and explicit Euler as the discrete
    scheme: the data the examples and witnesses below are run on. *)
Definition dense (rows cols : Z) : Sparsity :=
  {| size1 := rows; size2 := cols; nnz := rows * cols |}.

Definition or_all (v : cptr bvec_t) : bvec_t :=
  foldr Z.lor 0 (default [] v).

Definition decay_oracle (with_backward : bool) : Oracle :=
  let nb := if with_backward then 1 else 0 in
  {| sparsity_in := fun i =>
       match i with
       | DE_T => dense 1 1 | DE_X => dense 1 1 | DE_Z => dense 0 0 | DE_P => dense 0 0
       | DE_RX => dense nb nb | DE_RZ => dense 0 0 | DE_RP => dense 0 0
       end;
     sparsity_out := fun o =>
       match o with
       | DE_ODE => dense 1 1 | DE_ALG => dense 0 0 | DE_QUAD => dense 1 1
       | DE_RODE => dense nb nb | DE_RALG => dense 0 0 | DE_RQUAD => dense 0 0
       end;
     forward := fun _ _ seed =>
       imap (fun d _ => (fun o => Derivative (Z.of_nat d) "fwd" (dense 1 1))
                          <$> all_DEOutput) seed;
     reverse := fun _ _ seed =>
       imap (fun d _ => (fun i => Derivative (Z.of_nat d) "adj" (dense 1 1))
                          <$> all_DEInput) seed;
     sp_forward := fun ins o =>
       match o with
       | DE_ODE | DE_QUAD => [or_all (ins DE_X)]
       | DE_RODE => [Z.lor (or_all (ins DE_X)) (or_all (ins DE_RX))]
       | _ => []
       end;
     sp_reverse := fun ins seeds =>
       (fun i =>
          match i with
          | DE_X => [Z.lor (or_all (ins DE_X))
                       (Z.lor (or_all (seeds DE_ODE))
                          (Z.lor (or_all (seeds DE_QUAD)) (or_all (seeds DE_RODE))))]
          | DE_RX => [Z.lor (or_all (ins DE_RX)) (or_all (seeds DE_RODE))]
          | _ => default [] (ins i)
          end,
        fun o => (fun _ => 0) <$> default [] (seeds o));
     sp_scratch := fun _ _ => [255; 255; 255; 255] |}.

(** A pattern whose structural solve adds [B] to [X] entry by entry: the
    identity pattern. *)
Definition diag_pattern : BtfPattern :=
  {| spsolve := fun X B _ => zip_with Z.lor X B |}.

Definition decay_integrator (with_backward : bool) : Integrator :=
  Integrator_new "decay" (decay_oracle with_backward) diag_pattern diag_pattern.

(** Explicit Euler for the decay problem: [x + h * (-x)], no algebraic
    variable, quadrature increment [h * x]. *)
Definition deref (v : cptr double) : double := default 0%float (head (default [] v)).

Definition euler_F (h : double) : CasadiFunction DAEInput DAEOutput :=
  {| nnz_in := fun i => match i with DAE_T | DAE_X => 1 | _ => 0 end;
     call := fun arg o =>
       match o with
       | DAE_ODE => [deref (arg DAE_X) + h * (- deref (arg DAE_X))]
       | DAE_ALG => []
       | DAE_QUAD => [h * deref (arg DAE_X)]
       end%float;
     call_throws := fun _ => None |}.

(** The backward map [rx + h * x] reads the forward state from the tape. *)
Definition euler_G (h : double) : CasadiFunction RDAEInput RDAEOutput :=
  {| nnz_in := fun i => match i with RDAE_T | RDAE_X | RDAE_RX => 1 | _ => 0 end;
     call := fun arg o =>
       match o with
       | RDAE_ODE => [deref (arg RDAE_RX) + h * deref (arg RDAE_X)]
       | RDAE_ALG => []
       | RDAE_QUAD => []
       end%float;
     call_throws := fun _ => None |}.

Definition euler_setupFG (with_backward : bool) (nk : Z) (b : Integrator)
    : CasadiFunction DAEInput DAEOutput *
      option (CasadiFunction RDAEInput RDAEOutput) :=
  let h := ((grid_back b - grid_front b) / int_to_double nk)%float in
  (euler_F h, if with_backward then Some (euler_G h) else None).

(** The fixed-step integrator for the decay problem, initialised with the
    options [opts]; [nk] is the number of finite elements the options
    select. *)
Definition decay_fixed_step (with_backward : bool) (nk : Z) (opts : Dict)
    : Result FixedStepIntegrator :=
  FixedStepIntegrator_init
    (FixedStepIntegrator_new (decay_integrator with_backward) (euler_F 0%float))
    opts (euler_setupFG with_backward nk).

(** A second problem in which every quantity is present: one entry each,
    except for the backward state, whose shape [rx] is left open.  The
    differential equation depends on the parameter, the algebraic equation
    on the algebraic variable, the quadrature on both states, and the
    backward equations likewise on the backward side and on [x]. *)
Definition coupled_oracle (rx : Sparsity) : Oracle :=
  {| sparsity_in := fun i =>
       match i with DE_RX => rx | _ => dense 1 1 end;
     sparsity_out := fun o =>
       match o with DE_RODE => rx | _ => dense 1 1 end;
     forward := fun _ _ seed =>
       imap (fun d _ => (fun o => Derivative (Z.of_nat d) "fwd" (dense 1 1))
                          <$> all_DEOutput) seed;
     reverse := fun _ _ seed =>
       imap (fun d _ => (fun i => Derivative (Z.of_nat d) "adj" (dense 1 1))
                          <$> all_DEInput) seed;
     sp_forward := fun ins o =>
       match o with
       | DE_ODE => [or_all (ins DE_P)]
       | DE_ALG => [or_all (ins DE_Z)]
       | DE_QUAD => [Z.lor (or_all (ins DE_X)) (or_all (ins DE_Z))]
       | DE_RODE => replicate (Z.to_nat (nnz rx)) (or_all (ins DE_RP))
       | DE_RALG => [or_all (ins DE_X)]
       | DE_RQUAD => [Z.lor (or_all (ins DE_RX)) (or_all (ins DE_RZ))]
       end;
     sp_reverse := fun ins seeds =>
       (fun i =>
          let deps :=
            match i with
            | DE_T => []
            | DE_X => [DE_QUAD; DE_RALG]
            | DE_Z => [DE_ALG; DE_QUAD]
            | DE_P => [DE_ODE]
            | DE_RX | DE_RZ => [DE_RQUAD]
            | DE_RP => [DE_RODE]
            end in
          Z.lor (foldr Z.lor 0 ((fun o => or_all (seeds o)) <$> deps))
            <$> default [] (ins i),
        fun o => (fun _ => 0) <$> default [] (seeds o));
     sp_scratch := fun _ _ => [255; 255; 255] |}.

(** A pattern in which every unknown depends on every right-hand side. *)
Definition dense_pattern : BtfPattern :=
  {| spsolve := fun X B _ => Z.lor (or_all (Some B)) <$> X |}.

(** The integrator for the second problem, initialised without options. *)
Definition coupled_integrator (rx : Sparsity) : Result Integrator :=
  Integrator_init (Integrator_new "coupled" (coupled_oracle rx) dense_pattern dense_pattern) ∅.

(** Dependency buffers of one entry each, in the order of the slots. *)
Definition sp_buffers (arg : list bvec_t) (res : list bvec_t) : SpMemory :=
  {| sp_arg := fun i => Some [default 0 (arg !! match i with
        | INTEGRATOR_X0 => 0 | INTEGRATOR_P => 1 | INTEGRATOR_Z0 => 2
        | INTEGRATOR_RX0 => 3 | INTEGRATOR_RP => 4 | INTEGRATOR_RZ0 => 5 end%nat)];
     sp_res := fun o => Some [default 0 (res !! match o with
        | INTEGRATOR_XF => 0 | INTEGRATOR_QF => 1 | INTEGRATOR_ZF => 2
        | INTEGRATOR_RXF => 3 | INTEGRATOR_RQF => 4 | INTEGRATOR_RZF => 5 end%nat)];
     sp_w := fun _ => 0 |}.

(** An implicit scheme for the decay problem whose backward map has one
    discrete algebraic variable, and options that select a solver and pass
    it a dictionary of its own. *)
Definition implicit_setupFG (b : Integrator)
    : CasadiFunction DAEInput DAEOutput *
      option (CasadiFunction RDAEInput RDAEOutput) :=
  let h := ((grid_back b - grid_front b) / 20)%float in
  (euler_F h,
   Some {| nnz_in := fun i => match i with RDAE_P | RDAE_RP => 0 | _ => 1 end;
           call := call (euler_G h);
           call_throws := fun _ => None |}).

Definition implicit_options : Dict :=
  <["rootfinder" := GT_string "kinsol"]>
    (<["rootfinder_options" :=
         GT_dict (<["abstol" := GT_double 0.5%float]>
                    (<["implicit_input" := GT_int 7]> ∅))]> ∅).

Definition implicit_decay : ImplicitFixedStepIntegrator :=
  ImplicitFixedStepIntegrator_new
    (FixedStepIntegrator_new (decay_integrator true) (euler_F 0%float)).

(** ** Vocabulary of the properties *)

(** A computation leaves an observation [f] of the state alone, whether it
    returns or throws. *)
Definition preserves {S A B} (f : S -> B) (c : Stateful S A) : Prop :=
  forall s, f (snd (c s)) = f s.

(** The backward members, the parameters and [m->z] as one observation. *)
Definition backward_side (m : FixedStepMemory) :=
  (m_rx m, m_rz m, m_rq m, m_rx_prev m, m_RZ_prev m, m_rq_prev m, m_RZ m,
   m_p m, m_rp m, m_z m).

(** The forward members, the parameters, [m->rz] and the two tapes. *)
Definition forward_side (m : FixedStepMemory) :=
  (m_x m, m_z m, m_q m, m_x_prev m, m_Z_prev m, m_q_prev m, m_Z m,
   m_p m, m_rp m, m_rz m, m_x_tape m, m_Z_tape m).

(** [v] clamped to the interval from [lo] to [hi]. *)
Definition clamp (lo hi v : Z) : Z := Z.max lo (Z.min v hi).

(** What [advance] and [retreat] hand back once their loop is over: the
    closing [casadi_copy] calls of the two methods. *)
Definition advance_outputs (self : FixedStepIntegrator)
    : Stateful FixedStepMemory StepOutput :=
  (m <- get ;;
   ret ((get_ptr (m_x m), nx_ (base self)),
        (cptr_add (get_ptr (m_Z m)) (Z.of_nat (length (m_Z m)) - nz_ (base self)),
         nz_ (base self)),
        (get_ptr (m_q m), nq_ (base self))))%stateful.

Definition retreat_outputs (self : FixedStepIntegrator)
    : Stateful FixedStepMemory StepOutput :=
  (m <- get ;;
   ret ((get_ptr (m_rx m), nrx_ (base self)),
        (cptr_add (get_ptr (m_RZ m)) (Z.of_nat (length (m_RZ m)) - nrz_ (base self)),
         nrz_ (base self)),
        (get_ptr (m_rq m), nrq_ (base self))))%stateful.

(** [n] executions of a loop body, stopping at the first exception. *)
Fixpoint iterate_step {S} (n : nat) (step : Stateful S unit) : Stateful S unit :=
  match n with
  | O => ret tt
  | S n' => (step ;;; iterate_step n' step)%stateful
  end.

(** The tapes have the lengths [init_memory] gives them when backward
    states are present. *)
Definition tapes_allocated (self : FixedStepIntegrator) (m : FixedStepMemory) : Prop :=
  0 < nrx_ (base self) ->
  length (m_x_tape m) = Z.to_nat (nk_ self + 1) /\
  length (m_Z_tape m) = Z.to_nat (nk_ self).

(** Every member has the size [init_memory] gives it. *)
Record memory_sized (self : FixedStepIntegrator) (m : FixedStepMemory) : Prop := {
  sized_x : length (m_x m) = Z.to_nat (nx_ (base self));
  sized_z : length (m_z m) = Z.to_nat (nz_ (base self));
  sized_p : length (m_p m) = Z.to_nat (np_ (base self));
  sized_q : length (m_q m) = Z.to_nat (nq_ (base self));
  sized_rx : length (m_rx m) = Z.to_nat (nrx_ (base self));
  sized_rz : length (m_rz m) = Z.to_nat (nrz_ (base self));
  sized_rp : length (m_rp m) = Z.to_nat (nrp_ (base self));
  sized_rq : length (m_rq m) = Z.to_nat (nrq_ (base self));
  sized_x_prev : length (m_x_prev m) = Z.to_nat (nx_ (base self));
  sized_Z_prev : length (m_Z_prev m) = Z.to_nat (nZ_ self);
  sized_q_prev : length (m_q_prev m) = Z.to_nat (nq_ (base self));
  sized_rx_prev : length (m_rx_prev m) = Z.to_nat (nrx_ (base self));
  sized_RZ_prev : length (m_RZ_prev m) = Z.to_nat (nRZ_ self);
  sized_rq_prev : length (m_rq_prev m) = Z.to_nat (nrq_ (base self));
  sized_Z : length (m_Z m) = Z.to_nat (nZ_ self);
  sized_RZ : length (m_RZ m) = Z.to_nat (nRZ_ self);
  sized_tapes : tapes_allocated self m;
  sized_x_tape : Forall (fun e => length e = Z.to_nat (nx_ (base self))) (m_x_tape m);
  sized_Z_tape : Forall (fun e => length e = Z.to_nat (nZ_ self)) (m_Z_tape m)
}.

(** The two tapes as one observation. *)
Definition tapes (m : FixedStepMemory) := (m_x_tape m, m_Z_tape m).

(** The decay problem as a fixed-step integrator: the grid, the number of
    finite elements and [output_t0] are passed as options. *)
Definition decay_options (nk : Z) (grid : list double) (output_t0 : bool) : Dict :=
  <["output_t0" := GT_bool output_t0]>
    (<["number_of_finite_elements" := GT_int nk]>
       (<["grid" := GT_doublevector grid]> ∅)).

Definition decay_self (with_backward : bool) (nk : Z) (grid : list double)
    (output_t0 : bool) : FixedStepIntegrator :=
  match decay_fixed_step with_backward nk (decay_options nk grid output_t0) with
  | Ok self => self
  | Throw _ => FixedStepIntegrator_new (decay_integrator with_backward) (euler_F 0%float)
  end.

(** The decay scheme with discrete maps that fail, as a root-finder that
    does not converge does: each call raises after it has written its
    results. *)
Definition failing_setupFG (nk : Z) (b : Integrator)
    : CasadiFunction DAEInput DAEOutput *
      option (CasadiFunction RDAEInput RDAEOutput) :=
  let h := ((grid_back b - grid_front b) / int_to_double nk)%float in
  ({| nnz_in := nnz_in (euler_F h); call := call (euler_F h);
      call_throws := fun _ => Some (CallError "rootfinder failed") |},
   Some {| nnz_in := nnz_in (euler_G h); call := call (euler_G h);
           call_throws := fun _ => Some (CallError "backward rootfinder failed") |}).

Definition failing_self (nk : Z) (grid : list double) : FixedStepIntegrator :=
  match FixedStepIntegrator_init
          (FixedStepIntegrator_new (decay_integrator true) (euler_F 0%float))
          (decay_options nk grid false) (failing_setupFG nk) with
  | Ok self => self
  | Throw _ => FixedStepIntegrator_new (decay_integrator true) (euler_F 0%float)
  end.

(** What the stepping loops need of the memory: [m->x] has its size, the
    tapes are allocated, and the discrete time is on the horizon. *)
Definition stepping_ready (self : FixedStepIntegrator) (m : FixedStepMemory) : Prop :=
  length (m_x m) = Z.to_nat (nx_ (base self)) /\
  tapes_allocated self m /\
  0 <= m_k m <= nk_ self.

(** A computation returned. *)
Definition is_Ok {A} (r : Result A) : Prop := exists a, r = Ok a.



(** A discrete map that returns on every input, as an explicit scheme's
    does; a root-finder's need not. *)
Definition returns_always {I O} (F : CasadiFunction I O) : Prop :=
  forall arg, call_throws F arg = None.

(** The options of a root-finder built from the user's dictionary: the two
    slots injected, every other key as the user gave it. *)
Definition options_forwarded (user given : Dict) (input output : Z) : Prop :=
  given !! "implicit_input" = Some (GT_int input) /\
  given !! "implicit_output" = Some (GT_int output) /\
  forall key, key <> "implicit_input" -> key <> "implicit_output" ->
    given !! key = user !! key.

(** The first [n] dependency bits of an argument buffer; a null buffer
    gives none. *)
Definition arg_bits (m : SpMemory) (i : IntegratorInput) (n : Z) : cptr bvec_t :=
  take (Z.to_nat n) <$> sp_arg m i.

(** What one oracle propagation leaves for a differential and an algebraic
    output: the tentative bits, differential part first. *)
Definition tentative_bits (o : Oracle) (ins : DEInput -> cptr bvec_t)
    (ode alg : DEOutput) : list bvec_t :=
  resize (Z.to_nat (oracle_nnz_out o ode)) 0 (sp_forward o ins ode) ++
  resize (Z.to_nat (oracle_nnz_out o alg)) 0 (sp_forward o ins alg).

(** The order of the claim on [sp_fwd]: the direct dependency on the
    initial state is ORed into the differential part of the tentative
    bits, and the combined vector is then solved against the pattern,
    starting from zero. *)
Definition or_then_solve (sp : BtfPattern) (n_diff n_alg : Z)
    (tentative : list bvec_t) (direct : cptr bvec_t) : list bvec_t :=
  let combined :=
    match direct with
    | Some d =>
        zip_with Z.lor (take (Z.to_nat n_diff) tentative) (resize (Z.to_nat n_diff) 0 d)
          ++ drop (Z.to_nat n_diff) tentative
    | None => tentative
    end in
  resize (Z.to_nat (n_diff + n_alg)) 0
    (spsolve sp (replicate (Z.to_nat (n_diff + n_alg)) 0) combined false).

(** The taints the oracle is given in the forward pass: X0 and P. *)
Definition sp_fwd_inputs (self : Integrator) (m : SpMemory) : DEInput -> cptr bvec_t :=
  fun i =>
    match i with
    | DE_X => arg_bits m INTEGRATOR_X0 (oracle_nnz_in (oracle_ self) DE_X)
    | DE_P => arg_bits m INTEGRATOR_P (oracle_nnz_in (oracle_ self) DE_P)
    | _ => None
    end.

(** The taints it is given in the backward pass: the solved forward bits
    [xz] for the state and the algebraic variable, and P, RX0 and RP. *)
Definition sp_fwd_inputsB (self : Integrator) (m : SpMemory) (xz : list bvec_t)
    : DEInput -> cptr bvec_t :=
  fun i =>
    match i with
    | DE_T | DE_RZ => None
    | DE_X => Some (take (Z.to_nat (nx_ self)) xz)
    | DE_Z => Some (drop (Z.to_nat (nx_ self)) xz)
    | DE_P => arg_bits m INTEGRATOR_P (oracle_nnz_in (oracle_ self) DE_P)
    | DE_RX => arg_bits m INTEGRATOR_RX0 (oracle_nnz_in (oracle_ self) DE_RX)
    | DE_RP => arg_bits m INTEGRATOR_RP (oracle_nnz_in (oracle_ self) DE_RP)
    end.

(** The dimensions are counts, and the oracle's state inputs and equation
    outputs have the nonzeros of the states, as [x()], [z()], [rx()] and
    [rz()] give them. *)
Record sp_shapes (self : Integrator) : Prop := {
  shape_nx : 0 <= nx_ self;
  shape_nz : 0 <= nz_ self;
  shape_nrx : 0 <= nrx_ self;
  shape_nrz : 0 <= nrz_ self;
  shape_x : oracle_nnz_in (oracle_ self) DE_X = nx_ self;
  shape_z : oracle_nnz_in (oracle_ self) DE_Z = nz_ self;
  shape_ode : oracle_nnz_out (oracle_ self) DE_ODE = nx_ self;
  shape_alg : oracle_nnz_out (oracle_ self) DE_ALG = nz_ self;
  shape_rode : oracle_nnz_out (oracle_ self) DE_RODE = nrx_ self;
  shape_ralg : oracle_nnz_out (oracle_ self) DE_RALG = nrz_ self
}.

(** ** Vocabulary of the further properties *)

(** The times of the [advance] calls in a record of calls. *)
Definition advances (log : list Call) : list double :=
  omap (fun c => match c with CallAdvance t => Some t | _ => None end) log.

(** The result buffers of the backward leg. *)
Definition backward_output (o : IntegratorOutput) : bool :=
  match o with
  | INTEGRATOR_RXF | INTEGRATOR_RQF | INTEGRATOR_RZF => true
  | _ => false
  end.


(** A computation keeps an invariant of its state, whether it returns or
    throws. *)
Definition keeps {S A} (P : S -> Prop) (c : Stateful S A) : Prop :=
  forall s, P s -> P (snd (c s)).

(** The time in the memory is the one of its discrete time. *)
Definition on_grid (self : FixedStepIntegrator) (m : FixedStepMemory) : Prop :=
  m_t m = (grid_front (base self) + int_to_double (m_k m) * h_ self)%float.

(** A caller's array holds at least [n] entries, or is null. *)
Definition holds_at_least (x : cptr double) (n : Z) : Prop :=
  forall xs, x = Some xs -> (Z.to_nat n <= length xs)%nat.


(** Two states of the dependency buffers that differ at most in the
    argument buffers of the two initial guesses, Z0 and RZ0. *)
Definition same_but_guesses (m m' : SpMemory) : Prop :=
  (forall o, sp_res m o = sp_res m' o) /\
  (forall j, sp_w m j = sp_w m' j) /\
  (forall i, i <> INTEGRATOR_Z0 -> i <> INTEGRATOR_RZ0 -> sp_arg m i = sp_arg m' i).

(** The pattern of a quantity; the quantity whose symbols [aug_adj] stacks
    onto a block, and the one whose columns the adjoint loop of
    [getAugOffset] counts for it. *)
Definition quantity_pattern (self : Integrator) (f : Quantity) : Sparsity :=
  match f with
  | Q_x => x_ self | Q_z => z_ self | Q_q => q_ self | Q_p => p_ self
  | Q_rx => rx_ self | Q_rz => rz_ self | Q_rq => rq_ self | Q_rp => rp_ self
  end.

Definition adjoint_partner (f : Quantity) : Quantity :=
  match f with
  | Q_x => Q_rx | Q_z => Q_rz | Q_q => Q_rp | Q_p => Q_rq
  | Q_rx => Q_x | Q_rz => Q_z | Q_rq => Q_p | Q_rp => Q_q
  end.

Definition adjoint_counted (f : Quantity) : Quantity :=
  match f with Q_x => Q_x | _ => adjoint_partner f end.

(** The number of entries the two loops of [getAugOffset] append to the
    offset vector of a quantity. *)
Definition forward_entries (self : Integrator) (nfwd : Z) (f : Quantity) : nat :=
  if 0 <? dimension self f then Z.to_nat (nfwd + 1) else 0%nat.
Definition adjoint_entries (self : Integrator) (nadj : Z) (f : Quantity) : nat :=
  if 0 <? dimension self (adjoint_partner f) then Z.to_nat nadj else 0%nat.

(** The derivative the oracle returns has one row for every seed, with
    [width] entries. *)
Definition derivative_shape {A} (der : list A -> list (list MatType)) (width : Z) : Prop :=
  forall seed, length (der seed) = length seed /\
               Forall (fun row => Z.of_nat (length row) = width) (der seed).

Definition Zsum (v : list Z) : Z := foldr Z.add 0 v.

(** The local vector of expressions that becomes the block of a
    quantity. *)
Definition block_vector (f : Quantity) : AugVec :=
  match f with
  | Q_x => aug_x | Q_z => aug_z | Q_q => aug_quad | Q_p => aug_p
  | Q_rx => aug_rx | Q_rz => aug_rz | Q_rq => aug_rquad | Q_rp => aug_rp
  end.

(** The number of columns of the block a vector of expressions gives. *)
Definition width (v : AugVec -> list MatType) (f : Quantity) : Z :=
  columns (horzcat (v (block_vector f))).


(** * Properties *)

(** ** Stateful computations *)

Lemma preserves_ret {S A B} (f : S -> B) (a : A) : preserves f (ret a).
Proof. intros s. reflexivity. Qed.

Lemma preserves_throw {S A B} (f : S -> B) e : preserves f (@throw S A e).
Proof. intros s. reflexivity. Qed.

Lemma preserves_get {S B} (f : S -> B) : preserves f get.
Proof. intros s. reflexivity. Qed.

Lemma preserves_lift {S A B} (f : S -> B) (r : Result A) : preserves f (lift r).
Proof. intros s. reflexivity. Qed.

Lemma preserves_modify {S B} (f : S -> B) (g : S -> S) :
  (forall s, f (g s) = f s) -> preserves f (modify g).
Proof. intros H s. apply H. Qed.

Lemma preserves_bind {S A A' B} (f : S -> B) (c : Stateful S A) (k : A -> Stateful S A') :
  preserves f c -> (forall a, preserves f (k a)) -> preserves f (bind c k).
Proof.
  intros Hc Hk s. unfold bind.
  specialize (Hc s). destruct (c s) as [[a|e] s']; simpl in *.
  - rewrite Hk. exact Hc.
  - exact Hc.
Qed.

Lemma preserves_if {S A B} (f : S -> B) (b : bool) (c1 c2 : Stateful S A) :
  preserves f c1 -> preserves f c2 -> preserves f (if b then c1 else c2).
Proof. destruct b; auto. Qed.

Lemma preserves_option {S A B C} (f : S -> B) (o : option C)
    (c1 : C -> Stateful S A) (c2 : Stateful S A) :
  (forall e, preserves f (c1 e)) -> preserves f c2 ->
  preserves f (match o with Some e => c1 e | None => c2 end).
Proof. destruct o; auto. Qed.

Lemma bind_ok {S A B} (c : Stateful S A) (k : A -> Stateful S B) s a s' :
  c s = (Ok a, s') -> bind c k s = k a s'.
Proof. intros H. unfold bind. rewrite H. reflexivity. Qed.

Lemma bind_modify {S B} (f : S -> S) (k : unit -> Stateful S B) s :
  bind (modify f) k s = k tt (f s).
Proof. reflexivity. Qed.


Lemma copy_out_mem {Mem} o off c (s : EvalState Mem) :
  es_mem (copy_out o off c s) = es_mem s.
Proof. unfold copy_out. destruct (es_res s o); reflexivity. Qed.

Create HintDb frame discriminated.
#[global] Hint Resolve preserves_ret preserves_throw preserves_get preserves_lift
  preserves_if : frame.

(** Splits a computation built from [bind], [modify] and conditionals into
    its assignments, and checks that none of them touches the observed
    member. *)
Ltac frame_step :=
  repeat first
    [ apply preserves_bind; [ | intro ]
    | apply preserves_if
    | apply preserves_option; [ intro | ]
    | apply preserves_ret
    | apply preserves_throw
    | apply preserves_get
    | apply preserves_lift
    | apply preserves_modify; intros []; reflexivity ].

(** ** FixedStepIntegrator: what the stepping loops leave alone *)

Lemma advance_loop_preserves {B} (f : FixedStepMemory -> B) self k_out fuel :
  preserves f (advance_step self) -> preserves f (advance_loop self k_out fuel).
Proof.
  intros Hstep. induction fuel as [|fuel IH]; intros m; simpl.
  - destruct (m_k m <? k_out); reflexivity.
  - destruct (m_k m <? k_out); [|reflexivity].
    apply (preserves_bind f (advance_step self) (fun _ => advance_loop self k_out fuel));
      auto.
Qed.

Lemma retreat_loop_preserves {B} (f : FixedStepMemory -> B) self G k_out fuel :
  preserves f (retreat_step self G) -> preserves f (retreat_loop self G k_out fuel).
Proof.
  intros Hstep. induction fuel as [|fuel IH]; intros m; simpl.
  - destruct (k_out <? m_k m); reflexivity.
  - destruct (k_out <? m_k m); [|reflexivity].
    apply (preserves_bind f (retreat_step self G) (fun _ => retreat_loop self G k_out fuel));
      auto.
Qed.

Lemma advance_preserves {B} (f : FixedStepMemory -> B) self t :
  preserves f (advance_step self) -> preserves f (FixedStepIntegrator_advance self t).
Proof.
  intros Hstep. unfold FixedStepIntegrator_advance.
  frame_step. apply advance_loop_preserves, Hstep.
Qed.

Lemma retreat_preserves {B} (f : FixedStepMemory -> B) self t :
  (forall G, preserves f (retreat_step self G)) ->
  preserves f (FixedStepIntegrator_retreat self t).
Proof.
  intros Hstep. unfold FixedStepIntegrator_retreat.
  frame_step. apply retreat_loop_preserves, Hstep.
Qed.

Lemma advance_step_backward_side self : preserves backward_side (advance_step self).
Proof.
  unfold advance_step. frame_step.
Qed.

Lemma retreat_step_forward_side self G : preserves forward_side (retreat_step self G).
Proof.
  unfold retreat_step. frame_step.
Qed.

(** C10: neither stepping direction mutates the other leg's runtime state.
    Whatever [advance] does (return or throw), the backward members [rx],
    [rz], [rq], [rx_prev], [RZ_prev], [rq_prev] (and [RZ]) and the parameter
    vectors [p] and [rp] are as before; whatever [retreat] does, the forward
    members [x], [z], [q], [x_prev], [Z_prev], [q_prev] (and [Z]), both
    parameter vectors and both tapes are as before. *)
Theorem stepping_leaves_other_leg_alone
    (self : FixedStepIntegrator) (t : double) (m : FixedStepMemory) :
  let ma := snd (FixedStepIntegrator_advance self t m) in
  let mr := snd (FixedStepIntegrator_retreat self t m) in
  (m_rx ma = m_rx m /\ m_rz ma = m_rz m /\ m_rq ma = m_rq m /\
   m_rx_prev ma = m_rx_prev m /\ m_RZ_prev ma = m_RZ_prev m /\
   m_rq_prev ma = m_rq_prev m /\ m_RZ ma = m_RZ m /\
   m_p ma = m_p m /\ m_rp ma = m_rp m) /\
  (m_x mr = m_x m /\ m_z mr = m_z m /\ m_q mr = m_q m /\
   m_x_prev mr = m_x_prev m /\ m_Z_prev mr = m_Z_prev m /\
   m_q_prev mr = m_q_prev m /\ m_Z mr = m_Z m /\
   m_p mr = m_p m /\ m_rp mr = m_rp m /\
   m_x_tape mr = m_x_tape m /\ m_Z_tape mr = m_Z_tape m).
Proof.
  intros ma mr. split.
  - pose proof (advance_preserves backward_side self t
                  (advance_step_backward_side self) m) as H.
    fold ma in H. unfold backward_side in H.
    injection H as -> -> -> -> -> -> -> -> -> _. repeat split.
  - pose proof (retreat_preserves forward_side self t
                  (retreat_step_forward_side self) m) as H.
    fold mr in H. unfold forward_side in H.
    injection H as -> -> -> -> -> -> -> -> -> _ -> ->. repeat split.
Qed.

(** ** The CasADi runtime on arrays of the right size *)

Lemma store_result_length {T} (r buf : list T) :
  length (store_result r buf) = length buf.
Proof. unfold store_result. rewrite length_app, length_take, length_drop. lia. Qed.

Lemma store_result_full {T} (r buf : list T) :
  length r = length buf -> store_result r buf = r.
Proof.
  intros H. unfold store_result.
  rewrite H, drop_all, app_nil_r. rewrite <- H. apply firstn_all.
Qed.

Lemma casadi_copy_full (xs : list double) (n : Z) (y : list double) :
  length xs = Z.to_nat n -> length y = Z.to_nat n ->
  casadi_copy (Some xs) n y = xs.
Proof.
  intros Hx Hy. unfold casadi_copy. destruct y as [|y0 y]; simpl.
  - destruct xs; [reflexivity | simpl in *; lia].
  - rewrite <- Hx, firstn_all. rewrite Hx, <- Hy. simpl.
    rewrite drop_all. apply app_nil_r.
Qed.

Lemma casadi_copy_get_ptr_full (xs : list double) (n : Z) (y : list double) :
  length xs = Z.to_nat n -> length y = Z.to_nat n ->
  casadi_copy (get_ptr xs) n y = xs.
Proof.
  intros Hx Hy. destruct xs as [|x0 xs].
  - destruct y; [reflexivity | simpl in *; lia].
  - apply casadi_copy_full; assumption.
Qed.

Lemma casadi_copy_length (x : cptr double) (n : Z) (y : list double) :
  (forall xs, x = Some xs -> Z.to_nat n <= length xs)%nat ->
  (Z.to_nat n <= length y)%nat ->
  length (casadi_copy x n y) = length y.
Proof.
  intros Hx Hy. unfold casadi_copy. destruct (get_ptr y); [|reflexivity].
  destruct x as [xs|].
  - specialize (Hx xs eq_refl).
    rewrite length_app, length_take, length_drop. lia.
  - rewrite length_app, length_replicate, length_drop. lia.
Qed.

Lemma casadi_copy_get_ptr_length (xs : list double) (n : Z) (y : list double) :
  length xs = Z.to_nat n -> length y = Z.to_nat n ->
  length (casadi_copy (get_ptr xs) n y) = length y.
Proof.
  intros Hx Hy. rewrite casadi_copy_get_ptr_full by assumption. congruence.
Qed.

Lemma casadi_fill_full (y : list double) (n : Z) (alpha : double) :
  length y = Z.to_nat n -> casadi_fill y n alpha = replicate (Z.to_nat n) alpha.
Proof.
  intros Hy. unfold casadi_fill. destruct y as [|y0 y]; cbn [get_ptr].
  - simpl in Hy. rewrite <- Hy. reflexivity.
  - rewrite <- Hy, drop_all. apply app_nil_r.
Qed.

Lemma axpy_loop_length n alpha x y : length (axpy_loop n alpha x y) = length y.
Proof.
  revert x y. induction n as [|n IH]; intros [|xi x] [|yi y]; simpl; auto.
Qed.

Lemma casadi_axpy_length n alpha x y : length (casadi_axpy n alpha x y) = length y.
Proof.
  unfold casadi_axpy. destruct x; [|reflexivity].
  destruct (get_ptr y); [|reflexivity]. apply axpy_loop_length.
Qed.

Lemma vec_at_Some {T} (v : list T) (k : Z) (e : T) :
  vec_at v k = Some e <-> 0 <= k /\ v !! Z.to_nat k = Some e.
Proof.
  unfold vec_at. destruct (Z.ltb_spec k 0); split.
  - discriminate.
  - intros [? _]. lia.
  - auto.
  - intros [_ ?]. assumption.
Qed.

Lemma vec_at_in_range {T} (v : list T) (k : Z) :
  0 <= k < Z.of_nat (length v) -> exists e, vec_at v k = Some e.
Proof.
  intros Hk. destruct (lookup_lt_is_Some_2 v (Z.to_nat k)) as [e He]; [lia|].
  exists e. apply vec_at_Some. split; [lia | assumption].
Qed.

Lemma tape_write_Ok tape i src n tape' :
  tape_write tape i src n = Ok tape' <->
  exists entry, 0 <= i /\ tape !! Z.to_nat i = Some entry /\
                tape' = <[Z.to_nat i := casadi_copy src n entry]> tape.
Proof.
  unfold tape_write. destruct (vec_at tape i) as [entry|] eqn:Hat.
  - apply vec_at_Some in Hat as [Hi Hat]. split.
    + intros [= <-]. eauto.
    + intros (entry' & _ & Hat' & ->). congruence.
  - split; [discriminate|]. intros (entry & Hi & Hat' & _).
    assert (vec_at tape i = Some entry) by (apply vec_at_Some; auto). congruence.
Qed.

Lemma tape_write_length tape i src n tape' :
  tape_write tape i src n = Ok tape' -> length tape' = length tape.
Proof.
  intros (entry & _ & _ & ->)%tape_write_Ok. apply length_insert.
Qed.

Lemma tape_write_in_range tape i src n :
  0 <= i < Z.of_nat (length tape) -> exists tape', tape_write tape i src n = Ok tape'.
Proof.
  intros Hi. destruct (vec_at_in_range tape i Hi) as [e He].
  unfold tape_write. rewrite He. eauto.
Qed.

(** ** One step of each loop *)

(** What a forward step does, exception included: the blocks in order, the
    call of [F] returning or not, the tape writes only with backward
    states. *)
Lemma advance_step_run self m :
  advance_step self m =
  let m0 := update_previous self m in
  match call_throws (getExplicit self) (advance_arg m0) with
  | Some e => (Throw e, call_F (getExplicit self) m0)
  | None =>
      let m1 := take_step self m0 in
      if 0 <? nrx_ (base self) then
        match tape_write (m_x_tape m1) (m_k m1 + 1) (get_ptr (m_x m1)) (nx_ (base self)) with
        | Throw e => (Throw e, m1)
        | Ok xt =>
            match tape_write (m_Z_tape m1) (m_k m1) (get_ptr (m_Z m1))
                    (Z.of_nat (length (m_Z m1))) with
            | Throw e => (Throw e, set_m_x_tape xt m1)
            | Ok Zt => (Ok tt, advance_time self (set_m_Z_tape Zt (set_m_x_tape xt m1)))
            end
        end
      else (Ok tt, advance_time self m1)
  end.
Proof.
  unfold advance_step, record_tape, bind, modify, get, lift, ret, throw. simpl.
  destruct (call_throws _ _); [reflexivity|].
  destruct (0 <? nrx_ (base self)); [|reflexivity].
  destruct (tape_write (m_x_tape _) _ _ _); [|reflexivity].
  destruct (tape_write (m_Z_tape _) _ _ _); reflexivity.
Qed.

(** A step that completes has had its call of [F] return. *)
Lemma advance_step_returned self m a m' :
  advance_step self m = (Ok a, m') ->
  call_throws (getExplicit self) (advance_arg (update_previous self m)) = None.
Proof.
  rewrite advance_step_run. cbv zeta.
  destruct (call_throws _ _); [discriminate | reflexivity].
Qed.

Lemma retreat_step_run self G m :
  retreat_step self G m =
  let m1 := update_previousB self (retreat_time self m) in
  match tape_read (m_x_tape m1) (m_k m1) with
  | Throw e => (Throw e, m1)
  | Ok x =>
      match tape_read (m_Z_tape m1) (m_k m1) with
      | Throw e => (Throw e, m1)
      | Ok Zt =>
          match call_throws G (retreat_arg m1 x Zt) with
          | Some e => (Throw e, call_G G x Zt m1)
          | None => (Ok tt, take_stepB self G x Zt m1)
          end
      end
  end.
Proof.
  unfold retreat_step, bind, modify, get, lift, ret, throw. simpl.
  destruct (tape_read (m_x_tape _) _); [|reflexivity].
  destruct (tape_read (m_Z_tape _) _); [|reflexivity].
  destruct (call_throws _ _); reflexivity.
Qed.

Lemma take_step_k self m : m_k (take_step self m) = m_k m.
Proof. destruct m; reflexivity. Qed.

Lemma update_previous_k self m : m_k (update_previous self m) = m_k m.
Proof. destruct m; reflexivity. Qed.

Lemma advance_step_k self m a m' :
  advance_step self m = (Ok a, m') -> m_k m' = m_k m + 1.
Proof.
  rewrite advance_step_run. cbv zeta.
  destruct (call_throws _ _); [discriminate|].
  destruct (0 <? nrx_ (base self)).
  - destruct (tape_write (m_x_tape _) _ _ _); [|discriminate].
    destruct (tape_write (m_Z_tape _) _ _ _); [|discriminate].
    intros [= _ <-]. destruct m; reflexivity.
  - intros [= _ <-]. destruct m; reflexivity.
Qed.

Lemma retreat_step_k self G m a m' :
  retreat_step self G m = (Ok a, m') -> m_k m' = m_k m - 1.
Proof.
  rewrite retreat_step_run. cbv zeta.
  destruct (tape_read (m_x_tape _) _); [|discriminate].
  destruct (tape_read (m_Z_tape _) _); [|discriminate].
  destruct (call_throws _ _); [discriminate|].
  intros [= _ <-]. destruct m; reflexivity.
Qed.

(** ** The loops run their body once per discrete time *)

Lemma advance_loop_iterate self k_out n m :
  n = Z.to_nat (k_out - m_k m) ->
  advance_loop self k_out n m = iterate_step n (advance_step self) m.
Proof.
  revert m. induction n as [|n IH]; intros m Hn; simpl.
  - destruct (Z.ltb_spec (m_k m) k_out); [lia | reflexivity].
  - destruct (Z.ltb_spec (m_k m) k_out); [|lia].
    unfold bind. destruct (advance_step self m) as [[a|e] m'] eqn:Hstep; [|reflexivity].
    apply IH. apply advance_step_k in Hstep. lia.
Qed.

Lemma retreat_loop_iterate self G k_out n m :
  n = Z.to_nat (m_k m - k_out) ->
  retreat_loop self G k_out n m = iterate_step n (retreat_step self G) m.
Proof.
  revert m. induction n as [|n IH]; intros m Hn; simpl.
  - destruct (Z.ltb_spec k_out (m_k m)); [lia | reflexivity].
  - destruct (Z.ltb_spec k_out (m_k m)); [|lia].
    unfold bind. destruct (retreat_step self G m) as [[a|e] m'] eqn:Hstep; [|reflexivity].
    apply IH. apply retreat_step_k in Hstep. lia.
Qed.

Lemma iterate_step_k_up self n m m' :
  iterate_step n (advance_step self) m = (Ok tt, m') -> m_k m' = m_k m + Z.of_nat n.
Proof.
  revert m. induction n as [|n IH]; intros m; simpl.
  - intros [= <-]. lia.
  - unfold bind. destruct (advance_step self m) as [[a|e] m1] eqn:Hstep; [|discriminate].
    intros H. apply IH in H. apply advance_step_k in Hstep. lia.
Qed.

Lemma iterate_step_k_down self G n m m' :
  iterate_step n (retreat_step self G) m = (Ok tt, m') -> m_k m' = m_k m - Z.of_nat n.
Proof.
  revert m. induction n as [|n IH]; intros m; simpl.
  - intros [= <-]. lia.
  - unfold bind. destruct (retreat_step self G m) as [[a|e] m1] eqn:Hstep; [|discriminate].
    intros H. apply IH in H. apply retreat_step_k in Hstep. lia.
Qed.

(** ** The discrete time sought by advance and retreat *)

(** [advance] is its assertion on [k_out] followed by one pass through the
    loop body for each discrete time from [m->k] up to [k_out]. *)
Lemma advance_run self t k_out m :
  advance_k_out self t = Ok k_out ->
  FixedStepIntegrator_advance self t m =
  (iterate_step (Z.to_nat (k_out - m_k m)) (advance_step self) ;;;
   advance_outputs self)%stateful m.
Proof.
  intros Hk. unfold FixedStepIntegrator_advance, advance_outputs, bind, lift, get, ret.
  rewrite Hk. rewrite advance_loop_iterate by reflexivity. reflexivity.
Qed.

Lemma advance_refuses self t e m :
  advance_k_out self t = Throw e -> FixedStepIntegrator_advance self t m = (Throw e, m).
Proof.
  intros Hk. unfold FixedStepIntegrator_advance, bind, lift. rewrite Hk. reflexivity.
Qed.

Lemma retreat_run self G t k_out m :
  retreat_k_out self t = Ok k_out -> getExplicitB self = Some G ->
  FixedStepIntegrator_retreat self t m =
  (iterate_step (Z.to_nat (m_k m - k_out)) (retreat_step self G) ;;;
   retreat_outputs self)%stateful m.
Proof.
  intros Hk HG. unfold FixedStepIntegrator_retreat, retreat_outputs, bind, lift, get, ret.
  rewrite Hk, HG. rewrite retreat_loop_iterate by reflexivity. reflexivity.
Qed.

Lemma retreat_refuses self t e m :
  retreat_k_out self t = Throw e -> FixedStepIntegrator_retreat self t m = (Throw e, m).
Proof.
  intros Hk. unfold FixedStepIntegrator_retreat, bind, lift. rewrite Hk. reflexivity.
Qed.

Lemma advance_k_out_ceil self t c :
  std_ceil_int ((t - grid_front (base self)) / h_ self)%float = Some c ->
  0 < nk_ self ->
  advance_k_out self t =
    if decide (0 <= c) then Ok (clamp 0 (nk_ self) c)
    else Throw (CasadiAssert "k_out>=0").
Proof.
  intros Hc Hnk. unfold advance_k_out. rewrite Hc. unfold clamp.
  destruct (decide (0 <= c)); destruct (Z.leb_spec 0 (Z.min c (nk_ self)));
    try lia; f_equal; lia.
Qed.

Lemma retreat_k_out_floor self t f :
  std_floor_int ((t - grid_front (base self)) / h_ self)%float = Some f ->
  0 < nk_ self ->
  retreat_k_out self t =
    if decide (f <= nk_ self) then Ok (clamp 0 (nk_ self) f)
    else Throw (CasadiAssert "k_out<=nk_").
Proof.
  intros Hf Hnk. unfold retreat_k_out. rewrite Hf. unfold clamp.
  destruct (decide (f <= nk_ self)); destruct (Z.leb_spec (Z.max f 0) (nk_ self));
    try lia; f_equal; lia.
Qed.

(** C3, as stated, fails: on the unit horizon with one step ([t0 = 0],
    [h = 1], [nk = 1]) a target time of [-2] has ceiling [-2]; [advance]
    does not clamp it to [0], which would make it return without a step,
    but fails its assertion [k_out>=0] and leaves the memory as it was.
    Likewise the target time [3] has floor [3], and [retreat] does not
    clamp it to [nk = 1] but fails its assertion [k_out<=nk_]. *)
Lemma k_out_is_asserted_not_clamped :
  let self := decay_self false 1 [0; 1]%float false in
  let m := init_memory self FixedStepMemory_new in
  let q (t : double) := ((t - grid_front (base self)) / h_ self)%float in
  (std_ceil_int (q (-2)%float) = Some (-2) /\
   clamp 0 (nk_ self) (-2) = 0 /\
   FixedStepIntegrator_advance self (-2)%float m = (Throw (CasadiAssert "k_out>=0"), m) /\
   advance_k_out self (-2)%float <> Ok (clamp 0 (nk_ self) (-2))) /\
  (std_floor_int (q 3%float) = Some 3 /\
   clamp 0 (nk_ self) 3 = 1 /\
   FixedStepIntegrator_retreat self 3%float m = (Throw (CasadiAssert "k_out<=nk_"), m) /\
   retreat_k_out self 3%float <> Ok (clamp 0 (nk_ self) 3)).
Proof.
  intros self m q.
  assert (Ha : advance_k_out self (-2)%float = Throw (CasadiAssert "k_out>=0"))
    by (vm_compute; reflexivity).
  assert (Hr : retreat_k_out self 3%float = Throw (CasadiAssert "k_out<=nk_"))
    by (vm_compute; reflexivity).
  split.
  - split; [vm_compute; reflexivity|]. split; [vm_compute; reflexivity|].
    split; [apply advance_refuses, Ha|]. rewrite Ha. discriminate.
  - split; [vm_compute; reflexivity|]. split; [vm_compute; reflexivity|].
    split; [apply retreat_refuses, Hr|]. rewrite Hr. discriminate.
Qed.

(** C3, amended.  [FixedStepIntegrator::advance] takes the ceiling [c] of
    [(t - t0)/h], bounds it above by [nk] and asserts that the result is
    not negative: when [c < 0] the method throws the assertion and leaves
    the memory as it was; when [0 <= c] it proceeds with [c] clamped to
    [0..nk], runs the loop body once for each discrete time from [m->k] up
    to that [k_out], stopping at the first pass that throws, and then
    hands back its outputs.  [FixedStepIntegrator::retreat] takes the floor
    [f], bounds it below by [0] and asserts that the result is at most
    [nk]: it throws when [nk < f] and otherwise runs its body once for each
    discrete time from [m->k] down to the clamped [f].  A forward pass
    that completes has incremented [k]; a backward pass decrements [k]
    first and then calls [G] on the tape entries at the decremented
    index. *)
Theorem discrete_time_sought
    (self : FixedStepIntegrator) (t : double) (m : FixedStepMemory) :
  0 < nk_ self ->
  let q := ((t - grid_front (base self)) / h_ self)%float in
  (forall c, std_ceil_int q = Some c ->
     (c < 0 ->
      FixedStepIntegrator_advance self t m = (Throw (CasadiAssert "k_out>=0"), m)) /\
     (0 <= c ->
      FixedStepIntegrator_advance self t m =
      (iterate_step (Z.to_nat (clamp 0 (nk_ self) c - m_k m)) (advance_step self) ;;;
       advance_outputs self)%stateful m)) /\
  (forall f, std_floor_int q = Some f ->
     (nk_ self < f ->
      FixedStepIntegrator_retreat self t m = (Throw (CasadiAssert "k_out<=nk_"), m)) /\
     (f <= nk_ self ->
      forall G, getExplicitB self = Some G ->
        FixedStepIntegrator_retreat self t m =
        (iterate_step (Z.to_nat (m_k m - clamp 0 (nk_ self) f)) (retreat_step self G) ;;;
         retreat_outputs self)%stateful m)) /\
  (forall m', advance_step self m = (Ok tt, m') -> m_k m' = m_k m + 1) /\
  (forall G m', retreat_step self G m = (Ok tt, m') ->
     m_k m' = m_k m - 1 /\
     exists x Zt,
       vec_at (m_x_tape m) (m_k m') = Some x /\
       vec_at (m_Z_tape m) (m_k m') = Some Zt /\
       m' = take_stepB self G x Zt (update_previousB self (retreat_time self m))).
Proof.
  intros Hnk q. split; [|split; [|split]].
  - intros c Hc. pose proof (advance_k_out_ceil self t c Hc Hnk) as Hk. split.
    + intros Hneg. rewrite decide_False in Hk by lia. apply advance_refuses, Hk.
    + intros Hpos. rewrite decide_True in Hk by lia. apply advance_run, Hk.
  - intros f Hf. pose proof (retreat_k_out_floor self t f Hf Hnk) as Hk. split.
    + intros Hbig. rewrite decide_False in Hk by lia. apply retreat_refuses, Hk.
    + intros Hle G HG. rewrite decide_True in Hk by lia. apply retreat_run; assumption.
  - intros m' H. eapply advance_step_k, H.
  - intros G m' H. split; [eapply retreat_step_k, H|].
    pose proof (retreat_step_k _ _ _ _ _ H) as Hk. revert H.
    rewrite retreat_step_run. cbv zeta.
    set (m1 := update_previousB self (retreat_time self m)).
    assert (Hk1 : m_k m1 = m_k m - 1) by (destruct m; reflexivity).
    assert (Hxt : m_x_tape m1 = m_x_tape m) by (destruct m; reflexivity).
    assert (HZt : m_Z_tape m1 = m_Z_tape m) by (destruct m; reflexivity).
    rewrite Hxt, HZt, Hk1, Hk. unfold tape_read.
    destruct (vec_at (m_x_tape m) (m_k m - 1)) as [x|]; [|discriminate].
    destruct (vec_at (m_Z_tape m) (m_k m - 1)) as [Zt|]; [|discriminate].
    destruct (call_throws _ _); [discriminate|].
    intros [= <-]. eauto.
Qed.

Lemma discrete_time_sought_witness :
  let self := decay_self true 2 [0; 1]%float false in
  let m := init_memory self FixedStepMemory_new in
  0 < nk_ self /\
  FixedStepIntegrator_advance self 0.75%float m =
    (iterate_step 2 (advance_step self) ;;; advance_outputs self)%stateful m /\
  FixedStepIntegrator_retreat self (-1)%float m =
    (iterate_step 0 (retreat_step self (euler_G 0.5%float)) ;;;
     retreat_outputs self)%stateful m.
Proof.
  intros self m.
  assert (Hnk : 0 < nk_ self) by (vm_compute; reflexivity).
  destruct (discrete_time_sought self 0.75%float m Hnk) as (Hadv & _).
  destruct (discrete_time_sought self (-1)%float m Hnk) as (_ & Hret & _).
  split; [exact Hnk|]. split.
  - destruct (Hadv 2) as [_ H]; [vm_compute; reflexivity|]. apply H. lia.
  - destruct (Hret (-2)) as [_ H]; [vm_compute; reflexivity|].
    apply (H ltac:(vm_compute; discriminate) (euler_G 0.5%float)).
    vm_compute. reflexivity.
Defined.

(** ** The forward leg returns *)

(** Reduces the members of a memory built by the blocks of the stepping
    code to the assigned values. *)
Ltac mem_simpl :=
  cbv [advance_time retreat_time update_previous update_previousB take_step
       take_stepB call_F call_G tapes
       set_m_t set_m_k set_m_x set_m_z set_m_p set_m_q
       set_m_rx set_m_rz set_m_rp set_m_rq set_m_x_prev set_m_Z_prev
       set_m_q_prev set_m_rx_prev set_m_RZ_prev set_m_rq_prev set_m_Z set_m_RZ
       set_m_x_tape set_m_Z_tape
       m_t m_k m_x m_z m_p m_q m_rx m_rz
       m_rp m_rq m_x_prev m_Z_prev m_q_prev m_rx_prev m_RZ_prev m_rq_prev
       m_Z m_RZ m_x_tape m_Z_tape] in *.


Lemma take_step_update_previous_x_length self m :
  length (m_x (take_step self (update_previous self m))) = length (m_x m).
Proof. destruct m; simpl. apply store_result_length. Qed.

Lemma take_step_update_previous_tapes self m :
  tapes (take_step self (update_previous self m)) = tapes m.
Proof. destruct m; reflexivity. Qed.

Lemma take_step_update_previous_k self m :
  m_k (take_step self (update_previous self m)) = m_k m.
Proof. destruct m; reflexivity. Qed.

Lemma advance_step_ok self m :
  call_throws (getExplicit self) (advance_arg (update_previous self m)) = None ->
  stepping_ready self m -> m_k m < nk_ self ->
  exists m', advance_step self m = (Ok tt, m') /\
             stepping_ready self m' /\ m_k m' = m_k m + 1.
Proof.
  intros Hret (Hx & Htape & Hk) Hlt. rewrite advance_step_run. cbv zeta. rewrite Hret.
  set (m1 := take_step self (update_previous self m)).
  pose proof (take_step_update_previous_x_length self m) as Hx1.
  pose proof (take_step_update_previous_tapes self m) as Ht1.
  pose proof (take_step_update_previous_k self m) as Hk1.
  fold m1 in Hx1, Ht1, Hk1.
  assert (Hxt : m_x_tape m1 = m_x_tape m) by exact (f_equal fst Ht1).
  assert (HZt : m_Z_tape m1 = m_Z_tape m) by exact (f_equal snd Ht1).
  clearbody m1.
  destruct (Z.ltb_spec 0 (nrx_ (base self))) as [Hnrx|Hnrx].
  - destruct (Htape Hnrx) as [Hlx HlZ].
    destruct (tape_write_in_range (m_x_tape m1) (m_k m1 + 1) (get_ptr (m_x m1))
                (nx_ (base self))) as [xt Hw]; [rewrite Hxt, Hk1; lia|].
    destruct (tape_write_in_range (m_Z_tape m1) (m_k m1) (get_ptr (m_Z m1))
                (Z.of_nat (length (m_Z m1)))) as [Zt HwZ]; [rewrite HZt, Hk1; lia|].
    rewrite Hw, HwZ. eexists. split; [reflexivity|].
    apply tape_write_length in Hw. apply tape_write_length in HwZ.
    unfold stepping_ready, tapes_allocated in *.
    destruct m1, m; mem_simpl. repeat split; intros; subst; lia.
  - eexists. split; [reflexivity|].
    unfold stepping_ready, tapes_allocated in *.
    destruct m1, m; mem_simpl. repeat split; intros; subst; lia.
Qed.


Lemma iterate_advance_ok self n m :
  returns_always (getExplicit self) ->
  stepping_ready self m -> m_k m + Z.of_nat n <= nk_ self ->
  exists m', iterate_step n (advance_step self) m = (Ok tt, m') /\
             stepping_ready self m' /\ m_k m' = m_k m + Z.of_nat n.
Proof.
  intros HF. revert m. induction n as [|n IH]; intros m Hready Hk; simpl.
  - exists m. split; [reflexivity|]. split; [exact Hready | lia].
  - destruct (advance_step_ok self m (HF _) Hready) as (m1 & Hstep & Hready1 & Hk1); [lia|].
    destruct (IH m1 Hready1) as (m' & Hit & Hready' & Hk'); [lia|].
    exists m'. unfold bind. rewrite Hstep.
    split; [exact Hit|]. split; [exact Hready' | lia].
Qed.

Lemma advance_k_out_range self t k_out :
  advance_k_out self t = Ok k_out -> 0 <= k_out <= nk_ self.
Proof.
  unfold advance_k_out. destruct (std_ceil_int _) as [c|]; [|discriminate].
  destruct (Z.leb_spec 0 (Z.min c (nk_ self))); [|discriminate].
  intros [= <-]. lia.
Qed.

Lemma retreat_k_out_range self t k_out :
  retreat_k_out self t = Ok k_out -> 0 <= k_out <= nk_ self.
Proof.
  unfold retreat_k_out. destruct (std_floor_int _) as [c|]; [|discriminate].
  destruct (Z.leb_spec (Z.max c 0) (nk_ self)); [|discriminate].
  intros [= <-]. lia.
Qed.

(** [advance] returns once the discrete time sought is defined, when the
    discrete map returns: it ends at the later of the current and the
    sought discrete time, and hands out the state it ends in. *)
Lemma advance_ok self t k_out m :
  returns_always (getExplicit self) ->
  stepping_ready self m -> advance_k_out self t = Ok k_out ->
  exists m',
    FixedStepIntegrator_advance self t m =
      (Ok ((get_ptr (m_x m'), nx_ (base self)),
           (cptr_add (get_ptr (m_Z m')) (Z.of_nat (length (m_Z m')) - nz_ (base self)),
            nz_ (base self)),
           (get_ptr (m_q m'), nq_ (base self))), m') /\
    stepping_ready self m' /\ m_k m' = Z.max (m_k m) k_out /\
    (k_out <= m_k m -> m' = m).
Proof.
  intros HF Hready Hk. pose proof (advance_k_out_range _ _ _ Hk) as Hrange.
  pose proof Hready as (_ & _ & Hkm).
  unfold FixedStepIntegrator_advance, bind, lift, get, ret. rewrite Hk.
  rewrite advance_loop_iterate by reflexivity.
  destruct (iterate_advance_ok self (Z.to_nat (k_out - m_k m)) m HF Hready)
    as (m' & Hit & Hready' & Hk'); [lia|].
  rewrite Hit. exists m'. split; [reflexivity|].
  split; [exact Hready'|]. split; [lia|].
  intros Hle. replace (Z.to_nat (k_out - m_k m)) with 0%nat in Hit by lia.
  simpl in Hit. injection Hit as <-. reflexivity.
Qed.

(** ** The backward leg returns *)

Lemma retreat_step_ok self G m :
  returns_always G ->
  stepping_ready self m -> 0 < nrx_ (base self) -> 0 < m_k m ->
  exists m', retreat_step self G m = (Ok tt, m') /\
             stepping_ready self m' /\ m_k m' = m_k m - 1.
Proof.
  intros HG (Hx & Htape & Hk) Hnrx Hpos. rewrite retreat_step_run. cbv zeta.
  set (m1 := update_previousB self (retreat_time self m)).
  assert (Hk1 : m_k m1 = m_k m - 1) by (destruct m; reflexivity).
  assert (Hxt : m_x_tape m1 = m_x_tape m) by (destruct m; reflexivity).
  assert (HZt : m_Z_tape m1 = m_Z_tape m) by (destruct m; reflexivity).
  assert (Hx1 : m_x m1 = m_x m) by (destruct m; reflexivity).
  clearbody m1. destruct (Htape Hnrx) as [Hlx HlZ].
  destruct (vec_at_in_range (m_x_tape m1) (m_k m1)) as [x Hrx];
    [rewrite Hxt, Hk1; lia|].
  destruct (vec_at_in_range (m_Z_tape m1) (m_k m1)) as [Zt HrZ];
    [rewrite HZt, Hk1; lia|].
  unfold tape_read. rewrite Hrx, HrZ, (HG _). eexists. split; [reflexivity|].
  unfold stepping_ready, tapes_allocated in *.
  destruct m1, m; mem_simpl. repeat split; intros; subst; lia.
Qed.

Lemma iterate_retreat_ok self G n m :
  returns_always G ->
  stepping_ready self m -> 0 < nrx_ (base self) -> 0 <= m_k m - Z.of_nat n ->
  exists m', iterate_step n (retreat_step self G) m = (Ok tt, m') /\
             stepping_ready self m' /\ m_k m' = m_k m - Z.of_nat n.
Proof.
  intros HG Hready Hnrx. revert m Hready. induction n as [|n IH]; intros m Hready Hk; simpl.
  - exists m. split; [reflexivity|]. split; [exact Hready | lia].
  - destruct (retreat_step_ok self G m HG Hready Hnrx) as (m1 & Hstep & Hready1 & Hk1); [lia|].
    destruct (IH m1 Hready1) as (m' & Hit & Hready' & Hk'); [lia|].
    exists m'. unfold bind. rewrite Hstep.
    split; [exact Hit|]. split; [exact Hready' | lia].
Qed.


(** ** reset and resetB *)

Lemma reset_run self t x z p m :
  FixedStepIntegrator_reset self t x z p m =
  let b := base self in
  let m1 :=
    set_m_Z (casadi_fill (m_Z m) (Z.of_nat (length (m_Z m))) quiet_NaN)
      (set_m_k 0
        (set_m_q (casadi_fill (m_q m) (nq_ b) 0%float)
          (set_m_z (casadi_copy z (nz_ b) (m_z m))
            (set_m_x (casadi_copy x (nx_ b) (m_x m))
              (set_m_p (casadi_copy p (np_ b) (m_p m))
                (set_m_t t m)))))) in
  if 0 <? nrx_ b then
    match tape_write (m_x_tape m) 0 x (nx_ b) with
    | Ok xt => (Ok tt, set_m_x_tape xt m1)
    | Throw e => (Throw e, m1)
    end
  else (Ok tt, m1).
Proof.
  unfold FixedStepIntegrator_reset, bind, modify, get, lift, ret. cbv zeta.
  destruct (0 <? nrx_ (base self)); [|destruct m; reflexivity].
  destruct m; mem_simpl.
  destruct (tape_write m_x_tape0 0 x (nx_ (base self))); reflexivity.
Qed.

Lemma resetB_run self t rx rz rp m :
  FixedStepIntegrator_resetB self t rx rz rp m =
  let b := base self in
  (Ok tt,
   set_m_RZ (casadi_fill (m_RZ m) (Z.of_nat (length (m_RZ m))) quiet_NaN)
     (set_m_k (nk_ self)
       (set_m_rq (casadi_fill (m_rq m) (nrq_ b) 0%float)
         (set_m_rz (casadi_copy rz (nrz_ b) (m_rz m))
           (set_m_rx (casadi_copy rx (nrx_ b) (m_rx m))
             (set_m_rp (casadi_copy rp (nrp_ b) (m_rp m))
               (set_m_t t m))))))).
Proof. destruct m; reflexivity. Qed.

(** [reset] on a memory of the sizes [init_memory] gives, with inputs of
    the problem's dimensions: what it sets, what it leaves, and that the
    memory is ready for the stepping loops. *)
Lemma reset_spec
    (self : FixedStepIntegrator) (m : FixedStepMemory) (t : double)
    (x0 z0 p : list double) :
  memory_sized self m -> 0 <= nk_ self ->
  length x0 = Z.to_nat (nx_ (base self)) ->
  length z0 = Z.to_nat (nz_ (base self)) ->
  length p = Z.to_nat (np_ (base self)) ->
  exists m',
    FixedStepIntegrator_reset self t (Some x0) (Some z0) (Some p) m = (Ok tt, m') /\
    (m_t m' = t /\ m_x m' = x0 /\ m_z m' = z0 /\ m_p m' = p /\
     m_q m' = replicate (Z.to_nat (nq_ (base self))) 0%float /\
     m_k m' = 0 /\
     m_Z m' = replicate (length (m_Z m)) quiet_NaN) /\
    (0 < nrx_ (base self) ->
       m_x_tape m' !! 0%nat = Some x0 /\
       forall i, i <> 0%nat -> m_x_tape m' !! i = m_x_tape m !! i) /\
    (nrx_ (base self) <= 0 -> m_x_tape m' = m_x_tape m) /\
    (m_rx m' = m_rx m /\ m_rz m' = m_rz m /\ m_rp m' = m_rp m /\ m_rq m' = m_rq m /\
     m_x_prev m' = m_x_prev m /\ m_Z_prev m' = m_Z_prev m /\ m_q_prev m' = m_q_prev m /\
     m_rx_prev m' = m_rx_prev m /\ m_RZ_prev m' = m_RZ_prev m /\
     m_rq_prev m' = m_rq_prev m /\ m_RZ m' = m_RZ m /\ m_Z_tape m' = m_Z_tape m) /\
    stepping_ready self m'.
Proof.
  intros Hsized Hnk Hx0 Hz0 Hp. rewrite reset_run. cbv zeta.
  destruct Hsized. 
  assert (Hvals :
    casadi_copy (Some x0) (nx_ (base self)) (m_x m) = x0 /\
    casadi_copy (Some z0) (nz_ (base self)) (m_z m) = z0 /\
    casadi_copy (Some p) (np_ (base self)) (m_p m) = p /\
    casadi_fill (m_q m) (nq_ (base self)) 0%float
      = replicate (Z.to_nat (nq_ (base self))) 0%float /\
    casadi_fill (m_Z m) (Z.of_nat (length (m_Z m))) quiet_NaN
      = replicate (length (m_Z m)) quiet_NaN).
  { repeat split; try (apply casadi_copy_full; assumption).
    - apply casadi_fill_full; assumption.
    - rewrite casadi_fill_full by (symmetry; apply Nat2Z.id).
      rewrite Nat2Z.id. reflexivity. }
  destruct Hvals as (Ex & Ez & Ep & Eq & EZ).
  destruct (Z.ltb_spec 0 (nrx_ (base self))) as [Hnrx|Hnrx].
  - destruct (sized_tapes0 Hnrx) as [Hlx HlZ].
    destruct (m_x_tape m) as [|entry tape] eqn:Htape; [simpl in Hlx; lia|].
    assert (Hentry : length entry = Z.to_nat (nx_ (base self))).
    { apply Forall_cons in sized_x_tape0. tauto. }
    unfold tape_write, vec_at. simpl.
    rewrite casadi_copy_full by assumption.
    eexists. split; [reflexivity|].
    destruct m; mem_simpl. simpl in *.
    split; [repeat split; try reflexivity; assumption|].
    split; [intros _; split;
            [reflexivity | intros [|i] Hi; [congruence | reflexivity]]|].
    split; [intros; lia|].
    split; [repeat split; reflexivity|].
    unfold stepping_ready, tapes_allocated. mem_simpl. rewrite Ex.
    split; [assumption|]. split; [intros _; simpl; split; assumption | lia].
  - eexists. split; [reflexivity|].
    destruct m; mem_simpl. simpl in *.
    split; [repeat split; try reflexivity; assumption|].
    split; [intros; lia|].
    split; [intros; reflexivity|].
    split; [repeat split; reflexivity|].
    unfold stepping_ready, tapes_allocated. mem_simpl. rewrite Ex.
    split; [assumption|]. split; [intros; lia | lia].
Qed.

(** C4: what [reset] establishes.  On a memory of the sizes [init_memory]
    gives, with inputs of the problem's dimensions: the time is [t], the
    inputs [x0], [z0], [p] are in the memory, every quadrature entry is
    zero, the step counter is zero, every entry of the discrete algebraic
    variable [Z] is NaN, and with backward states entry 0 of the state tape
    is [x0] (the other entries keep their contents); without backward
    states the state tape is as before, and every other member (backward
    states and parameters, previous-step copies, [RZ], the algebraic tape)
    is as before. *)
Theorem reset_establishes
    (self : FixedStepIntegrator) (m : FixedStepMemory) (t : double)
    (x0 z0 p : list double) :
  memory_sized self m -> 0 <= nk_ self ->
  length x0 = Z.to_nat (nx_ (base self)) ->
  length z0 = Z.to_nat (nz_ (base self)) ->
  length p = Z.to_nat (np_ (base self)) ->
  exists m',
    FixedStepIntegrator_reset self t (Some x0) (Some z0) (Some p) m = (Ok tt, m') /\
    (m_t m' = t /\ m_x m' = x0 /\ m_z m' = z0 /\ m_p m' = p /\
     m_q m' = replicate (Z.to_nat (nq_ (base self))) 0%float /\
     m_k m' = 0 /\
     m_Z m' = replicate (length (m_Z m)) quiet_NaN) /\
    (0 < nrx_ (base self) ->
       m_x_tape m' !! 0%nat = Some x0 /\
       forall i, i <> 0%nat -> m_x_tape m' !! i = m_x_tape m !! i) /\
    (nrx_ (base self) <= 0 -> m_x_tape m' = m_x_tape m) /\
    (m_rx m' = m_rx m /\ m_rz m' = m_rz m /\ m_rp m' = m_rp m /\ m_rq m' = m_rq m /\
     m_x_prev m' = m_x_prev m /\ m_Z_prev m' = m_Z_prev m /\ m_q_prev m' = m_q_prev m /\
     m_rx_prev m' = m_rx_prev m /\ m_RZ_prev m' = m_RZ_prev m /\
     m_rq_prev m' = m_rq_prev m /\ m_RZ m' = m_RZ m /\ m_Z_tape m' = m_Z_tape m).
Proof.
  intros Hsized Hnk Hx0 Hz0 Hp.
  destruct (reset_spec self m t x0 z0 p Hsized Hnk Hx0 Hz0 Hp)
    as (m' & Hrun & Hset & Htape & Hnotape & Hframe & _).
  exists m'. auto.
Qed.

(** ** init_memory *)

Lemma resize_nil_replicate {T} (n : nat) (v : T) : resize n v [] = replicate n v.
Proof. destruct n; reflexivity. Qed.

(** [init_memory] on a default-constructed memory, member by member. *)
Lemma init_memory_new self :
  init_memory self FixedStepMemory_new =
  let b := base self in
  {| m_t := 0%float; m_k := 0;
     m_x := replicate (Z.to_nat (nx_ b)) 0%float;
     m_z := replicate (Z.to_nat (nz_ b)) 0%float;
     m_p := replicate (Z.to_nat (np_ b)) 0%float;
     m_q := replicate (Z.to_nat (nq_ b)) 0%float;
     m_rx := replicate (Z.to_nat (nrx_ b)) 0%float;
     m_rz := replicate (Z.to_nat (nrz_ b)) 0%float;
     m_rp := replicate (Z.to_nat (nrp_ b)) 0%float;
     m_rq := replicate (Z.to_nat (nrq_ b)) 0%float;
     m_x_prev := replicate (Z.to_nat (nx_ b)) 0%float;
     m_Z_prev := replicate (Z.to_nat (nZ_ self)) 0%float;
     m_q_prev := replicate (Z.to_nat (nq_ b)) 0%float;
     m_rx_prev := replicate (Z.to_nat (nrx_ b)) 0%float;
     m_RZ_prev := replicate (Z.to_nat (nRZ_ self)) 0%float;
     m_rq_prev := replicate (Z.to_nat (nrq_ b)) 0%float;
     m_Z := zeros (nnz_in (F_ self) DAE_Z);
     m_RZ := match G_ self with None => [] | Some g => zeros (nnz_in g RDAE_RZ) end;
     m_x_tape := if 0 <? nrx_ b
                 then replicate (Z.to_nat (nk_ self + 1)) (zeros (nx_ b)) else [];
     m_Z_tape := if 0 <? nrx_ b
                 then replicate (Z.to_nat (nk_ self)) (zeros (nZ_ self)) else [] |}.
Proof.
  cbv [init_memory FixedStepMemory_new
       set_m_t set_m_k set_m_x set_m_z set_m_p set_m_q
       set_m_rx set_m_rz set_m_rp set_m_rq set_m_x_prev set_m_Z_prev
       set_m_q_prev set_m_rx_prev set_m_RZ_prev set_m_rq_prev set_m_Z set_m_RZ
       set_m_x_tape set_m_Z_tape
       m_t m_k m_x m_z m_p m_q m_rx m_rz
       m_rp m_rq m_x_prev m_Z_prev m_q_prev m_rx_prev m_RZ_prev m_rq_prev
       m_Z m_RZ m_x_tape m_Z_tape].
  destruct (0 <? nrx_ (base self)); cbv beta iota;
    rewrite !resize_nil_replicate; reflexivity.
Qed.

Lemma init_memory_sized self :
  nZ_ self = nnz_in (F_ self) DAE_Z ->
  nRZ_ self = match G_ self with None => 0 | Some g => nnz_in g RDAE_RZ end ->
  memory_sized self (init_memory self FixedStepMemory_new).
Proof.
  intros HZ HRZ. rewrite init_memory_new. cbv zeta. unfold zeros.
  constructor; cbn [m_x m_z m_p m_q m_rx m_rz m_rp m_rq m_x_prev m_Z_prev m_q_prev
                    m_rx_prev m_RZ_prev m_rq_prev m_Z m_RZ m_x_tape m_Z_tape];
    rewrite ?length_replicate; try reflexivity; try congruence.
  - rewrite HRZ. destruct (G_ self); [apply length_replicate | reflexivity].
  - intros Hnrx. cbn [m_x_tape m_Z_tape].
    destruct (Z.ltb_spec 0 (nrx_ (base self))); [|lia].
    rewrite !length_replicate. split; reflexivity.
  - destruct (0 <? nrx_ (base self)); [|constructor].
    apply Forall_replicate, length_replicate.
  - destruct (0 <? nrx_ (base self)); [|constructor].
    apply Forall_replicate, length_replicate.
Qed.

Lemma FixedStepIntegrator_init_dims self0 opts setupFG self :
  FixedStepIntegrator_init self0 opts setupFG = Ok self ->
  0 < nk_ self /\
  nZ_ self = nnz_in (F_ self) DAE_Z /\
  nRZ_ self = match G_ self with None => 0 | Some g => nnz_in g RDAE_RZ end /\
  getExplicit self = F_ self /\ getExplicitB self = G_ self /\
  Integrator_init (base self0) opts = Ok (base self) /\
  h_ self = ((grid_back (base self) - grid_front (base self))
             / int_to_double (nk_ self))%float.
Proof.
  unfold FixedStepIntegrator_init, rbind.
  destruct (Integrator_init (base self0) opts) as [b|]; [|discriminate].
  destruct (read_option opts "number_of_finite_elements" to_int (nk_ self0)) as [nk|];
    [|discriminate].
  destruct (Z.ltb_spec 0 nk); simpl; [|discriminate].
  destruct (setupFG b) as [F G]. intros [= <-]. simpl. auto 10.
Qed.

Lemma reset_establishes_witness :
  let self := decay_self true 2 [0; 1]%float false in
  let m := init_memory self FixedStepMemory_new in
  (memory_sized self m /\ 0 <= nk_ self /\
   length [1%float] = Z.to_nat (nx_ (base self)) /\
   length (@nil double) = Z.to_nat (nz_ (base self)) /\
   length (@nil double) = Z.to_nat (np_ (base self))) /\
  exists m',
    FixedStepIntegrator_reset self 0%float (Some [1%float]) (Some []) (Some []) m
      = (Ok tt, m') /\
    m_x m' = [1%float] /\ m_k m' = 0 /\ m_x_tape m' !! 0%nat = Some [1%float].
Proof.
  intros self m.
  assert (Hsized : memory_sized self m) by (apply init_memory_sized; reflexivity).
  assert (Hnk : 0 <= nk_ self) by (vm_compute; discriminate).
  assert (Hx : length [1%float] = Z.to_nat (nx_ (base self))) by reflexivity.
  assert (Hz : length (@nil double) = Z.to_nat (nz_ (base self))) by reflexivity.
  assert (Hp : length (@nil double) = Z.to_nat (np_ (base self))) by reflexivity.
  destruct (reset_establishes self m 0%float [1%float] [] [] Hsized Hnk Hx Hz Hp)
    as (m' & Hrun & (_ & Hmx & _ & _ & _ & Hmk & _) & Htape & _).
  split; [auto 10|]. exists m'. repeat split; try assumption.
  apply Htape. vm_compute. reflexivity.
Defined.

(** ** The tapes *)

Lemma advance_step_tapes_unused self :
  nrx_ (base self) <= 0 -> preserves tapes (advance_step self).
Proof.
  intros Hnrx. unfold advance_step.
  destruct (Z.ltb_spec 0 (nrx_ (base self))); [lia|]. frame_step.
Qed.

Lemma reset_tapes_unused self t x z p :
  nrx_ (base self) <= 0 -> preserves tapes (FixedStepIntegrator_reset self t x z p).
Proof.
  intros Hnrx. unfold FixedStepIntegrator_reset.
  destruct (Z.ltb_spec 0 (nrx_ (base self))); [lia|]. frame_step.
Qed.

Lemma init_memory_tapes_unused self m :
  nrx_ (base self) <= 0 -> tapes (init_memory self m) = tapes m.
Proof.
  intros Hnrx. unfold init_memory.
  destruct (Z.ltb_spec 0 (nrx_ (base self))); [lia|]. destruct m; reflexivity.
Qed.

(** With backward states a completed forward step leaves the new state in
    the state tape at [k+1] and the new algebraic variable in the algebraic
    tape at [k], where [k] is the discrete time the step starts from. *)
Lemma advance_step_tape self m m' :
  0 < nrx_ (base self) -> memory_sized self m ->
  advance_step self m = (Ok tt, m') ->
  0 <= m_k m /\
  m_x_tape m' !! Z.to_nat (m_k m + 1) = Some (m_x m') /\
  m_Z_tape m' !! Z.to_nat (m_k m) = Some (m_Z m') /\
  (forall i, i <> Z.to_nat (m_k m + 1) -> m_x_tape m' !! i = m_x_tape m !! i) /\
  (forall i, i <> Z.to_nat (m_k m) -> m_Z_tape m' !! i = m_Z_tape m !! i).
Proof.
  intros Hnrx Hsized. rewrite advance_step_run. cbv zeta.
  destruct (call_throws _ _); [discriminate|].
  destruct (Z.ltb_spec 0 (nrx_ (base self))); [|lia].
  set (m1 := take_step self (update_previous self m)).
  assert (Hk1 : m_k m1 = m_k m) by (destruct m; reflexivity).
  assert (Hxt : m_x_tape m1 = m_x_tape m) by (destruct m; reflexivity).
  assert (HZt : m_Z_tape m1 = m_Z_tape m) by (destruct m; reflexivity).
  assert (Hx1 : length (m_x m1) = Z.to_nat (nx_ (base self))).
  { rewrite <- (sized_x _ _ Hsized). destruct m; mem_simpl. apply store_result_length. }
  assert (HZ1 : length (m_Z m1) = Z.to_nat (nZ_ self)).
  { rewrite <- (sized_Z _ _ Hsized). destruct m; mem_simpl. apply store_result_length. }
  clearbody m1. rewrite Hxt, HZt, Hk1.
  destruct (tape_write (m_x_tape m) _ _ _) as [xt|] eqn:Hw; [|discriminate].
  destruct (tape_write (m_Z_tape m) _ _ _) as [Zt|] eqn:HwZ; [|discriminate].
  intros [= <-].
  apply tape_write_Ok in Hw as (ex & Hkx & Hex & ->).
  apply tape_write_Ok in HwZ as (eZ & HkZ & HeZ & ->).
  assert (Hlex : length ex = Z.to_nat (nx_ (base self))).
  { eapply (Forall_lookup_1 _ _ _ _ (sized_x_tape _ _ Hsized)), Hex. }
  assert (HleZ : length eZ = Z.to_nat (nZ_ self)).
  { eapply (Forall_lookup_1 _ _ _ _ (sized_Z_tape _ _ Hsized)), HeZ. }
  rewrite (casadi_copy_get_ptr_full (m_x m1) (nx_ (base self)) ex) by assumption.
  rewrite (casadi_copy_get_ptr_full (m_Z m1) _ eZ) by (rewrite Nat2Z.id; congruence).
  destruct m1; mem_simpl.
  repeat split.
  - exact HkZ.
  - apply list_lookup_insert_eq. eapply lookup_lt_Some, Hex.
  - apply list_lookup_insert_eq. eapply lookup_lt_Some, HeZ.
  - intros i Hi. apply list_lookup_insert_ne. congruence.
  - intros i Hi. apply list_lookup_insert_ne. congruence.
Qed.

(** ** The evaluation protocol *)

Lemma eval_forward_recorder self ts k x z q s :
  0 < k ->
  exists s', eval_forward self Recorder k ts x z q s = (Ok tt, s') /\
             es_mem s' = es_mem s ++ (CallAdvance <$> ts).
Proof.
  revert k x z q s. induction ts as [|tk ts IH]; intros k x z q s Hk.
  - exists s. simpl. rewrite app_nil_r. auto.
  - cbn [eval_forward]. destruct (Z.eqb_spec k 0); [lia|]. cbn [andb].
    rewrite (bind_ok _ _ s null_output
               (Build_EvalState (es_mem s ++ [CallAdvance tk]) (es_res s)) eq_refl).
    rewrite bind_modify.
    match goal with
    | |- context [eval_forward self Recorder ?k' ts ?x' ?z' ?q' ?s1] =>
        destruct (IH k' x' z' q' s1) as (s' & Hrun & Hm); [lia|]
    end.
    exists s'. split; [exact Hrun|].
    rewrite Hm, !copy_out_mem. cbn [es_mem fmap list_fmap].
    rewrite <- app_assoc. reflexivity.
Qed.

(** The whole forward loop: the first grid point is left out exactly when
    [output_t0_] is false. *)
Lemma eval_forward_recorder_all self s :
  exists s', eval_forward self Recorder 0 (grid_ self) 0 0 0 s = (Ok tt, s') /\
             es_mem s' = es_mem s
               ++ (CallAdvance <$> (if output_t0_ self then grid_ self
                                    else drop 1 (grid_ self))).
Proof.
  destruct (grid_ self) as [|t0 ts].
  - exists s. simpl. destruct (output_t0_ self); rewrite app_nil_r; auto.
  - cbn [eval_forward]. destruct (output_t0_ self); cbn [Z.eqb andb negb].
    + rewrite (bind_ok _ _ s null_output
                 (Build_EvalState (es_mem s ++ [CallAdvance t0]) (es_res s)) eq_refl).
      rewrite bind_modify.
      match goal with
      | |- context [eval_forward self Recorder ?k' ts ?x' ?z' ?q' ?s1] =>
          destruct (eval_forward_recorder self ts k' x' z' q' s1)
            as (s' & Hrun & Hm); [lia|]
      end.
      exists s'. split; [exact Hrun|].
      rewrite Hm, !copy_out_mem. cbn [es_mem fmap list_fmap].
      rewrite <- app_assoc. reflexivity.
    + cbn [drop]. rewrite drop_0. apply eval_forward_recorder. lia.
Qed.

(** C2: the evaluation protocol.  Run on the scheme that records its
    calls, [eval] returns, and the calls it has made are, in order: one
    [reset] at [grid_.front()] with the inputs [x0], [z0], [p]; one
    [advance] for each grid point in grid order, the one at [grid_[0]] left
    out exactly when [output_t0_] is false; then, exactly when the backward
    state dimension [nrx_] is not zero (no other dimension is consulted),
    one [resetB] at [grid_.back()] followed by one [retreat] to
    [grid_.front()]; and the statistics printer when it was asked for. *)
Theorem eval_call_protocol
    (self : Integrator) (arg : IntegratorInput -> cptr double)
    (s : EvalState (list Call)) :
  0 <= nrx_ self ->
  let r := eval self Recorder arg s in
  fst r = Ok tt /\
  es_mem (snd r) =
    es_mem s
    ++ [CallReset (grid_front self) (arg INTEGRATOR_X0) (arg INTEGRATOR_Z0)
          (arg INTEGRATOR_P)]
    ++ (CallAdvance <$> (if output_t0_ self then grid_ self else drop 1 (grid_ self)))
    ++ (if decide (nrx_ self = 0) then []
        else [CallResetB (grid_back self) (arg INTEGRATOR_RX0) (arg INTEGRATOR_RZ0)
                (arg INTEGRATOR_RP);
              CallRetreat (grid_front self)])
    ++ (if print_stats_ self then [CallPrintStats] else []).
Proof.
  intros Hnrx r. subst r. unfold eval.
  (* reset *)
  set (c0 := CallReset (grid_front self) (arg INTEGRATOR_X0) (arg INTEGRATOR_Z0)
               (arg INTEGRATOR_P)).
  rewrite (bind_ok _ _ s tt (Build_EvalState (es_mem s ++ [c0]) (es_res s)) eq_refl).
  (* the forward loop *)
  destruct (eval_forward_recorder_all self
              (Build_EvalState (es_mem s ++ [c0]) (es_res s)))
    as (s2 & Hfwd & Hm2).
  rewrite (bind_ok _ _ _ _ _ Hfwd). cbn [es_mem] in Hm2.
  (* the backward leg *)
  assert (Hback : exists s3,
    (if 0 <? nrx_ self then
       (on_mem (resetB Recorder (grid_back self) (arg INTEGRATOR_RX0)
                  (arg INTEGRATOR_RZ0) (arg INTEGRATOR_RP)) ;;;
        out <- on_mem (retreat Recorder (grid_front self)) ;;
        modify (fun s =>
          copy_out INTEGRATOR_RQF 0 (snd out)
            (copy_out INTEGRATOR_RZF 0 (snd (fst out))
              (copy_out INTEGRATOR_RXF 0 (fst (fst out)) s))))%stateful
     else ret tt) s2 = (Ok tt, s3) /\
    es_mem s3 = es_mem s2
      ++ (if decide (nrx_ self = 0) then []
          else [CallResetB (grid_back self) (arg INTEGRATOR_RX0) (arg INTEGRATOR_RZ0)
                  (arg INTEGRATOR_RP);
                CallRetreat (grid_front self)])).
  { destruct (decide (nrx_ self = 0)) as [H0|H0];
      destruct (Z.ltb_spec 0 (nrx_ self)); try lia.
    - exists s2. rewrite app_nil_r. auto.
    - eexists. split; [reflexivity|].
      rewrite !copy_out_mem. cbn [es_mem]. rewrite <- app_assoc. reflexivity. }
  destruct Hback as (s3 & Hback & Hm3).
  rewrite (bind_ok _ _ _ _ _ Hback).
  (* statistics *)
  destruct (print_stats_ self).
  - split; [reflexivity|]. cbn. rewrite Hm3, Hm2, <- !app_assoc. reflexivity.
  - split; [reflexivity|]. cbn. rewrite Hm3, Hm2, <- !app_assoc, app_nil_r. reflexivity.
Qed.

Lemma eval_call_protocol_witness :
  let self := base (decay_self true 2 [0; 0.5; 1]%float false) in
  let arg := fun i => match i with INTEGRATOR_X0 => Some [1%float] | _ => None end in
  0 <= nrx_ self /\
  es_mem (snd (eval self Recorder arg (Build_EvalState [] (fun _ => None)))) =
    [CallReset 0%float (Some [1%float]) None None;
     CallAdvance 0.5%float; CallAdvance 1%float;
     CallResetB 1%float None None None; CallRetreat 0%float].
Proof.
  intros self arg.
  assert (Hnrx : 0 <= nrx_ self) by (vm_compute; discriminate).
  split; [exact Hnrx|].
  destruct (eval_call_protocol self arg (Build_EvalState [] (fun _ => None)) Hnrx)
    as [_ Hm].
  rewrite Hm. vm_compute. reflexivity.
Defined.

(** ** The output buffers *)


Lemma copy_out_res_other {Mem} o o' off c (s : EvalState Mem) :
  o' <> o -> es_res (copy_out o off c s) o' = es_res s o'.
Proof.
  intros H. unfold copy_out. destruct (es_res s o); [|reflexivity]. simpl.
  unfold slot_set. destruct (decide (o' = o)); [congruence | reflexivity].
Qed.



(** ** A top-level evaluation of the fixed-step scheme *)





(** [reset] with an initial state of the problem's dimension, whatever the
    other two inputs are: the state is in the memory, the discrete time is
    zero and the memory is ready for the stepping loops. *)
Lemma reset_ready self t x0 z p m :
  length (m_x m) = Z.to_nat (nx_ (base self)) -> tapes_allocated self m ->
  0 <= nk_ self -> length x0 = Z.to_nat (nx_ (base self)) ->
  exists m', FixedStepIntegrator_reset self t (Some x0) z p m = (Ok tt, m') /\
             m_x m' = x0 /\ m_k m' = 0 /\ stepping_ready self m'.
Proof.
  intros Hmx Htape Hnk Hx0. rewrite reset_run. cbv zeta.
  assert (Ex : casadi_copy (Some x0) (nx_ (base self)) (m_x m) = x0)
    by (apply casadi_copy_full; assumption).
  destruct (Z.ltb_spec 0 (nrx_ (base self))) as [Hnrx|Hnrx].
  - destruct (Htape Hnrx) as [Hlx HlZ].
    destruct (tape_write_in_range (m_x_tape m) 0 (Some x0) (nx_ (base self)))
      as [xt Hw]; [lia|].
    rewrite Hw. apply tape_write_length in Hw.
    eexists. split; [reflexivity|].
    unfold stepping_ready, tapes_allocated. destruct m; mem_simpl. rewrite Ex.
    split; [reflexivity|]. split; [reflexivity|].
    split; [assumption|]. split; [intros _; split; congruence | lia].
  - eexists. split; [reflexivity|].
    unfold stepping_ready, tapes_allocated. destruct m; mem_simpl. rewrite Ex.
    split; [reflexivity|]. split; [reflexivity|].
    split; [assumption|]. split; [intros; lia | lia].
Qed.

Lemma resetB_ready self t rx rz rp m :
  stepping_ready self m -> 0 <= nk_ self ->
  exists m', FixedStepIntegrator_resetB self t rx rz rp m = (Ok tt, m') /\
             stepping_ready self m'.
Proof.
  intros (Hx & Htape & Hk) Hnk. rewrite resetB_run. cbv zeta.
  eexists. split; [reflexivity|].
  unfold stepping_ready, tapes_allocated in *. destruct m; mem_simpl.
  split; [assumption|]. split; [assumption | lia].
Qed.






(** ** Dependency propagation: what [sp_rev] writes to *)

(** A store through a pointer leaves every argument buffer it does not
    point to alone. *)
Lemma store_sp_arg m p v i :
  p <> ArgPtr i -> sp_arg (store m p v) i = sp_arg m i.
Proof.
  intros Hp. destruct p as [|j|o|off]; simpl; try reflexivity.
  - destruct (sp_arg m j); simpl; [|reflexivity].
    unfold slot_set. destruct (decide (i = j)) as [->|]; [congruence|reflexivity].
  - destruct (sp_res m o); reflexivity.
Qed.

Lemma arg_ptr_other m j i : j <> i -> arg_ptr m j <> ArgPtr i.
Proof. unfold arg_ptr. destruct (sp_arg m j); congruence. Qed.

Lemma res_ptr_other m o i : res_ptr m o <> ArgPtr i.
Proof. unfold res_ptr. destruct (sp_res m o); congruence. Qed.

Lemma oracle_rev_call_sp_arg o arg1 res1 w m i :
  (forall j, arg1 j <> ArgPtr i) -> (forall out, res1 out <> ArgPtr i) ->
  sp_arg (oracle_rev_call o arg1 res1 w m) i = sp_arg m i.
Proof.
  intros Ha Hr. unfold oracle_rev_call.
  generalize (sp_reverse o (fun i0 => load m (arg1 i0) (oracle_nnz_in o i0))
                (fun out => load m (res1 out) (oracle_nnz_out o out))).
  intros new.
  cbv [all_DEInput all_DEOutput foldl].
  rewrite !store_sp_arg; auto.
Qed.

Lemma take_seed_sp_arg out n tmp m i :
  out <> ArgPtr i -> tmp <> ArgPtr i -> sp_arg (take_seed out n tmp m) i = sp_arg m i.
Proof.
  intros. unfold take_seed, fill_n, copy_n.
  destruct (is_null out); rewrite !store_sp_arg; auto.
Qed.

Lemma slot_set_avoids {I} `{EqDecision I} (a : I -> bptr) j v i :
  v <> ArgPtr i -> (forall k, a k <> ArgPtr i) ->
  forall k, slot_set a j v k <> ArgPtr i.
Proof. intros Hv Ha k. unfold slot_set. destruct (decide (k = j)); auto. Qed.

Ltac ptr_side :=
  repeat first
    [ apply res_ptr_other
    | apply arg_ptr_other; discriminate
    | apply slot_set_avoids
    | discriminate
    | intros ?; discriminate ].

Lemma if_null_sp_arg (b : bool) f m i v :
  (forall m', sp_arg (f m') i = sp_arg m' i) ->
  sp_arg m i = v -> sp_arg (if b then m else f m) i = v.
Proof. intros Hf <-. destruct b; [reflexivity|apply Hf]. Qed.

Lemma if_call_sp_arg (b : bool) f m i v :
  (forall m', sp_arg (f m') i = sp_arg m' i) ->
  sp_arg m i = v -> sp_arg (if b then f m else m) i = v.
Proof. intros Hf <-. destruct b; [apply Hf|reflexivity]. Qed.

Lemma store_frame m p v i r :
  p <> ArgPtr i -> sp_arg m i = r -> sp_arg (store m p v) i = r.
Proof. intros Hp <-. apply store_sp_arg, Hp. Qed.

Lemma oracle_rev_call_frame o arg1 res1 w m i r :
  (forall j, arg1 j <> ArgPtr i) -> (forall out, res1 out <> ArgPtr i) ->
  sp_arg m i = r -> sp_arg (oracle_rev_call o arg1 res1 w m) i = r.
Proof. intros Ha Hr <-. apply oracle_rev_call_sp_arg; assumption. Qed.

Lemma take_seed_frame out n tmp m i r :
  out <> ArgPtr i -> tmp <> ArgPtr i ->
  sp_arg m i = r -> sp_arg (take_seed out n tmp m) i = r.
Proof. intros Ho Ht <-. apply take_seed_sp_arg; assumption. Qed.

Ltac sp_frame :=
  repeat lazymatch goal with
    | |- sp_arg ?m ?i = sp_arg ?m ?i => reflexivity
    | |- sp_arg (oracle_rev_call _ _ _ _ _) _ = _ =>
        apply oracle_rev_call_frame; [ptr_side | ptr_side |]
    | |- sp_arg (take_seed _ _ _ _) _ = _ =>
        apply take_seed_frame; [ptr_side | ptr_side |]
    | |- sp_arg (store _ _ _) _ = _ => apply store_frame; [ptr_side |]
    | |- sp_arg (if _ then ?m else or_into ?d ?n ?s ?m) _ = _ =>
        apply (if_null_sp_arg _ (fun m' => or_into d n s m'));
        [intros m'; apply store_sp_arg; ptr_side |]
    | |- sp_arg (if _ then oracle_rev_call ?o ?a ?r ?w ?m else ?m) _ = _ =>
        apply (if_call_sp_arg _ (fun m' => oracle_rev_call o a r w m'));
        [intros m'; apply oracle_rev_call_sp_arg; ptr_side |]
    end.

(** [sp_rev] writes to no argument buffer but those of X0, P, RX0 and
    RP. *)
Lemma sp_rev_sp_arg self m i :
  i = INTEGRATOR_Z0 \/ i = INTEGRATOR_RZ0 ->
  sp_arg (sp_rev self m) i = sp_arg m i.
Proof.
  intros Hi. unfold sp_rev, copy_n, fill_n, spsolve_call.
  destruct (0 <? nrx_ self); cbv beta iota zeta.
  all: destruct Hi; subst i; sp_frame.
Qed.

(** C8: [Integrator::sp_rev] returns with the argument buffers of the two
    initial algebraic guesses, Z0 and RZ0, exactly as they were on entry,
    whatever the integrator and the contents of the buffers; the buffers
    of X0, P, RX0 and RP can receive bits, and in the coupled problem all
    four do. *)
Theorem sp_rev_guesses_carry_no_dependency :
  (forall self m,
     sp_arg (sp_rev self m) INTEGRATOR_Z0 = sp_arg m INTEGRATOR_Z0 /\
     sp_arg (sp_rev self m) INTEGRATOR_RZ0 = sp_arg m INTEGRATOR_RZ0) /\
  (exists self m,
     coupled_integrator (dense 1 1) = Ok self /\
     Forall (fun i => sp_arg (sp_rev self m) i <> sp_arg m i)
       [INTEGRATOR_X0; INTEGRATOR_P; INTEGRATOR_RX0; INTEGRATOR_RP]).
Proof.
  split.
  - intros self m. split; apply sp_rev_sp_arg; auto.
  - destruct (coupled_integrator (dense 1 1)) as [self|e] eqn:E;
      [|vm_compute in E; discriminate E].
    exists self, (sp_buffers [0; 0; 0; 0; 0; 0] [1; 2; 4; 8; 16; 32]).
    split; [reflexivity|].
    vm_compute in E. injection E as <-.
    repeat constructor; vm_compute; intros H; discriminate H.
Qed.

(** ** ImplicitFixedStepIntegrator::init *)

Lemma options_forwarded_insert (user : Dict) input output :
  options_forwarded user
    (<["implicit_output" := GT_int output]> (<["implicit_input" := GT_int input]> user))
    input output.
Proof.
  repeat split.
  - rewrite lookup_insert_ne by discriminate. apply lookup_insert_eq.
  - apply lookup_insert_eq.
  - intros key H1 H2. rewrite !lookup_insert_ne by congruence. reflexivity.
Qed.

Lemma options_forwarded_again (user given : Dict) i1 o1 input output :
  options_forwarded user given i1 o1 ->
  options_forwarded user
    (<["implicit_output" := GT_int output]> (<["implicit_input" := GT_int input]> given))
    input output.
Proof.
  intros (_ & _ & H). repeat split.
  - rewrite lookup_insert_ne by discriminate. apply lookup_insert_eq.
  - apply lookup_insert_eq.
  - intros key H1 H2. rewrite !lookup_insert_ne by congruence. auto.
Qed.

(** C9, as stated, fails: the decay problem has a backward state and no
    backward algebraic variable ([nrz_ = 0]), and the backward map of the
    implicit scheme has one discrete algebraic variable ([nRZ_ = 1], the
    number of nonzeros of the input [RDAE_RZ] of [G_]).
    [ImplicitFixedStepIntegrator::init] returns and has built a backward
    root-finder over [G_]: its test is [nRZ_>0], not [nrz_>0]. *)
Lemma backward_rootfinder_follows_nRZ :
  exists self' brf,
    ImplicitFixedStepIntegrator_init implicit_decay implicit_options implicit_setupFG
      = Ok self' /\
    nrz_ (base (fixed_step self')) = 0 /\
    nRZ_ (fixed_step self') = 1 /\
    backward_rootfinder_ self' = Some brf /\
    rf_function brf = G_ (fixed_step self').
Proof.
  destruct (ImplicitFixedStepIntegrator_init implicit_decay implicit_options
              implicit_setupFG) as [self'|e] eqn:E; [|vm_compute in E; discriminate E].
  vm_compute in E. injection E as <-.
  eexists _, _. split; [reflexivity|]. repeat split; reflexivity.
Qed.

(** C9, amended.  Whenever the base class initialises and the two options
    have the types they are read at, [ImplicitFixedStepIntegrator::init]
    returns with a forward root-finder over [F_], built by the solver the
    options name, whose options are the user's [rootfinder_options] with
    [implicit_input] set to [DAE_Z] and [implicit_output] to [DAE_ALG]
    and every other key untouched; a backward root-finder exists exactly
    when [nRZ_], the number of discrete algebraic variables of the backward
    map [G_], is not zero, and it is built over [G_] by the same solver
    with [implicit_input] set to [RDAE_RZ] and [implicit_output] to
    [RDAE_ALG], the user's other keys again untouched. *)
Theorem implicit_init_rootfinders self opts setupFG fs solver user_opts :
  FixedStepIntegrator_init (fixed_step self) opts setupFG = Ok fs ->
  read_option opts "rootfinder" to_string "newton" = Ok solver ->
  read_option opts "rootfinder_options" to_dict ∅ = Ok user_opts ->
  backward_rootfinder_ self = None ->
  0 <= nRZ_ fs ->
  exists self' rf,
    ImplicitFixedStepIntegrator_init self opts setupFG = Ok self' /\
    fixed_step self' = fs /\
    rootfinder_ self' = Some rf /\
    rf_function rf = F_ fs /\ rf_solver rf = solver /\
    options_forwarded user_opts (rf_options rf)
      (DAEInput_index DAE_Z) (DAEOutput_index DAE_ALG) /\
    (nRZ_ fs <> 0 <-> backward_rootfinder_ self' <> None) /\
    forall brf, backward_rootfinder_ self' = Some brf ->
      rf_function brf = G_ fs /\ rf_solver brf = solver /\
      options_forwarded user_opts (rf_options brf)
        (RDAEInput_index RDAE_RZ) (RDAEOutput_index RDAE_ALG).
Proof.
  intros Hfs Hsolver Huser Hnone Hnn.
  unfold ImplicitFixedStepIntegrator_init.
  rewrite Hfs, Hsolver, Huser. cbn [rbind].
  eexists _, _. split; [reflexivity|]. cbn.
  split; [reflexivity|]. split; [reflexivity|].
  split; [reflexivity|]. split; [reflexivity|].
  split; [apply options_forwarded_insert|].
  destruct (0 <? nRZ_ fs) eqn:Hpos.
  - apply Z.ltb_lt in Hpos. split.
    + split; [discriminate | lia].
    + intros brf [= <-]. cbn. split; [reflexivity|]. split; [reflexivity|].
      eapply options_forwarded_again, options_forwarded_insert.
  - apply Z.ltb_ge in Hpos. rewrite Hnone. split.
    + split; [lia | congruence].
    + discriminate.
Qed.

Lemma implicit_init_rootfinders_witness :
  exists self' rf brf,
    ImplicitFixedStepIntegrator_init implicit_decay implicit_options implicit_setupFG
      = Ok self' /\
    rootfinder_ self' = Some rf /\ backward_rootfinder_ self' = Some brf /\
    rf_solver rf = "kinsol" /\
    rf_options rf !! "implicit_input" = Some (GT_int (DAEInput_index DAE_Z)) /\
    rf_options brf !! "implicit_input" = Some (GT_int (RDAEInput_index RDAE_RZ)) /\
    rf_options brf !! "abstol" = Some (GT_double 0.5%float).
Proof.
  destruct (FixedStepIntegrator_init (fixed_step implicit_decay) implicit_options
              implicit_setupFG) as [fs|e] eqn:E; [|vm_compute in E; discriminate E].
  assert (HnRZ : nRZ_ fs = 1)
    by (vm_compute in E; injection E as <-; reflexivity).
  destruct (implicit_init_rootfinders implicit_decay implicit_options implicit_setupFG
              fs "kinsol"
              (<["abstol" := GT_double 0.5%float]> (<["implicit_input" := GT_int 7]> ∅)) E)
    as (self' & rf & Hrun & _ & Hrf & _ & Hsolver & (Hin & _ & _) & Hiff & Hbrf).
  - reflexivity.
  - reflexivity.
  - reflexivity.
  - rewrite HnRZ. lia.
  - destruct (backward_rootfinder_ self') as [brf|] eqn:Hb;
      [|exfalso; apply (proj1 Hiff); [rewrite HnRZ; discriminate | reflexivity]].
    destruct (Hbrf brf eq_refl) as (_ & _ & Hbin & _ & Hkeys).
    exists self', rf, brf.
    split; [exact Hrun|]. split; [exact Hrf|]. split; [exact Hb|].
    split; [exact Hsolver|]. split; [exact Hin|]. split; [exact Hbin|].
    rewrite (Hkeys "abstol"); [reflexivity | discriminate | discriminate].
Defined.

(** ** Integrator::getAugOffset against the augmented problems *)

(** C1: the offsets of [getAugOffset] and the blocks of [aug_adj] do not
    agree for every quantity.  In the coupled problem with a backward state
    of one row and two columns, and one entry in every other quantity, one
    adjoint direction stacks the two columns of the [rx]-shaped symbol onto
    the one column of [x], three columns in all, while the final offset
    for [x] is two: the adjoint loop of [getAugOffset] counts the columns
    of [x] there.  Every other quantity is aligned in that problem, and so
    are all eight under one forward direction. *)
Theorem getAugOffset_x_offset_misses_rx_columns :
  exists self,
    coupled_integrator (dense 1 2) = Ok self /\
    0 < dimension self Q_x /\
    final_offset (getAugOffset self 0 1) Q_x = 2 /\
    block_columns (aug_adj self 1) Q_x = Some 3 /\
    (forall f, f <> Q_x -> 0 < dimension self f /\
       block_columns (aug_adj self 1) f = Some (final_offset (getAugOffset self 0 1) f)) /\
    (forall f,
       block_columns (aug_fwd self 1) f = Some (final_offset (getAugOffset self 1 0) f)).
Proof.
  destruct (coupled_integrator (dense 1 2)) as [self|e] eqn:E;
    [|vm_compute in E; discriminate E].
  exists self. split; [reflexivity|].
  vm_compute in E. injection E as <-.
  split; [reflexivity|]. split; [vm_compute; reflexivity|].
  split; [vm_compute; reflexivity|].
  split.
  - intros f Hf. destruct f; try congruence; split; vm_compute; reflexivity.
  - intros f. destruct f; vm_compute; reflexivity.
Qed.

(** ** Dependency propagation: the work vector *)

Lemma loaded_WPtr m a n :
  loaded m (WPtr a) n = (fun j => sp_w m (a + j)) <$> seqZ 0 n.
Proof.
  unfold loaded. simpl. apply resize_all_alt.
  rewrite length_fmap, length_seqZ. reflexivity.
Qed.

Lemma load_WPtr m a n : load m (WPtr a) n = Some (loaded m (WPtr a) n).
Proof. rewrite loaded_WPtr. reflexivity. Qed.

Lemma length_loaded m p n : length (loaded m p n) = Z.to_nat n.
Proof. apply length_resize. Qed.

Lemma loaded_ext m m' a n :
  (forall j, a <= j < a + n -> sp_w m' j = sp_w m j) ->
  loaded m' (WPtr a) n = loaded m (WPtr a) n.
Proof.
  intros H. rewrite !loaded_WPtr. apply Forall_fmap_ext, Forall_seqZ.
  intros j Hj. apply H. lia.
Qed.

Lemma loaded_store_same m a v n :
  length v = Z.to_nat n -> loaded (store m (WPtr a) v) (WPtr a) n = v.
Proof.
  intros Hlen. rewrite loaded_WPtr. apply list_eq. intros i.
  rewrite list_lookup_fmap. destruct (decide (i < length v)%nat) as [Hi|Hi].
  - rewrite lookup_seqZ_lt by lia. simpl.
    replace ((a <=? a + (0 + Z.of_nat i)) &&
             (a + (0 + Z.of_nat i) <? a + Z.of_nat (length v))) with true
      by (symmetry; apply andb_true_intro; split; [apply Z.leb_le|apply Z.ltb_lt]; lia).
    replace (Z.to_nat (a + (0 + Z.of_nat i) - a)) with i by lia.
    destruct (lookup_lt_is_Some_2 v i Hi) as [x Hx]. rewrite Hx. reflexivity.
  - rewrite lookup_seqZ_ge by lia. rewrite lookup_ge_None_2 by lia. reflexivity.
Qed.

Lemma sp_w_store_outside m a v j :
  j < a \/ a + Z.of_nat (length v) <= j -> sp_w (store m (WPtr a) v) j = sp_w m j.
Proof.
  intros Hj. simpl.
  destruct ((a <=? j) && (j <? a + Z.of_nat (length v))) eqn:E; [|reflexivity].
  apply andb_prop in E. destruct E as [E1 E2].
  apply Z.leb_le in E1. apply Z.ltb_lt in E2. lia.
Qed.

Lemma loaded_store_disjoint m a n b v :
  a + n <= b \/ b + Z.of_nat (length v) <= a ->
  loaded (store m (WPtr b) v) (WPtr a) n = loaded m (WPtr a) n.
Proof.
  intros H. apply loaded_ext. intros j Hj. apply sp_w_store_outside. lia.
Qed.

Lemma loaded_app m a n1 n2 :
  0 <= n1 -> 0 <= n2 ->
  loaded m (WPtr a) (n1 + n2) = loaded m (WPtr a) n1 ++ loaded m (WPtr (a + n1)) n2.
Proof.
  intros H1 H2. rewrite !loaded_WPtr, seqZ_app, fmap_app by assumption.
  f_equal. replace (0 + n1) with (n1 + 0) by lia.
  rewrite <- fmap_add_seqZ, <- list_fmap_compose.
  apply Forall_fmap_ext, Forall_forall. intros j _. simpl. f_equal. lia.
Qed.

Lemma take_loaded m a n1 n2 :
  0 <= n1 -> 0 <= n2 ->
  take (Z.to_nat n1) (loaded m (WPtr a) (n1 + n2)) = loaded m (WPtr a) n1.
Proof.
  intros H1 H2. rewrite loaded_app by assumption.
  apply take_app_length'. symmetry. apply length_loaded.
Qed.

Lemma drop_loaded m a n1 n2 :
  0 <= n1 -> 0 <= n2 ->
  drop (Z.to_nat n1) (loaded m (WPtr a) (n1 + n2)) = loaded m (WPtr (a + n1)) n2.
Proof.
  intros H1 H2. rewrite loaded_app by assumption.
  apply drop_app_length'. symmetry. apply length_loaded.
Qed.

Lemma load_arg_ptr m i n : load m (arg_ptr m i) n = arg_bits m i n.
Proof. unfold arg_ptr, arg_bits. destruct (sp_arg m i) eqn:E; simpl; rewrite ?E; reflexivity. Qed.

(** The scratch space of the oracle and two outputs side by side. *)
Lemma three_stores m w scratch a v1 v2 n1 n2 :
  0 <= n1 -> 0 <= n2 -> a + (n1 + n2) <= w ->
  length v1 = Z.to_nat n1 -> length v2 = Z.to_nat n2 ->
  let m' := store (store (store m (WPtr w) scratch) (WPtr a) v1) (WPtr (a + n1)) v2 in
  loaded m' (WPtr a) (n1 + n2) = v1 ++ v2 /\
  sp_arg m' = sp_arg m /\ sp_res m' = sp_res m /\
  forall j, j < a -> sp_w m' j = sp_w m j.
Proof.
  intros H1 H2 Hw L1 L2 m'. split; [|split; [reflexivity|split; [reflexivity|]]].
  - rewrite loaded_app by assumption. f_equal.
    + unfold m'. rewrite loaded_store_disjoint by lia.
      apply loaded_store_same, L1.
    + apply loaded_store_same, L2.
  - intros j Hj. unfold m'. rewrite !sp_w_store_outside by lia. reflexivity.
Qed.

Lemma oracle_fwd_call_forward o arg1 res1 w m a n1 n2 :
  res1 DE_ODE = WPtr a -> res1 DE_ALG = WPtr (a + n1) ->
  res1 DE_QUAD = Null -> res1 DE_RODE = Null ->
  res1 DE_RALG = Null -> res1 DE_RQUAD = Null ->
  oracle_nnz_out o DE_ODE = n1 -> oracle_nnz_out o DE_ALG = n2 ->
  0 <= n1 -> 0 <= n2 -> a + (n1 + n2) <= w ->
  let m' := oracle_fwd_call o arg1 res1 w m in
  loaded m' (WPtr a) (n1 + n2)
    = tentative_bits o (fun i => load m (arg1 i) (oracle_nnz_in o i)) DE_ODE DE_ALG /\
  sp_arg m' = sp_arg m /\ sp_res m' = sp_res m /\
  forall j, j < a -> sp_w m' j = sp_w m j.
Proof.
  intros R1 R2 R3 R4 R5 R6 N1 N2 H1 H2 Hw.
  unfold oracle_fwd_call. cbn [foldl all_DEOutput].
  rewrite R1, R2, R3, R4, R5, R6. cbn [store].
  unfold tentative_bits. rewrite N1, N2.
  apply three_stores; auto using length_resize.
Qed.

Lemma oracle_fwd_call_backward o arg1 res1 w m a n1 n2 :
  res1 DE_ODE = Null -> res1 DE_ALG = Null ->
  res1 DE_QUAD = Null -> res1 DE_RODE = WPtr a ->
  res1 DE_RALG = WPtr (a + n1) -> res1 DE_RQUAD = Null ->
  oracle_nnz_out o DE_RODE = n1 -> oracle_nnz_out o DE_RALG = n2 ->
  0 <= n1 -> 0 <= n2 -> a + (n1 + n2) <= w ->
  let m' := oracle_fwd_call o arg1 res1 w m in
  loaded m' (WPtr a) (n1 + n2)
    = tentative_bits o (fun i => load m (arg1 i) (oracle_nnz_in o i)) DE_RODE DE_RALG /\
  sp_arg m' = sp_arg m /\ sp_res m' = sp_res m /\
  forall j, j < a -> sp_w m' j = sp_w m j.
Proof.
  intros R1 R2 R3 R4 R5 R6 N1 N2 H1 H2 Hw.
  unfold oracle_fwd_call. cbn [foldl all_DEOutput].
  rewrite R1, R2, R3, R4, R5, R6. cbn [store].
  unfold tentative_bits. rewrite N1, N2.
  apply three_stores; auto using length_resize.
Qed.


(** The direct dependency, the copy to the right-hand side and the
    structural solve, on a vector of [n1 + n2] entries at offset [a]. *)
Lemma solve_pass sp a n1 n2 w i m :
  0 <= n1 -> 0 <= n2 -> a + (n1 + n2) <= w ->
  let m' :=
    spsolve_call sp (WPtr a) (WPtr w) (n1 + n2) false
      (fill_n (WPtr a) (n1 + n2) 0
         (copy_n (WPtr a) (n1 + n2) (WPtr w)
            (if is_null (arg_ptr m i) then m
             else or_into (WPtr a) n1 (arg_ptr m i) m))) in
  loaded m' (WPtr a) (n1 + n2)
    = or_then_solve sp n1 n2 (loaded m (WPtr a) (n1 + n2)) (arg_bits m i n1) /\
  sp_arg m' = sp_arg m /\ sp_res m' = sp_res m /\
  forall j, j < a -> sp_w m' j = sp_w m j.
Proof.
  intros H1 H2 Hw.
  set (m2 := if is_null (arg_ptr m i) then m
             else or_into (WPtr a) n1 (arg_ptr m i) m).
  assert (Hm2 : loaded m2 (WPtr a) (n1 + n2)
                = match arg_bits m i n1 with
                  | Some d =>
                      zip_with Z.lor (take (Z.to_nat n1) (loaded m (WPtr a) (n1 + n2)))
                        (resize (Z.to_nat n1) 0 d)
                        ++ drop (Z.to_nat n1) (loaded m (WPtr a) (n1 + n2))
                  | None => loaded m (WPtr a) (n1 + n2)
                  end /\
                sp_arg m2 = sp_arg m /\ sp_res m2 = sp_res m /\
                forall j, j < a -> sp_w m2 j = sp_w m j).
  { unfold m2. rewrite <- load_arg_ptr. unfold arg_ptr.
    destruct (sp_arg m i) as [buf|] eqn:Hbuf; cbn [is_null].
    - unfold or_into. cbn [load]. rewrite Hbuf. cbn [fmap option_fmap option_map].
      split; [|split; [reflexivity|split; [reflexivity|]]].
      + rewrite take_loaded, drop_loaded by assumption.
        rewrite loaded_app by assumption. f_equal.
        * rewrite loaded_store_same
            by (rewrite length_zip_with, !length_loaded; lia).
          f_equal. unfold loaded. cbn [load]. rewrite Hbuf. reflexivity.
        * apply loaded_store_disjoint. right.
          rewrite length_zip_with, !length_loaded. lia.
      + intros j Hj. apply sp_w_store_outside. lia.
    - cbn [load]. auto. }
  destruct Hm2 as (Hw2 & Ha2 & Hr2 & Hlow2). clearbody m2.
  cbv zeta. unfold spsolve_call, fill_n, copy_n.
  split; [|split; [exact Ha2|split; [exact Hr2|]]].
  - rewrite loaded_store_same by apply length_resize.
    unfold or_then_solve. f_equal. f_equal.
    + apply loaded_store_same, length_replicate.
    + rewrite loaded_store_disjoint by (right; rewrite length_replicate; lia).
      rewrite loaded_store_same by apply length_loaded.
      exact Hw2.
  - intros j Hj. rewrite !sp_w_store_outside by lia. apply Hlow2, Hj.
Qed.

(** [if (res[o]) copy_n(src, n, res[o])]. *)
Lemma copy_to_result m src n o :
  let m' := if is_null (res_ptr m o) then m else copy_n src n (res_ptr m o) m in
  sp_res m' o = store_result (loaded m src n) <$> sp_res m o /\
  (forall o', o' <> o -> sp_res m' o' = sp_res m o') /\
  sp_arg m' = sp_arg m /\ sp_w m' = sp_w m.
Proof.
  unfold res_ptr, copy_n. destruct (sp_res m o) as [buf|] eqn:Hbuf; cbn [is_null].
  - cbn [store]. rewrite Hbuf. cbn [sp_res sp_arg sp_w].
    split; [|split; [|split; reflexivity]].
    + unfold slot_set. rewrite decide_True by reflexivity. reflexivity.
    + intros o' Ho. unfold slot_set. rewrite decide_False by exact Ho. reflexivity.
  - rewrite Hbuf. auto.
Qed.

(** A propagation to a quadrature writes to the buffer of that quadrature
    and to the oracle's own work space. *)
Lemma oracle_fwd_call_quadrature o arg1 res1 w m oq :
  (forall out, res1 out = Null \/ res1 out = ResPtr oq) ->
  let m' := oracle_fwd_call o arg1 res1 w m in
  sp_arg m' = sp_arg m /\
  (forall o', o' <> oq -> sp_res m' o' = sp_res m o') /\
  forall j, j < w -> sp_w m' j = sp_w m j.
Proof.
  intros Hres. unfold oracle_fwd_call.
  set (outs := sp_forward o _). clearbody outs.
  set (m0 := store m (WPtr w) _).
  assert (H0 : sp_arg m0 = sp_arg m /\
               (forall o', o' <> oq -> sp_res m0 o' = sp_res m o') /\
               forall j, j < w -> sp_w m0 j = sp_w m j).
  { split; [reflexivity|]. split; [reflexivity|].
    intros j Hj. apply sp_w_store_outside. lia. }
  clearbody m0. revert m0 H0. cbv zeta.
  induction all_DEOutput as [|out outs' IH]; intros m0 H0; [exact H0|].
  cbn [foldl]. apply IH. destruct H0 as (Ha & Hr & Hw0).
  destruct (Hres out) as [-> | ->]; [auto|].
  cbn [store]. destruct (sp_res m0 oq); [|auto].
  cbn [sp_arg sp_res sp_w]. split; [exact Ha|]. split; [|exact Hw0].
  intros o' Ho. unfold slot_set. rewrite decide_False by exact Ho. apply Hr, Ho.
Qed.

Lemma loaded_sp_w m m' a n :
  sp_w m' = sp_w m -> loaded m' (WPtr a) n = loaded m (WPtr a) n.
Proof. intros H. apply loaded_ext. intros j _. rewrite H. reflexivity. Qed.

Lemma loaded_below m m' w a n :
  (forall j, j < w -> sp_w m' j = sp_w m j) -> a + n <= w ->
  loaded m' (WPtr a) n = loaded m (WPtr a) n.
Proof. intros H Hle. apply loaded_ext. intros j Hj. apply H. lia. Qed.

(** ** Integrator::sp_fwd: the order of the merge and the solve *)

(** Names the next local variable of the method under study. *)
Ltac intro_let y :=
  lazymatch goal with
  | |- ?P (let x := ?A in @?B x) => pose (y := A); change (P (B y)); cbv beta
  end.

(** C7: for every content of the argument buffers, the bits
    [Integrator::sp_fwd] writes to XF and ZF are those of [or_then_solve]:
    one oracle propagation from the taints of X0 and P gives the tentative
    bits of the ODE and the algebraic equation, the taint of X0 is ORed
    into the differential part, and the combined vector is solved against
    the pattern of the DAE Jacobian; XF receives the differential part of
    the solution and ZF the algebraic part.  With backward states the same
    holds for RXF and RZF, with the taint of RX0 merged before the solve
    against the pattern of the backward Jacobian and the solved forward
    bits among the oracle's inputs; without them RXF and RZF are left
    alone. *)
Theorem sp_fwd_or_then_solve self m :
  sp_shapes self ->
  let o := oracle_ self in
  let fwd := or_then_solve (sp_jac_dae_ self) (nx_ self) (nz_ self)
               (tentative_bits o (sp_fwd_inputs self m) DE_ODE DE_ALG)
               (arg_bits m INTEGRATOR_X0 (nx_ self)) in
  let bwd := or_then_solve (sp_jac_rdae_ self) (nrx_ self) (nrz_ self)
               (tentative_bits o (sp_fwd_inputsB self m fwd) DE_RODE DE_RALG)
               (arg_bits m INTEGRATOR_RX0 (nrx_ self)) in
  sp_res (sp_fwd self m) INTEGRATOR_XF
    = store_result (take (Z.to_nat (nx_ self)) fwd) <$> sp_res m INTEGRATOR_XF /\
  sp_res (sp_fwd self m) INTEGRATOR_ZF
    = store_result (drop (Z.to_nat (nx_ self)) fwd) <$> sp_res m INTEGRATOR_ZF /\
  (0 < nrx_ self ->
   sp_res (sp_fwd self m) INTEGRATOR_RXF
     = store_result (take (Z.to_nat (nrx_ self)) bwd) <$> sp_res m INTEGRATOR_RXF /\
   sp_res (sp_fwd self m) INTEGRATOR_RZF
     = store_result (drop (Z.to_nat (nrx_ self)) bwd) <$> sp_res m INTEGRATOR_RZF) /\
  (nrx_ self = 0 ->
   sp_res (sp_fwd self m) INTEGRATOR_RXF = sp_res m INTEGRATOR_RXF /\
   sp_res (sp_fwd self m) INTEGRATOR_RZF = sp_res m INTEGRATOR_RZF).
Proof.
  intros [Hnx Hnz Hnrx Hnrz Sx Sz Sode Salg Srode Sralg] o' fwd bwd.
  set (Post := fun R : SpMemory =>
    sp_res R INTEGRATOR_XF
      = store_result (take (Z.to_nat (nx_ self)) fwd) <$> sp_res m INTEGRATOR_XF /\
    sp_res R INTEGRATOR_ZF
      = store_result (drop (Z.to_nat (nx_ self)) fwd) <$> sp_res m INTEGRATOR_ZF /\
    (0 < nrx_ self ->
     sp_res R INTEGRATOR_RXF
       = store_result (take (Z.to_nat (nrx_ self)) bwd) <$> sp_res m INTEGRATOR_RXF /\
     sp_res R INTEGRATOR_RZF
       = store_result (drop (Z.to_nat (nrx_ self)) bwd) <$> sp_res m INTEGRATOR_RZF) /\
    (nrx_ self = 0 ->
     sp_res R INTEGRATOR_RXF = sp_res m INTEGRATOR_RXF /\
     sp_res R INTEGRATOR_RZF = sp_res m INTEGRATOR_RZF)).
  change (Post (sp_fwd self m)). cbv beta delta [sp_fwd].
  intro_let o. intro_let nx. intro_let nz. intro_let nrx. intro_let nrz.
  intro_let tmp_x. intro_let tmp_z. intro_let tmp_rx. intro_let tmp_rz. intro_let w.
  intro_let arg1a. intro_let arg1b. intro_let arg1. 
  intro_let res1a. intro_let res1b. intro_let res1.
  intro_let m1. intro_let m2. intro_let m3. intro_let m4. intro_let m5.
  intro_let m6. intro_let m7.
  subst o nx nz nrx nrz tmp_x tmp_z tmp_rx tmp_rz w.
  set (w := nx_ self + nz_ self + nrx_ self + nrz_ self) in *.
  assert (Hw : 0 + (nx_ self + nz_ self) <= w /\
               nx_ self + nz_ self + (nrx_ self + nrz_ self) <= w)
    by (unfold w; lia).
  destruct Hw as [Hw Hw'].
  (* the forward pass *)
  assert (F1 : loaded m1 (WPtr 0) (nx_ self + nz_ self)
               = tentative_bits (oracle_ self) (sp_fwd_inputs self m) DE_ODE DE_ALG /\
               sp_arg m1 = sp_arg m /\ sp_res m1 = sp_res m).
  { destruct (oracle_fwd_call_forward (oracle_ self) arg1 res1 w m 0 (nx_ self) (nz_ self)
                eq_refl eq_refl eq_refl eq_refl eq_refl eq_refl Sode Salg Hnx Hnz Hw)
      as (H & Ha & Hr & _).
    split; [|split; assumption].
    etransitivity; [exact H|]. f_equal.
    apply functional_extensionality. intros []; try reflexivity; apply load_arg_ptr. }
  destruct F1 as (H1 & Ha1 & Hr1).
  assert (F5 : loaded m5 (WPtr 0) (nx_ self + nz_ self) = fwd /\
               sp_arg m5 = sp_arg m /\ sp_res m5 = sp_res m).
  { destruct (solve_pass (sp_jac_dae_ self) 0 (nx_ self) (nz_ self) w INTEGRATOR_X0 m1
                Hnx Hnz Hw) as (H & Ha & Hr & _).
    split; [|split; [transitivity (sp_arg m1)|transitivity (sp_res m1)]; assumption].
    etransitivity; [exact H|]. unfold fwd, arg_bits. rewrite H1, Ha1. reflexivity. }
  destruct F5 as (H5 & Ha5 & Hr5).
  destruct (copy_to_result m5 (WPtr 0) (nx_ self) INTEGRATOR_XF)
    as (Hxf & Hxf' & Ha6 & Hw6).
  fold m6 in Hxf, Hxf', Ha6, Hw6.
  destruct (copy_to_result m6 (WPtr (nx_ self)) (nz_ self) INTEGRATOR_ZF)
    as (Hzf & Hzf' & Ha7 & Hw7).
  fold m7 in Hzf, Hzf', Ha7, Hw7.
  assert (F7 : sp_res m7 INTEGRATOR_XF
               = store_result (take (Z.to_nat (nx_ self)) fwd) <$> sp_res m INTEGRATOR_XF /\
               sp_res m7 INTEGRATOR_ZF
               = store_result (drop (Z.to_nat (nx_ self)) fwd) <$> sp_res m INTEGRATOR_ZF /\
               (forall o, o <> INTEGRATOR_XF -> o <> INTEGRATOR_ZF ->
                          o <> INTEGRATOR_QF -> sp_res m7 o = sp_res m o) /\
               sp_arg m7 = sp_arg m /\
               loaded m7 (WPtr 0) (nx_ self + nz_ self) = fwd).
  { split; [|split; [|split; [|split]]].
    - rewrite Hzf' by discriminate. rewrite Hxf, Hr5.
      rewrite <- H5, take_loaded by assumption. reflexivity.
    - rewrite Hzf, Hxf' by discriminate. rewrite Hr5.
      rewrite (loaded_sp_w m5 m6) by exact Hw6.
      rewrite <- H5, drop_loaded by assumption. reflexivity.
    - intros o Hx Hz _. rewrite Hzf', Hxf', Hr5 by assumption. reflexivity.
    - rewrite Ha7, Ha6. exact Ha5.
    - rewrite (loaded_sp_w m6 m7), (loaded_sp_w m5 m6) by assumption. exact H5. }
  clear H1 Ha1 Hr1 H5 Ha5 Hr5 Hxf Hxf' Ha6 Hw6 Hzf Hzf' Ha7 Hw7.
  clearbody m7. clear m1 m2 m3 m4 m5 m6.
  (* the forward quadrature *)
  lazymatch goal with
  | |- context [if ((0 <? nq_ self) && ?c)%bool then ?T else ?F] =>
      let T' := eval cbv zeta in T in
      change T with T'; set (E := if ((0 <? nq_ self) && c)%bool then T' else F)
  end.
  set (mQ := snd E).
  assert (HE : E = (fst (fst E), snd (fst E), mQ))
    by (unfold mQ; destruct E as [[? ?] ?]; reflexivity).
  rewrite HE. cbv beta iota.
  assert (FQ : sp_res mQ INTEGRATOR_XF
               = store_result (take (Z.to_nat (nx_ self)) fwd) <$> sp_res m INTEGRATOR_XF /\
               sp_res mQ INTEGRATOR_ZF
               = store_result (drop (Z.to_nat (nx_ self)) fwd) <$> sp_res m INTEGRATOR_ZF /\
               (forall o, o <> INTEGRATOR_XF -> o <> INTEGRATOR_ZF ->
                          o <> INTEGRATOR_QF -> sp_res mQ o = sp_res m o) /\
               sp_arg mQ = sp_arg m /\
               loaded mQ (WPtr 0) (nx_ self + nz_ self) = fwd).
  { unfold mQ, E.
    destruct ((0 <? nq_ self) && negb (is_null (res_ptr m7 INTEGRATOR_QF)))%bool;
      cbn [snd]; [|exact F7].
    destruct F7 as (Fx & Fz & Fo & Fa & Fw).
    lazymatch goal with
    | |- context [oracle_fwd_call ?o ?a ?r w m7] =>
        destruct (oracle_fwd_call_quadrature o a r w m7 INTEGRATOR_QF)
          as (HaQ & HrQ & HwQ);
        [ unfold res_ptr; destruct (sp_res m7 INTEGRATOR_QF); intros []; cbv; auto
        | set (m' := oracle_fwd_call o a r w m7) in * ]
    end.
    split; [|split; [|split; [|split]]].
    - rewrite HrQ by discriminate. exact Fx.
    - rewrite HrQ by discriminate. exact Fz.
    - intros o Hx Hz Hq. rewrite HrQ by exact Hq. auto.
    - rewrite HaQ. exact Fa.
    - rewrite (loaded_below m7 m' w) by assumption. exact Fw. }
  clearbody mQ. clear HE E F7 m7 arg1a arg1b arg1 res1a res1b res1.
  destruct FQ as (Fx & Fz & Fo & Fa & Fw).
  (* the backward pass *)
  destruct (0 <? nrx_ self) eqn:Hb;
    [ apply Z.ltb_lt in Hb
    | apply Z.ltb_ge in Hb; subst Post; cbv beta;
      split; [exact Fx|]; split; [exact Fz|]; split; [intros; lia|];
      intros _; split; apply Fo; discriminate ].
  intro_let a0. intro_let a1. intro_let a2. intro_let a3. intro_let a4.
  intro_let a5. intro_let arg1. intro_let r0. intro_let r1. intro_let res1.
  intro_let m8. intro_let m9. intro_let m10. intro_let m11. intro_let m12.
  intro_let m13. intro_let m14.
  lazymatch goal with
  | |- context [if ((0 <? nrq_ self) && ?c)%bool then ?T else _] =>
      let T' := eval cbv zeta in T in change T with T'
  end.
  lazymatch goal with
  | |- Post ?M => set (mEnd := M)
  end.
  assert (FE : forall o, o <> INTEGRATOR_RQF -> sp_res mEnd o = sp_res m14 o).
  { unfold mEnd.
    destruct ((0 <? nrq_ self) && negb (is_null (res_ptr m14 INTEGRATOR_RQF)))%bool;
      [|reflexivity].
    apply oracle_fwd_call_quadrature.
    unfold res_ptr. destruct (sp_res m14 INTEGRATOR_RQF); intros []; cbv; auto. }
  clearbody mEnd.
  assert (B8 : loaded m8 (WPtr (nx_ self + nz_ self)) (nrx_ self + nrz_ self)
               = tentative_bits (oracle_ self) (sp_fwd_inputsB self m fwd) DE_RODE DE_RALG /\
               sp_arg m8 = sp_arg m /\ sp_res m8 = sp_res mQ).
  { destruct (oracle_fwd_call_backward (oracle_ self) arg1 res1 w mQ
                (nx_ self + nz_ self) (nrx_ self) (nrz_ self)
                eq_refl eq_refl eq_refl eq_refl eq_refl eq_refl Srode Sralg Hnrx Hnrz Hw')
      as (H & Ha & Hr & _).
    split; [|split; [transitivity (sp_arg mQ)|]; assumption].
    etransitivity; [exact H|]. f_equal.
    apply functional_extensionality. intros i. destruct i.
    - reflexivity.
    - change (load mQ (WPtr 0) (oracle_nnz_in (oracle_ self) DE_X)
              = Some (take (Z.to_nat (nx_ self)) fwd)).
      rewrite Sx, load_WPtr, <- Fw, take_loaded by assumption. reflexivity.
    - change (load mQ (WPtr (nx_ self)) (oracle_nnz_in (oracle_ self) DE_Z)
              = Some (drop (Z.to_nat (nx_ self)) fwd)).
      rewrite Sz, load_WPtr, <- Fw, drop_loaded by assumption. reflexivity.
    - change (load mQ (arg_ptr mQ INTEGRATOR_P) (oracle_nnz_in (oracle_ self) DE_P)
              = arg_bits m INTEGRATOR_P (oracle_nnz_in (oracle_ self) DE_P)).
      rewrite load_arg_ptr. unfold arg_bits. rewrite Fa. reflexivity.
    - change (load mQ (arg_ptr mQ INTEGRATOR_RX0) (oracle_nnz_in (oracle_ self) DE_RX)
              = arg_bits m INTEGRATOR_RX0 (oracle_nnz_in (oracle_ self) DE_RX)).
      rewrite load_arg_ptr. unfold arg_bits. rewrite Fa. reflexivity.
    - reflexivity.
    - change (load mQ (arg_ptr mQ INTEGRATOR_RP) (oracle_nnz_in (oracle_ self) DE_RP)
              = arg_bits m INTEGRATOR_RP (oracle_nnz_in (oracle_ self) DE_RP)).
      rewrite load_arg_ptr. unfold arg_bits. rewrite Fa. reflexivity. }
  destruct B8 as (H8 & Ha8 & Hr8).
  assert (B12 : loaded m12 (WPtr (nx_ self + nz_ self)) (nrx_ self + nrz_ self) = bwd /\
                sp_res m12 = sp_res mQ).
  { destruct (solve_pass (sp_jac_rdae_ self) (nx_ self + nz_ self) (nrx_ self) (nrz_ self)
                w INTEGRATOR_RX0 m8 Hnrx Hnrz Hw') as (H & Ha & Hr & _).
    split; [|transitivity (sp_res m8); assumption].
    etransitivity; [exact H|]. unfold bwd, arg_bits. rewrite H8, Ha8. reflexivity. }
  destruct B12 as (H12 & Hr12).
  destruct (copy_to_result m12 (WPtr (nx_ self + nz_ self)) (nrx_ self) INTEGRATOR_RXF)
    as (Hxf & Hxf' & _ & Hw13).
  fold m13 in Hxf, Hxf', Hw13.
  destruct (copy_to_result m13 (WPtr (nx_ self + nz_ self + nrx_ self)) (nrz_ self)
              INTEGRATOR_RZF) as (Hzf & Hzf' & _ & _).
  fold m14 in Hzf, Hzf'.
  subst Post. cbv beta.
  split; [|split; [|split]].
  - rewrite FE, Hzf', Hxf', Hr12 by discriminate. exact Fx.
  - rewrite FE, Hzf', Hxf', Hr12 by discriminate. exact Fz.
  - intros _. split.
    + rewrite FE, Hzf' by discriminate. rewrite Hxf, Hr12, Fo by discriminate.
      rewrite <- H12, take_loaded by assumption. reflexivity.
    + rewrite FE by discriminate. rewrite Hzf, Hxf' by discriminate.
      rewrite Hr12, Fo by discriminate.
      rewrite (loaded_sp_w m12 m13) by exact Hw13.
      rewrite <- H12, drop_loaded by assumption. reflexivity.
  - intros Hz. lia.
Qed.

(** In the coupled problem the algebraic equation does not depend on the
    state, and ZF carries the bit of X0 all the same: it was merged before
    the solve, which spreads it over the whole vector. *)
Lemma sp_fwd_or_then_solve_witness :
  exists self,
    coupled_integrator (dense 1 1) = Ok self /\
    sp_shapes self /\
    let m := sp_buffers [1; 2; 4; 8; 16; 32] [0; 0; 0; 0; 0; 0] in
    sp_res (sp_fwd self m) INTEGRATOR_XF = Some [3] /\
    sp_res (sp_fwd self m) INTEGRATOR_ZF = Some [3] /\
    sp_res (sp_fwd self m) INTEGRATOR_RXF = Some [27] /\
    sp_res (sp_fwd self m) INTEGRATOR_RZF = Some [27].
Proof.
  destruct (coupled_integrator (dense 1 1)) as [self|e] eqn:E;
    [|vm_compute in E; discriminate E].
  exists self. split; [reflexivity|].
  assert (Hs : sp_shapes self)
    by (vm_compute in E; injection E as <-;
        constructor; vm_compute; first [reflexivity | intros H; discriminate H]).
  assert (Hpos : 0 < nrx_ self)
    by (vm_compute in E; injection E as <-; reflexivity).
  split; [exact Hs|]. intros m.
  destruct (sp_fwd_or_then_solve self m Hs) as (Hx & Hz & Hb & _).
  destruct (Hb Hpos) as (Hrx & Hrz).
  rewrite Hx, Hz, Hrx, Hrz. clear Hx Hz Hb Hrx Hrz Hs Hpos.
  vm_compute in E. injection E as <-. vm_compute. auto.
Defined.

(** * Further properties of the code *)

(** ** Integrator::init and FixedStepIntegrator::init *)

Lemma rbind_Ok {A B} (r : Result A) (f : A -> Result B) b :
  rbind r f = Ok b -> exists a, r = Ok a /\ f a = Ok b.
Proof. destruct r as [a|e]; [eauto | discriminate]. Qed.

(** X1: when [Integrator::init] returns, the grid is never empty: it is
    the [grid] option (or the grid the object had) when that is not empty,
    and [t0; tf] otherwise, with [t0] and [tf] read from the options and 0
    and 1 by default.  [ngrid_] is its length; [ntout_] is [ngrid_] with
    [output_t0] and one less without; the dimensions are the nonzero counts
    of the patterns; the options are stored as given. *)
Theorem Integrator_init_returns (self0 self : Integrator) (opts : Dict) :
  Integrator_init self0 opts = Ok self ->
  exists grid t0 tf,
    read_option opts "grid" to_double_vector (grid_ self0) = Ok grid /\
    read_option opts "t0" to_double 0%float = Ok t0 /\
    read_option opts "tf" to_double 1%float = Ok tf /\
    grid_ self = (if decide (grid = []) then [t0; tf] else grid) /\
    grid_ self <> [] /\
    ngrid_ self = Z.of_nat (length (grid_ self)) /\
    ntout_ self = (if output_t0_ self then ngrid_ self else ngrid_ self - 1) /\
    (nx_ self, nz_ self, nq_ self, np_ self)
      = (nnz (x_ self0), nnz (z_ self0), nnz (q_ self0), nnz (p_ self0)) /\
    (nrx_ self, nrz_ self, nrq_ self, nrp_ self)
      = (nnz (rx_ self0), nnz (rz_ self0), nnz (rq_ self0), nnz (rp_ self0)) /\
    opts_ self = opts /\ oracle_ self = oracle_ self0.
Proof.
  unfold Integrator_init. intros H.
  apply rbind_Ok in H as (expand & _ & H).
  apply rbind_Ok in H as (output_t0 & _ & H).
  apply rbind_Ok in H as (print_stats & _ & H).
  apply rbind_Ok in H as (grid & Hgrid & H).
  apply rbind_Ok in H as (aug & _ & H).
  apply rbind_Ok in H as (t0 & Ht0 & H).
  apply rbind_Ok in H as (tf & Htf & H).
  injection H as <-. exists grid, t0, tf. cbn.
  split; [exact Hgrid|]. split; [exact Ht0|]. split; [exact Htf|].
  destruct grid as [|g grid]; cbn; repeat split; congruence.
Qed.

(** X2: once the base class has initialised and the option
    [number_of_finite_elements] is an integer [nk] (20 when absent from a
    newly constructed object), [FixedStepIntegrator::init] returns exactly
    when [nk] is positive, and fails the assertion [nk_>0] otherwise.  On
    return [h_] is the length of the horizon divided by [nk], and the
    discrete dimensions are those of the maps [setupFG] supplies, [nRZ_]
    being zero when there is no backward map. *)
Theorem FixedStepIntegrator_init_returns
    (self0 : FixedStepIntegrator) (opts : Dict) setupFG (b : Integrator) (nk : Z) :
  Integrator_init (base self0) opts = Ok b ->
  read_option opts "number_of_finite_elements" to_int (nk_ self0) = Ok nk ->
  (nk <= 0 ->
     FixedStepIntegrator_init self0 opts setupFG = Throw (CasadiAssert "nk_>0")) /\
  (0 < nk ->
     exists self,
       FixedStepIntegrator_init self0 opts setupFG = Ok self /\
       base self = b /\ nk_ self = nk /\
       h_ self = ((grid_back b - grid_front b) / int_to_double nk)%float /\
       F_ self = fst (setupFG b) /\ G_ self = snd (setupFG b) /\
       nZ_ self = nnz_in (F_ self) DAE_Z /\
       (G_ self = None -> nRZ_ self = 0) /\
       (forall g, G_ self = Some g -> nRZ_ self = nnz_in g RDAE_RZ)).
Proof.
  intros Hb Hnk. unfold FixedStepIntegrator_init. rewrite Hb, Hnk. cbn [rbind].
  split; intros Hsign.
  - destruct (Z.ltb_spec 0 nk); [lia | reflexivity].
  - destruct (Z.ltb_spec 0 nk); [|lia]. cbn [negb].
    destruct (setupFG b) as [F G]. eexists. split; [reflexivity|]. cbn.
    repeat split; try reflexivity.
    + intros ->. reflexivity.
    + intros g ->. reflexivity.
Qed.

Lemma FixedStepIntegrator_init_returns_witness :
  exists self,
    FixedStepIntegrator_init
      (FixedStepIntegrator_new (decay_integrator true) (euler_F 0%float))
      (decay_options 4 [0; 2]%float false) (euler_setupFG true 4) = Ok self /\
    nk_ self = 4 /\ h_ self = 0.5%float.
Proof.
  destruct (Integrator_init (decay_integrator true) (decay_options 4 [0; 2]%float false))
    as [b|e] eqn:Hb; [|vm_compute in Hb; discriminate Hb].
  destruct (FixedStepIntegrator_init_returns
              (FixedStepIntegrator_new (decay_integrator true) (euler_F 0%float))
              (decay_options 4 [0; 2]%float false) (euler_setupFG true 4) b 4 Hb eq_refl)
    as [_ Hpos].
  destruct Hpos as (self & Hrun & _ & Hnk & Hh & _); [lia|].
  exists self. split; [exact Hrun|]. split; [exact Hnk|].
  rewrite Hh. vm_compute in Hb. injection Hb as <-. vm_compute. reflexivity.
Defined.

Lemma Integrator_init_returns_witness :
  exists self,
    Integrator_init (decay_integrator false) ∅ = Ok self /\
    grid_ self = [0; 1]%float /\ ntout_ self = 1.
Proof.
  destruct (Integrator_init (decay_integrator false) ∅) as [self|e] eqn:E;
    [|vm_compute in E; discriminate E].
  exists self. split; [reflexivity|].
  destruct (Integrator_init_returns _ _ _ E)
    as (grid & t0 & tf & Hg & Ht0 & Htf & Hgrid & _ & Hn & Hnt & _).
  vm_compute in Hg, Ht0, Htf. injection Hg as <-. injection Ht0 as <-.
  injection Htf as <-. cbn in Hgrid.
  split; [exact Hgrid|]. rewrite Hnt, Hn, Hgrid.
  vm_compute in E. injection E as <-. reflexivity.
Defined.
(** ** Integrator::eval: output times and result buffers *)

Lemma advances_app l1 l2 : advances (l1 ++ l2) = advances l1 ++ advances l2.
Proof. apply omap_app. Qed.

Lemma advances_CallAdvance ts : advances (CallAdvance <$> ts) = ts.
Proof. induction ts as [|t ts IH]; [reflexivity|]. cbn. f_equal. exact IH. Qed.

(** X3: for an integrator that [init] has set up, the forward loop of
    [eval] on the recording scheme returns after exactly [ntout_] calls of
    [advance], and the patterns [get_sparsity_out] gives the outputs XF, QF
    and ZF are [ntout_] copies of those of [x], [q] and [z] side by side:
    one block of columns for each call.  The inputs RX0, RP and RZ0 are
    repeated likewise, the other inputs and outputs are single blocks. *)
Theorem eval_one_block_per_advance
    (self0 self : Integrator) (opts : Dict) (s : EvalState (list Call)) :
  Integrator_init self0 opts = Ok self ->
  exists s',
    eval_forward self Recorder 0 (grid_ self) 0 0 0 s = (Ok tt, s') /\
    Z.of_nat (length (advances (es_mem s')))
      = Z.of_nat (length (advances (es_mem s))) + ntout_ self /\
    (forall o sp, (o, sp) ∈ [(INTEGRATOR_XF, x_ self); (INTEGRATOR_QF, q_ self);
                             (INTEGRATOR_ZF, z_ self)] ->
       size2 (get_sparsity_out self o) = size2 sp * ntout_ self /\
       nnz (get_sparsity_out self o) = nnz sp * ntout_ self) /\
    (forall i sp, (i, sp) ∈ [(INTEGRATOR_RX0, rx_ self); (INTEGRATOR_RP, rp_ self);
                             (INTEGRATOR_RZ0, rz_ self)] ->
       size2 (get_sparsity_in self i) = size2 sp * ntout_ self /\
       nnz (get_sparsity_in self i) = nnz sp * ntout_ self).
Proof.
  intros Hinit.
  destruct (eval_forward_recorder_all self s) as (s' & Hrun & Hlog).
  exists s'. split; [exact Hrun|]. split.
  - rewrite Hlog, advances_app, advances_CallAdvance, length_app.
    unfold Integrator_init in Hinit.
    apply rbind_Ok in Hinit as (expand & _ & H).
    apply rbind_Ok in H as (output_t0 & _ & H).
    apply rbind_Ok in H as (print_stats & _ & H).
    apply rbind_Ok in H as (grid & _ & H).
    apply rbind_Ok in H as (aug & _ & H).
    apply rbind_Ok in H as (t0 & _ & H).
    apply rbind_Ok in H as (tf & _ & H).
    injection H as <-. cbn [grid_ output_t0_ ntout_].
    set (g := match grid with [] => [t0; tf] | _ => grid end).
    assert (Hg : g <> []) by (unfold g; destruct grid; discriminate).
    destruct output_t0; [lia|].
    rewrite length_drop. destruct g; [congruence|]. cbn [length]. lia.
  - split; intros x sp Hin; repeat (apply elem_of_cons in Hin as [[= -> ->]|Hin]);
      try (split; reflexivity); apply elem_of_nil in Hin; contradiction.
Qed.

Lemma eval_one_block_per_advance_witness :
  exists self s',
    Integrator_init (decay_integrator true)
      (decay_options 2 [0; 0.5; 1]%float true) = Ok self /\
    eval_forward self Recorder 0 (grid_ self) 0 0 0
      (Build_EvalState [] (fun _ => None)) = (Ok tt, s') /\
    advances (es_mem s') = [0; 0.5; 1]%float /\
    size2 (get_sparsity_out self INTEGRATOR_XF) = 3.
Proof.
  destruct (Integrator_init (decay_integrator true)
              (decay_options 2 [0; 0.5; 1]%float true)) as [self|e] eqn:E;
    [|vm_compute in E; discriminate E].
  destruct (eval_one_block_per_advance _ self _ (Build_EvalState [] (fun _ => None)) E)
    as (s' & Hrun & _ & Hout & _).
  exists self, s'. split; [reflexivity|]. split; [exact Hrun|].
  vm_compute in E. injection E as <-. split.
  - vm_compute in Hrun. injection Hrun as <-. reflexivity.
  - reflexivity.
Defined.

Lemma on_mem_res {Mem A} (c : Stateful Mem A) (s : EvalState Mem) :
  es_res (snd (on_mem c s)) = es_res s.
Proof. unfold on_mem. destruct (c (es_mem s)). reflexivity. Qed.

Lemma preserves_on_mem {Mem A B} (f : (IntegratorOutput -> cptr double) -> B)
    (c : Stateful Mem A) :
  preserves (fun s => f (es_res s)) (on_mem c).
Proof. intros s. rewrite on_mem_res. reflexivity. Qed.

(** The forward loop writes to the buffers of XF, ZF and QF only, whether
    it returns or throws. *)
Lemma eval_forward_backward_outputs {Mem} self (impl : IntegratorMethods Mem) o ts :
  backward_output o = true ->
  forall k x z q,
    preserves (fun s => es_res s o) (eval_forward self impl k ts x z q).
Proof.
  intros Ho. induction ts as [|tk ts IH]; intros k x z q; cbn [eval_forward].
  - apply preserves_ret.
  - apply preserves_if; [apply IH|].
    apply preserves_bind; [apply (preserves_on_mem (fun r => r o))|]. intros out.
    apply preserves_bind; [|intros _; apply IH].
    apply preserves_modify. intros s.
    rewrite !copy_out_res_other by (destruct o; discriminate). reflexivity.
Qed.

(** X4: without backward states ([nrx_] not positive) [eval] leaves the
    result buffers RXF, RQF and RZF exactly as they were, whatever the
    stepping scheme does and whether the evaluation returns or throws. *)
Theorem eval_without_backward_states {Mem}
    (self : Integrator) (impl : IntegratorMethods Mem)
    (arg : IntegratorInput -> cptr double) (s : EvalState Mem) (o : IntegratorOutput) :
  nrx_ self <= 0 -> backward_output o = true ->
  es_res (snd (eval self impl arg s)) o = es_res s o.
Proof.
  intros Hnrx Ho. revert s. change (preserves (fun s => es_res s o) (eval self impl arg)).
  unfold eval. cbv zeta.
  apply preserves_bind; [apply (preserves_on_mem (fun r => r o))|]. intros _.
  apply preserves_bind; [apply eval_forward_backward_outputs, Ho|]. intros _.
  destruct (Z.ltb_spec 0 (nrx_ self)); [lia|].
  apply preserves_bind; [apply preserves_ret|]. intros _.
  apply preserves_if; [apply (preserves_on_mem (fun r => r o)) | apply preserves_ret].
Qed.

Lemma eval_without_backward_states_witness :
  let self := decay_self false 2 [0; 1]%float false in
  let s := Build_EvalState (init_memory self FixedStepMemory_new)
             (fun o => Some [7%float]) in
  nrx_ (base self) <= 0 /\
  es_res (snd (FixedStepIntegrator_eval self (fun _ => Some [1%float]) s)) INTEGRATOR_RXF
    = Some [7%float].
Proof.
  intros self s.
  assert (Hnrx : nrx_ (base self) <= 0) by (vm_compute; discriminate).
  split; [exact Hnrx|].
  exact (eval_without_backward_states (base self) (FixedStepMethods self)
           (fun _ => Some [1%float]) s INTEGRATOR_RXF Hnrx eq_refl).
Defined.
(** ** FixedStepIntegrator: the buffers keep their sizes *)

Lemma keeps_bind {S A B} (P : S -> Prop) (c : Stateful S A) (k : A -> Stateful S B) :
  keeps P c -> (forall a, keeps P (k a)) -> keeps P (bind c k).
Proof.
  intros Hc Hk s Hs. unfold bind. specialize (Hc s Hs).
  destruct (c s) as [[a|e] s']; simpl in *; [apply Hk, Hc | exact Hc].
Qed.

Lemma keeps_pure {S A} (P : S -> Prop) (r : Result A) : keeps P (lift r).
Proof. intros s Hs. exact Hs. Qed.

Lemma keeps_iterate {S} (P : S -> Prop) (step : Stateful S unit) n :
  keeps P step -> keeps P (iterate_step n step).
Proof.
  intros Hstep. induction n as [|n IH]; [intros s Hs; exact Hs|].
  simpl. apply keeps_bind; [exact Hstep | intros _; exact IH].
Qed.

Lemma update_previous_take_step_sized self m :
  memory_sized self m -> memory_sized self (take_step self (update_previous self m)).
Proof.
  intros []. unfold tapes_allocated in *. destruct m; mem_simpl.
  constructor; unfold tapes_allocated; mem_simpl;
    rewrite ?casadi_axpy_length, ?store_result_length; try assumption.
  all: rewrite casadi_copy_get_ptr_length by assumption; assumption.
Qed.

Lemma update_previous_call_F_sized self m :
  memory_sized self m ->
  memory_sized self (call_F (getExplicit self) (update_previous self m)).
Proof.
  intros []. unfold tapes_allocated in *. destruct m; mem_simpl.
  constructor; unfold tapes_allocated; mem_simpl;
    rewrite ?store_result_length; try assumption.
  all: rewrite casadi_copy_get_ptr_length by assumption; assumption.
Qed.

Lemma tape_write_sized tape i (src : list double) n n' tape' :
  Forall (fun e => length e = Z.to_nat n) tape -> length src = Z.to_nat n ->
  Z.to_nat n' = Z.to_nat n ->
  tape_write tape i (get_ptr src) n' = Ok tape' ->
  Forall (fun e => length e = Z.to_nat n) tape'.
Proof.
  intros Hall Hsrc Hn (entry & _ & Hentry & ->)%tape_write_Ok.
  assert (He : length entry = Z.to_nat n)
    by (eapply (Forall_lookup_1 _ _ _ _ Hall), Hentry).
  apply Forall_insert; [exact Hall|].
  rewrite casadi_copy_get_ptr_length by congruence. exact He.
Qed.

Lemma advance_step_sized self : keeps (memory_sized self) (advance_step self).
Proof.
  intros m Hsized. rewrite advance_step_run. cbv zeta.
  destruct (call_throws _ _); [exact (update_previous_call_F_sized self m Hsized)|].
  pose proof (update_previous_take_step_sized self m Hsized) as H1.
  set (m1 := take_step self (update_previous self m)) in *. clearbody m1.
  destruct (0 <? nrx_ (base self)).
  - destruct (tape_write (m_x_tape m1) _ _ _) as [xt|e] eqn:Hx; [|exact H1].
    assert (H2 : memory_sized self (set_m_x_tape xt m1)).
    { pose proof (tape_write_length _ _ _ _ _ Hx) as Hlen.
      pose proof (tape_write_sized _ _ _ _ _ _ (sized_x_tape _ _ H1) (sized_x _ _ H1)
                    eq_refl Hx).
      destruct H1. unfold tapes_allocated in *. destruct m1; mem_simpl.
      constructor; unfold tapes_allocated; mem_simpl; try assumption.
      intros Hnrx. rewrite Hlen. auto. }
    destruct (tape_write (m_Z_tape m1) _ _ _) as [Zt|e] eqn:HZ; [|exact H2].
    cbn [snd].
    pose proof (tape_write_length _ _ _ _ _ HZ) as Hlen.
    pose proof (tape_write_sized _ _ _ _ _ _ (sized_Z_tape _ _ H1) (sized_Z _ _ H1)
                  (eq_trans (Nat2Z.id _) (sized_Z _ _ H1)) HZ).
    destruct H2. unfold tapes_allocated in *. destruct m1; mem_simpl.
    constructor; unfold tapes_allocated; mem_simpl; try assumption.
    intros Hnrx. rewrite Hlen. auto.
  - destruct H1. unfold tapes_allocated in *. destruct m1; mem_simpl.
    constructor; unfold tapes_allocated; mem_simpl; assumption.
Qed.

Lemma casadi_fill_length (y : list double) (n : Z) (alpha : double) :
  (Z.to_nat n <= length y)%nat -> length (casadi_fill y n alpha) = length y.
Proof.
  intros Hn. unfold casadi_fill. destruct (get_ptr y); [|reflexivity].
  rewrite length_app, length_replicate, length_drop. lia.
Qed.

Lemma casadi_copy_sized (x : cptr double) (n : Z) (y : list double) :
  holds_at_least x n -> length y = Z.to_nat n ->
  length (casadi_copy x n y) = Z.to_nat n.
Proof.
  intros Hx Hy. rewrite casadi_copy_length; [exact Hy | exact Hx | lia].
Qed.

Lemma casadi_fill_sized (y : list double) (n : Z) (alpha : double) k :
  length y = Z.to_nat n -> length y = k -> length (casadi_fill y n alpha) = k.
Proof. intros Hy <-. apply casadi_fill_length. lia. Qed.

Lemma retreat_step_sized self G : keeps (memory_sized self) (retreat_step self G).
Proof.
  intros m Hsized. rewrite retreat_step_run. cbv zeta.
  assert (H1 : memory_sized self (update_previousB self (retreat_time self m))).
  { destruct Hsized. unfold tapes_allocated in *. destruct m; mem_simpl.
    constructor; unfold tapes_allocated; mem_simpl; try assumption.
    all: rewrite casadi_copy_get_ptr_length by assumption; assumption. }
  set (m1 := update_previousB self (retreat_time self m)) in *. clearbody m1.
  destruct (tape_read (m_x_tape m1) _) as [x|e]; [|exact H1].
  destruct (tape_read (m_Z_tape m1) _) as [Zt|e]; [|exact H1].
  destruct (call_throws _ _); cbn [snd].
  all: destruct H1; unfold tapes_allocated in *; destruct m1; mem_simpl.
  all: constructor; unfold tapes_allocated; mem_simpl;
    rewrite ?casadi_axpy_length, ?store_result_length; assumption.
Qed.

Lemma advance_loop_sized self k_out fuel :
  keeps (memory_sized self) (advance_loop self k_out fuel).
Proof.
  induction fuel as [|fuel IH]; intros m Hm; cbn [advance_loop].
  - destruct (m_k m <? k_out); exact Hm.
  - destruct (m_k m <? k_out); [|exact Hm].
    apply (keeps_bind _ _ _ (advance_step_sized self) (fun _ => IH)), Hm.
Qed.

Lemma retreat_loop_sized self G k_out fuel :
  keeps (memory_sized self) (retreat_loop self G k_out fuel).
Proof.
  induction fuel as [|fuel IH]; intros m Hm; cbn [retreat_loop].
  - destruct (k_out <? m_k m); exact Hm.
  - destruct (k_out <? m_k m); [|exact Hm].
    apply (keeps_bind _ _ _ (retreat_step_sized self G) (fun _ => IH)), Hm.
Qed.

Lemma tape_write_sized_ptr tape i (x : cptr double) n tape' :
  Forall (fun e => length e = Z.to_nat n) tape -> holds_at_least x n ->
  tape_write tape i x n = Ok tape' ->
  Forall (fun e => length e = Z.to_nat n) tape'.
Proof.
  intros Hall Hx (entry & _ & Hentry & ->)%tape_write_Ok.
  assert (He : length entry = Z.to_nat n)
    by (eapply (Forall_lookup_1 _ _ _ _ Hall), Hentry).
  apply Forall_insert; [exact Hall|].
  rewrite casadi_copy_length by (first [exact Hx | lia]). exact He.
Qed.

Lemma reset_sized self t x z p :
  holds_at_least x (nx_ (base self)) -> holds_at_least z (nz_ (base self)) ->
  holds_at_least p (np_ (base self)) ->
  keeps (memory_sized self) (FixedStepIntegrator_reset self t x z p).
Proof.
  intros Hx Hz Hp m Hm. rewrite reset_run. cbv zeta.
  set (m1 := set_m_Z _ _).
  assert (H1 : memory_sized self m1).
  { unfold m1. destruct Hm. unfold tapes_allocated in *. destruct m; mem_simpl.
    constructor; unfold tapes_allocated; mem_simpl; try assumption.
    all: first [ apply casadi_copy_sized; assumption
               | apply casadi_fill_sized; assumption
               | apply casadi_fill_sized; [apply eq_sym, Nat2Z.id | assumption] ]. }
  destruct (0 <? nrx_ (base self)); [|exact H1].
  destruct (tape_write (m_x_tape m) 0 x (nx_ (base self))) as [xt|e] eqn:Hw;
    [|exact H1].
  cbn [snd].
  assert (Hxt : m_x_tape m1 = m_x_tape m /\ m_Z_tape m1 = m_Z_tape m)
    by (unfold m1; destruct m; split; reflexivity).
  clearbody m1. destruct Hxt as [Hxt HZt].
  pose proof (tape_write_length _ _ _ _ _ Hw) as Hlen.
  pose proof (tape_write_sized_ptr _ _ _ _ _ (sized_x_tape _ _ Hm) Hx Hw) as Hall.
  destruct H1. unfold tapes_allocated in *. destruct m1; mem_simpl.
  constructor; unfold tapes_allocated; mem_simpl; try assumption.
  intros Hnrx. rewrite Hlen, <- Hxt. auto.
Qed.

(** X5: the stepping methods never change the size of a buffer of the
    memory: [advance] and [retreat] keep every member at the size
    [init_memory] gave it, tape entries included, whether they return or
    throw; so do [reset] and [resetB] when each array of the caller holds
    at least as many entries as the problem's dimension (or is null). *)
Theorem stepping_keeps_sizes (self : FixedStepIntegrator) (t : double) :
  keeps (memory_sized self) (FixedStepIntegrator_advance self t) /\
  keeps (memory_sized self) (FixedStepIntegrator_retreat self t) /\
  (forall x z p,
     holds_at_least x (nx_ (base self)) -> holds_at_least z (nz_ (base self)) ->
     holds_at_least p (np_ (base self)) ->
     keeps (memory_sized self) (FixedStepIntegrator_reset self t x z p)) /\
  (forall rx rz rp,
     holds_at_least rx (nrx_ (base self)) -> holds_at_least rz (nrz_ (base self)) ->
     holds_at_least rp (nrp_ (base self)) ->
     keeps (memory_sized self) (FixedStepIntegrator_resetB self t rx rz rp)).
Proof.
  split; [|split; [|split]].
  - unfold FixedStepIntegrator_advance. cbv zeta.
    apply keeps_bind; [apply keeps_pure|]. intros k_out.
    apply keeps_bind; [intros m Hm; exact Hm|]. intros m0.
    apply keeps_bind; [apply advance_loop_sized|]. intros _.
    apply keeps_bind; intros; intros m Hm; exact Hm.
  - unfold FixedStepIntegrator_retreat. cbv zeta.
    apply keeps_bind; [apply keeps_pure|]. intros k_out.
    apply keeps_bind; [apply keeps_pure|]. intros G.
    apply keeps_bind; [intros m Hm; exact Hm|]. intros m0.
    apply keeps_bind; [apply retreat_loop_sized|]. intros _.
    apply keeps_bind; intros; intros m Hm; exact Hm.
  - intros x z p. apply reset_sized.
  - intros rx rz rp Hrx Hrz Hrp m Hm. rewrite resetB_run. cbv zeta. cbn [snd].
    destruct Hm. unfold tapes_allocated in *. destruct m; mem_simpl.
    constructor; unfold tapes_allocated; mem_simpl; try assumption.
    all: first [ apply casadi_copy_sized; assumption
               | apply casadi_fill_sized; assumption
               | apply casadi_fill_sized; [apply eq_sym, Nat2Z.id | assumption] ].
Qed.

(** ** FixedStepIntegrator::reset and resetB: edge behaviour *)

(** X6: [resetB] never throws.  On a memory whose backward members have
    their sizes, with inputs of the problem's dimensions: the time is [t],
    [rx0], [rz0] and [rp] are in the memory, every backward quadrature
    entry is zero, the step counter is [nk_] (the end of the horizon),
    every entry of [RZ] is NaN, and nothing else is changed: the forward
    members, the previous-step copies and both tapes are as before. *)
Theorem resetB_establishes
    (self : FixedStepIntegrator) (m : FixedStepMemory) (t : double)
    (rx0 rz0 rp : list double) :
  memory_sized self m ->
  length rx0 = Z.to_nat (nrx_ (base self)) ->
  length rz0 = Z.to_nat (nrz_ (base self)) ->
  length rp = Z.to_nat (nrp_ (base self)) ->
  exists m',
    FixedStepIntegrator_resetB self t (Some rx0) (Some rz0) (Some rp) m = (Ok tt, m') /\
    (m_t m' = t /\ m_rx m' = rx0 /\ m_rz m' = rz0 /\ m_rp m' = rp /\
     m_rq m' = replicate (Z.to_nat (nrq_ (base self))) 0%float /\
     m_k m' = nk_ self /\
     m_RZ m' = replicate (length (m_RZ m)) quiet_NaN) /\
    (m_x m' = m_x m /\ m_z m' = m_z m /\ m_p m' = m_p m /\ m_q m' = m_q m /\
     m_Z m' = m_Z m /\
     m_x_prev m' = m_x_prev m /\ m_Z_prev m' = m_Z_prev m /\ m_q_prev m' = m_q_prev m /\
     m_rx_prev m' = m_rx_prev m /\ m_RZ_prev m' = m_RZ_prev m /\
     m_rq_prev m' = m_rq_prev m /\ tapes m' = tapes m).
Proof.
  intros Hsized Hrx Hrz Hrp. rewrite resetB_run. cbv zeta.
  eexists. split; [reflexivity|].
  rewrite (casadi_copy_full rx0) by (first [assumption | apply Hsized]).
  rewrite (casadi_copy_full rz0) by (first [assumption | apply Hsized]).
  rewrite (casadi_copy_full rp) by (first [assumption | apply Hsized]).
  rewrite (casadi_fill_full (m_rq m)) by apply Hsized.
  rewrite (casadi_fill_full (m_RZ m) (Z.of_nat (length (m_RZ m))))
    by (symmetry; apply Nat2Z.id).
  rewrite Nat2Z.id. destruct m; mem_simpl. repeat split; reflexivity.
Qed.

Lemma resetB_establishes_witness :
  let self := decay_self true 2 [0; 1]%float false in
  let m := init_memory self FixedStepMemory_new in
  exists m',
    FixedStepIntegrator_resetB self 1%float (Some [3%float]) (Some []) (Some []) m
      = (Ok tt, m') /\
    m_rx m' = [3%float] /\ m_k m' = 2.
Proof.
  intros self m.
  assert (Hsized : memory_sized self m)
    by (apply init_memory_sized; reflexivity).
  destruct (resetB_establishes self m 1%float [3%float] [] [] Hsized
              eq_refl eq_refl eq_refl)
    as (m' & Hrun & (_ & Hrx & _ & _ & _ & Hk & _) & _).
  exists m'. split; [exact Hrun|]. split; [exact Hrx|]. rewrite Hk. reflexivity.
Defined.

(** X7: [reset] returns exactly when there are no backward states or the
    state tape has an entry 0; otherwise [x_tape.at(0)] throws, after the
    time, the inputs, the quadratures, the step counter and [Z] have been
    set.  The only place [reset] can throw is the tape. *)
Theorem reset_throws_without_tape
    (self : FixedStepIntegrator) (t : double) (x z p : cptr double)
    (m : FixedStepMemory) :
  let r := FixedStepIntegrator_reset self t x z p m in
  (fst r = Ok tt <-> nrx_ (base self) <= 0 \/ m_x_tape m <> []) /\
  (fst r <> Ok tt -> fst r = Throw OutOfRange) /\
  m_t (snd r) = t /\ m_k (snd r) = 0 /\
  m_x (snd r) = casadi_copy x (nx_ (base self)) (m_x m).
Proof.
  cbv zeta. rewrite reset_run. cbv zeta.
  destruct (Z.ltb_spec 0 (nrx_ (base self))) as [Hnrx|Hnrx].
  - unfold tape_write, vec_at. cbn [Z.ltb Z.compare Z.to_nat].
    destruct (m_x_tape m) as [|entry tape] eqn:Htape;
      change (Z.to_nat 0) with 0%nat; cbn [lookup list_lookup fst snd].
    + split; [split; [discriminate | intros [?|?]; [lia | congruence]]|].
      split; [reflexivity|]. destruct m; repeat split; reflexivity.
    + split; [split; [intros _; right; discriminate | reflexivity]|].
      split; [congruence|]. destruct m; repeat split; reflexivity.
  - cbn [fst snd]. split; [split; [intros _; left; exact Hnrx | reflexivity]|].
    split; [congruence|]. destruct m; repeat split; reflexivity.
Qed.

(** ** FixedStepIntegrator::advance and retreat: where they end *)

Lemma advance_time_on_grid self m : on_grid self (advance_time self m).
Proof. destruct m; reflexivity. Qed.

Lemma advance_step_on_grid self m m' :
  advance_step self m = (Ok tt, m') -> on_grid self m'.
Proof.
  rewrite advance_step_run. cbv zeta.
  destruct (call_throws _ _); [discriminate|].
  destruct (0 <? nrx_ (base self)).
  - destruct (tape_write (m_x_tape _) _ _ _); [|discriminate].
    destruct (tape_write (m_Z_tape _) _ _ _); [|discriminate].
    intros [= <-]. apply advance_time_on_grid.
  - intros [= <-]. apply advance_time_on_grid.
Qed.

Lemma iterate_advance_on_grid self n m m' :
  iterate_step n (advance_step self) m = (Ok tt, m') ->
  on_grid self m \/ (0 < n)%nat -> on_grid self m'.
Proof.
  revert m. induction n as [|n IH]; intros m; simpl.
  - intros [= <-] [H|H]; [exact H | lia].
  - unfold bind. destruct (advance_step self m) as [[[]|e] m1] eqn:Hstep; [|discriminate].
    intros Hit _. apply (IH m1 Hit). left. eapply advance_step_on_grid, Hstep.
Qed.

(** X8: [advance] to a time at or before the discrete time the memory is
    at calls no discrete map, takes no step and changes nothing, not even
    the time: it returns the current state.  So after an [advance] that
    returned, the memory is at the discrete time sought or later, and a
    second [advance] to the same time is idle: it gives the same outputs
    and leaves the memory as the first one left it.  The first [advance]
    returns when the discrete map returns and the memory is ready for
    stepping. *)
Theorem advance_again_is_idle
    (self : FixedStepIntegrator) (t : double) (k_out : Z) (m : FixedStepMemory) :
  advance_k_out self t = Ok k_out ->
  (k_out <= m_k m ->
     FixedStepIntegrator_advance self t m = advance_outputs self m /\
     snd (FixedStepIntegrator_advance self t m) = m) /\
  (forall out m',
     FixedStepIntegrator_advance self t m = (Ok out, m') ->
     k_out <= m_k m' /\
     FixedStepIntegrator_advance self t m' = (Ok out, m')) /\
  (returns_always (getExplicit self) -> stepping_ready self m ->
     is_Ok (fst (FixedStepIntegrator_advance self t m))).
Proof.
  intros Hk. split; [|split].
  - intros Hle. rewrite (advance_run _ _ _ _ Hk).
    replace (Z.to_nat (k_out - m_k m)) with 0%nat by lia.
    split; reflexivity.
  - intros out m' Hrun. rewrite (advance_run _ _ _ _ Hk) in Hrun.
    unfold bind in Hrun.
    destruct (iterate_step _ (advance_step self) m) as [[[]|e] m1] eqn:Hit;
      [|discriminate].
    cbv [advance_outputs bind get ret] in Hrun. injection Hrun as Hout Hm.
    subst m'. apply iterate_step_k_up in Hit.
    split; [lia|]. rewrite (advance_run _ _ _ _ Hk).
    replace (Z.to_nat (k_out - m_k m1)) with 0%nat by lia.
    rewrite <- Hout. reflexivity.
  - intros HF Hready.
    destruct (advance_ok self t k_out m HF Hready Hk) as (m' & Hrun & _).
    rewrite Hrun. eexists. reflexivity.
Qed.

(** X9: when the discrete map returns, [advance] from a discrete time
    before the one sought ends exactly at the discrete time sought, and the
    time it leaves in the memory is recomputed from it,
    [grid_.front() + k_out*h_], not accumulated step by step and not the
    time that was asked for. *)
Theorem advance_reaches_k_out
    (self : FixedStepIntegrator) (t : double) (k_out : Z) (m : FixedStepMemory) :
  returns_always (getExplicit self) ->
  stepping_ready self m -> advance_k_out self t = Ok k_out -> m_k m < k_out ->
  exists out m',
    FixedStepIntegrator_advance self t m = (Ok out, m') /\
    m_k m' = k_out /\
    m_t m' = (grid_front (base self) + int_to_double k_out * h_ self)%float.
Proof.
  intros HF Hready Hk Hlt.
  pose proof (advance_k_out_range _ _ _ Hk) as Hrange.
  destruct (iterate_advance_ok self (Z.to_nat (k_out - m_k m)) m HF Hready)
    as (m' & Hit & _ & Hk'); [lia|].
  assert (Hn : (0 < Z.to_nat (k_out - m_k m))%nat) by lia.
  pose proof (iterate_advance_on_grid _ _ _ _ Hit (or_intror Hn)) as Hgrid.
  unfold FixedStepIntegrator_advance, bind, lift, get, ret. rewrite Hk.
  rewrite advance_loop_iterate by reflexivity. rewrite Hit.
  eexists _, m'. split; [reflexivity|].
  assert (Hkm : m_k m' = k_out) by lia.
  split; [exact Hkm|]. unfold on_grid in Hgrid. rewrite Hgrid, Hkm. reflexivity.
Qed.

Lemma advance_again_is_idle_witness :
  let self := decay_self true 2 [0; 1]%float false in
  exists m1,
    FixedStepIntegrator_reset self 0%float (Some [1%float]) None None
      (init_memory self FixedStepMemory_new) = (Ok tt, m1) /\
    let r := FixedStepIntegrator_advance self 0.5%float m1 in
    is_Ok (fst r) /\ FixedStepIntegrator_advance self 0.5%float (snd r) = r.
Proof.
  intros self.
  assert (Hsized : memory_sized self (init_memory self FixedStepMemory_new))
    by (apply init_memory_sized; reflexivity).
  destruct (reset_ready self 0%float [1%float] None None _
              (sized_x _ _ Hsized) (sized_tapes _ _ Hsized))
    as (m1 & Hreset & _ & _ & Hready); [vm_compute; discriminate | reflexivity|].
  assert (Hk : advance_k_out self 0.5%float = Ok 1) by (vm_compute; reflexivity).
  assert (HF : returns_always (getExplicit self)) by (intros a; reflexivity).
  exists m1. split; [exact Hreset|].
  destruct (advance_again_is_idle self 0.5%float 1 m1 Hk) as (_ & Hidle & Hok).
  specialize (Hok HF Hready). cbv zeta. split; [exact Hok|].
  destruct (FixedStepIntegrator_advance self 0.5%float m1) as [[out|e] m'] eqn:Hrun.
  - exact (proj2 (Hidle out m' eq_refl)).
  - destruct Hok as [a Ha]. discriminate Ha.
Defined.

Lemma advance_reaches_k_out_witness :
  let self := decay_self true 2 [0; 1]%float false in
  exists m1 out m',
    FixedStepIntegrator_reset self 0%float (Some [1%float]) None None
      (init_memory self FixedStepMemory_new) = (Ok tt, m1) /\
    FixedStepIntegrator_advance self 1%float m1 = (Ok out, m') /\
    m_k m' = 2 /\ m_t m' = 1%float.
Proof.
  intros self.
  assert (Hsized : memory_sized self (init_memory self FixedStepMemory_new))
    by (apply init_memory_sized; reflexivity).
  destruct (reset_ready self 0%float [1%float] None None _
              (sized_x _ _ Hsized) (sized_tapes _ _ Hsized))
    as (m1 & Hreset & _ & Hk0 & Hready); [vm_compute; discriminate | reflexivity|].
  assert (Hk : advance_k_out self 1%float = Ok 2) by (vm_compute; reflexivity).
  assert (Hlt : m_k m1 < 2) by (rewrite Hk0; reflexivity).
  assert (HF : returns_always (getExplicit self)) by (intros a; reflexivity).
  destruct (advance_reaches_k_out self 1%float 2 m1 HF Hready Hk Hlt)
    as (out & m' & Hrun & Hkm & Ht).
  exists m1, out, m'. split; [exact Hreset|]. split; [exact Hrun|].
  split; [exact Hkm|]. rewrite Ht. vm_compute. reflexivity.
Defined.

Lemma retreat_time_on_grid self m : on_grid self (retreat_time self m).
Proof. destruct m; reflexivity. Qed.

Lemma retreat_step_on_grid self G m m' :
  retreat_step self G m = (Ok tt, m') -> on_grid self m'.
Proof.
  rewrite retreat_step_run. cbv zeta.
  pose proof (retreat_time_on_grid self m) as H.
  set (m0 := retreat_time self m) in *. clearbody m0.
  assert (H1 : on_grid self (update_previousB self m0))
    by (unfold on_grid in *; destruct m0; exact H).
  set (m1 := update_previousB self m0) in *. clearbody m1.
  destruct (tape_read (m_x_tape m1) _) as [x|]; [|discriminate].
  destruct (tape_read (m_Z_tape m1) _) as [Zt|]; [|discriminate].
  destruct (call_throws _ _); [discriminate|].
  intros [= <-]. unfold on_grid in *. destruct m1; exact H1.
Qed.

Lemma iterate_retreat_on_grid self G n m m' :
  iterate_step n (retreat_step self G) m = (Ok tt, m') ->
  on_grid self m \/ (0 < n)%nat -> on_grid self m'.
Proof.
  revert m. induction n as [|n IH]; intros m; simpl.
  - intros [= <-] [H|H]; [exact H | lia].
  - unfold bind.
    destruct (retreat_step self G m) as [[[]|e] m1] eqn:Hstep; [|discriminate].
    intros Hit _. apply (IH m1 Hit). left. eapply retreat_step_on_grid, Hstep.
Qed.

Lemma resetB_k self t rx rz rp m m1 :
  FixedStepIntegrator_resetB self t rx rz rp m = (Ok tt, m1) -> m_k m1 = nk_ self.
Proof. rewrite resetB_run. cbv zeta. intros [= <-]. destruct m; reflexivity. Qed.

(** X10: with backward states and a backward map that returns, [retreat]
    returns for every time whose discrete time is defined; from a later
    discrete time
    it ends exactly at the one sought, with the time recomputed from it,
    and from that discrete time or an earlier one it takes no step and
    changes nothing. *)
Theorem retreat_reaches_k_out
    (self : FixedStepIntegrator) (G : CasadiFunction RDAEInput RDAEOutput)
    (t : double) (k_out : Z) (m : FixedStepMemory) :
  returns_always G ->
  stepping_ready self m -> 0 < nrx_ (base self) ->
  getExplicitB self = Some G -> retreat_k_out self t = Ok k_out ->
  exists out m',
    FixedStepIntegrator_retreat self t m = (Ok out, m') /\
    (k_out < m_k m ->
       m_k m' = k_out /\
       m_t m' = (grid_front (base self) + int_to_double k_out * h_ self)%float) /\
    (m_k m <= k_out -> m' = m).
Proof.
  intros HGr Hready Hnrx HG Hk.
  pose proof (retreat_k_out_range _ _ _ Hk) as Hrange.
  pose proof Hready as (_ & _ & Hkm).
  destruct (iterate_retreat_ok self G (Z.to_nat (m_k m - k_out)) m HGr Hready Hnrx)
    as (m' & Hit & _ & Hk'); [lia|].
  unfold FixedStepIntegrator_retreat, bind, lift, get, ret. rewrite Hk, HG.
  rewrite retreat_loop_iterate by reflexivity. rewrite Hit.
  eexists _, m'. split; [reflexivity|]. split.
  - intros Hlt.
    assert (Hn : (0 < Z.to_nat (m_k m - k_out))%nat) by lia.
    pose proof (iterate_retreat_on_grid _ _ _ _ _ Hit (or_intror Hn)) as Hgrid.
    assert (Hkm' : m_k m' = k_out) by lia.
    split; [exact Hkm'|]. unfold on_grid in Hgrid. rewrite Hgrid, Hkm'. reflexivity.
  - intros Hle. replace (Z.to_nat (m_k m - k_out)) with 0%nat in Hit by lia.
    simpl in Hit. injection Hit as <-. reflexivity.
Qed.

Lemma retreat_reaches_k_out_witness :
  let self := decay_self true 2 [0; 1]%float false in
  exists m1 out m',
    FixedStepIntegrator_resetB self 1%float (Some [0%float]) None None
      (init_memory self FixedStepMemory_new) = (Ok tt, m1) /\
    FixedStepIntegrator_retreat self 0%float m1 = (Ok out, m') /\
    m_k m' = 0 /\ m_t m' = 0%float.
Proof.
  intros self.
  assert (Hsized : memory_sized self (init_memory self FixedStepMemory_new))
    by (apply init_memory_sized; reflexivity).
  assert (Hready0 : stepping_ready self (init_memory self FixedStepMemory_new)).
  { split; [exact (sized_x _ _ Hsized)|]. split; [exact (sized_tapes _ _ Hsized)|].
    vm_compute. split; discriminate. }
  destruct (resetB_ready self 1%float (Some [0%float]) None None _ Hready0)
    as (m1 & Hreset & Hready); [vm_compute; discriminate|].
  assert (Hk1 : m_k m1 = 2)
    by (rewrite (resetB_k _ _ _ _ _ _ _ Hreset); reflexivity).
  assert (Hnrx : 0 < nrx_ (base self)) by (vm_compute; reflexivity).
  assert (Hk : retreat_k_out self 0%float = Ok 0) by (vm_compute; reflexivity).
  destruct (getExplicitB self) as [G|] eqn:HG; [|vm_compute in HG; discriminate HG].
  assert (HGr : returns_always G)
    by (intros a; vm_compute in HG; injection HG as <-; reflexivity).
  destruct (retreat_reaches_k_out self G 0%float 0 m1 HGr Hready Hnrx HG Hk)
    as (out & m' & Hrun & Hreach & _).
  destruct Hreach as [Hkm Ht]; [rewrite Hk1; reflexivity|].
  exists m1, out, m'. split; [exact Hreset|]. split; [exact Hrun|].
  split; [exact Hkm|]. rewrite Ht. vm_compute. reflexivity.
Defined.

(** ** The tape holds the forward trajectory *)

Lemma iterate_step_S {S} (step : Stateful S unit) n s s1 :
  step s = (Ok tt, s1) ->
  iterate_step (Datatypes.S n) step s = iterate_step n step s1.
Proof. intros H. simpl. unfold bind. rewrite H. reflexivity. Qed.

(** X11: with backward states, after [n] completed forward steps from
    discrete time [k] the state tape holds at index [k+i] the state the
    memory had after [i] steps, for every [i] from 1 to [n], and the
    algebraic tape holds at index [k+i-1] the algebraic variable of that
    step; the entries up to index [k] of the state tape (entry 0 is the
    initial state [reset] has put there) and below [k] of the algebraic
    tape are as they were.  These are the entries a backward step to the
    discrete time [k+i-1] reads. *)
Theorem tape_holds_trajectory
    (self : FixedStepIntegrator) (n : nat) (m m' : FixedStepMemory) :
  0 < nrx_ (base self) -> memory_sized self m -> 0 <= m_k m ->
  iterate_step n (advance_step self) m = (Ok tt, m') ->
  (forall i, (i < n)%nat ->
     m_x_tape m' !! Z.to_nat (m_k m + Z.of_nat i + 1)
       = Some (m_x (snd (iterate_step (S i) (advance_step self) m))) /\
     m_Z_tape m' !! Z.to_nat (m_k m + Z.of_nat i)
       = Some (m_Z (snd (iterate_step (S i) (advance_step self) m)))) /\
  (forall j, (j <= Z.to_nat (m_k m))%nat -> m_x_tape m' !! j = m_x_tape m !! j) /\
  (forall j, (j < Z.to_nat (m_k m))%nat -> m_Z_tape m' !! j = m_Z_tape m !! j).
Proof.
  intros Hnrx. revert m. induction n as [|n IH]; intros m Hsized Hk Hit.
  - simpl in Hit. injection Hit as <-. split; [intros i Hi; lia | auto].
  - destruct (advance_step self m) as [[[]|e] m1] eqn:Hstep;
      [|simpl in Hit; unfold bind in Hit; rewrite Hstep in Hit; discriminate].
    rewrite (iterate_step_S _ _ _ _ Hstep) in Hit.
    pose proof (advance_step_sized self m Hsized) as Hsized1.
    rewrite Hstep in Hsized1. cbn [snd] in Hsized1.
    pose proof (advance_step_k _ _ _ _ Hstep) as Hk1.
    destruct (advance_step_tape self m m1 Hnrx Hsized Hstep)
      as (_ & Hx1 & HZ1 & Hxo & HZo).
    destruct (IH m1 Hsized1 ltac:(lia) Hit) as (Hnew & Hxold & HZold).
    split; [|split].
    + intros [|i] Hi.
      * rewrite (iterate_step_S _ 0 _ _ Hstep). cbn [iterate_step ret snd].
        replace (m_k m + Z.of_nat 0 + 1) with (m_k m + 1) by lia.
        replace (m_k m + Z.of_nat 0) with (m_k m) by lia.
        rewrite Hxold, HZold by lia. split; assumption.
      * rewrite (iterate_step_S _ (S i) _ _ Hstep).
        destruct (Hnew i ltac:(lia)) as [Hx HZ].
        replace (m_k m + Z.of_nat (S i) + 1) with (m_k m1 + Z.of_nat i + 1) by lia.
        replace (m_k m + Z.of_nat (S i)) with (m_k m1 + Z.of_nat i) by lia.
        split; assumption.
    + intros j Hj. rewrite Hxold, Hxo by lia. reflexivity.
    + intros j Hj. rewrite HZold, HZo by lia. reflexivity.
Qed.

Lemma tape_holds_trajectory_witness :
  let self := decay_self true 2 [0; 1]%float false in
  exists m1 m',
    FixedStepIntegrator_reset self 0%float (Some [1%float]) None None
      (init_memory self FixedStepMemory_new) = (Ok tt, m1) /\
    iterate_step 2 (advance_step self) m1 = (Ok tt, m') /\
    m_x_tape m' !! 0%nat = m_x_tape m1 !! 0%nat /\
    m_x_tape m' !! 2%nat = Some (m_x m').
Proof.
  intros self.
  assert (Hsized : memory_sized self (init_memory self FixedStepMemory_new))
    by (apply init_memory_sized; reflexivity).
  assert (Hnrx : 0 < nrx_ (base self)) by (vm_compute; reflexivity).
  destruct (reset_ready self 0%float [1%float] None None _
              (sized_x _ _ Hsized) (sized_tapes _ _ Hsized))
    as (m1 & Hreset & _ & Hk0 & Hready); [vm_compute; discriminate | reflexivity|].
  assert (Hsized1 : memory_sized self m1).
  { assert (Hx : holds_at_least (Some [1%float]) (nx_ (base self)))
      by (intros xs [= <-]; vm_compute; lia).
    assert (Hnull : forall n, holds_at_least None n) by (intros n xs [=]).
    pose proof (reset_sized self 0%float (Some [1%float]) None None
                  Hx (Hnull _) (Hnull _) _ Hsized) as Hkeep.
    rewrite Hreset in Hkeep. exact Hkeep. }
  destruct (iterate_advance_ok self 2 m1 (fun a => eq_refl) Hready)
    as (m' & Hit & _ & _); [rewrite Hk0; vm_compute; discriminate|].
  assert (Hk : 0 <= m_k m1) by (rewrite Hk0; reflexivity).
  destruct (tape_holds_trajectory self 2 m1 m' Hnrx Hsized1 Hk Hit) as (Hnew & Hold & _).
  exists m1, m'. split; [exact Hreset|]. split; [exact Hit|].
  split; [apply Hold; lia|].
  destruct (Hnew 1%nat) as [Hx _]; [lia|].
  rewrite Hit, Hk0 in Hx. exact Hx.
Defined.
(** ** The tapes, through advance and retreat *)

(** With backward states, [n] completed forward steps from discrete time
    [k] leave in the state tape at [k+i+1] the state after [i+1] steps and
    in the algebraic tape at [k+i] the algebraic variable of that step, for
    every [i] below [n]; every other entry of either tape is as it was. *)
Lemma iterate_advance_tapes self n m m' :
  0 < nrx_ (base self) -> memory_sized self m -> 0 <= m_k m ->
  iterate_step n (advance_step self) m = (Ok tt, m') ->
  (forall i, (i < n)%nat ->
     exists mi,
       iterate_step (S i) (advance_step self) m = (Ok tt, mi) /\
       m_k mi = m_k m + Z.of_nat i + 1 /\
       m_x_tape m' !! Z.to_nat (m_k m + Z.of_nat i + 1) = Some (m_x mi) /\
       m_Z_tape m' !! Z.to_nat (m_k m + Z.of_nat i) = Some (m_Z mi)) /\
  (forall j, (j <= Z.to_nat (m_k m))%nat \/ (Z.to_nat (m_k m) + n < j)%nat ->
     m_x_tape m' !! j = m_x_tape m !! j) /\
  (forall j, (j < Z.to_nat (m_k m))%nat \/ (Z.to_nat (m_k m) + n <= j)%nat ->
     m_Z_tape m' !! j = m_Z_tape m !! j).
Proof.
  intros Hnrx. revert m. induction n as [|n IH]; intros m Hsized Hk Hit.
  - simpl in Hit. injection Hit as <-. split; [intros i Hi; lia | auto].
  - destruct (advance_step self m) as [[[]|e] m1] eqn:Hstep;
      [|simpl in Hit; unfold bind in Hit; rewrite Hstep in Hit; discriminate].
    rewrite (iterate_step_S _ _ _ _ Hstep) in Hit.
    pose proof (advance_step_sized self m Hsized) as Hsized1.
    rewrite Hstep in Hsized1. cbn [snd] in Hsized1.
    pose proof (advance_step_k _ _ _ _ Hstep) as Hk1.
    destruct (advance_step_tape self m m1 Hnrx Hsized Hstep)
      as (_ & Hx1 & HZ1 & Hxo & HZo).
    destruct (IH m1 Hsized1 ltac:(lia) Hit) as (Hnew & Hxold & HZold).
    split; [|split].
    + intros [|i] Hi.
      * exists m1. rewrite (iterate_step_S _ 0 _ _ Hstep).
        split; [reflexivity|]. split; [lia|].
        replace (m_k m + Z.of_nat 0 + 1) with (m_k m + 1) by lia.
        replace (m_k m + Z.of_nat 0) with (m_k m) by lia.
        rewrite Hxold, HZold by lia. split; assumption.
      * destruct (Hnew i ltac:(lia)) as (mi & Hmi & Hki & Hx & HZ).
        exists mi. rewrite (iterate_step_S _ (S i) _ _ Hstep).
        split; [exact Hmi|]. split; [lia|].
        replace (m_k m + Z.of_nat (S i) + 1) with (m_k m1 + Z.of_nat i + 1) by lia.
        replace (m_k m + Z.of_nat (S i)) with (m_k m1 + Z.of_nat i) by lia.
        split; assumption.
    + intros j Hj. rewrite Hxold, Hxo by lia. reflexivity.
    + intros j Hj. rewrite HZold, HZo by lia. reflexivity.
Qed.

(** C6: the tapes.  With backward states ([nrx > 0]) [init_memory] gives
    the state tape [nk+1] entries of size [nx] and the algebraic tape [nk]
    entries (of the size [nZ] of the discrete algebraic variable); without
    them neither tape is allocated, and [init_memory], [reset] and [advance]
    leave both tapes as they are.  A completed forward step from discrete
    time [k] puts the new state at index [k+1] of the state tape and the new
    algebraic variable at index [k] of the algebraic tape, the other entries
    staying as they are.  So an [advance] that returns has gone from the
    discrete time [m->k] it started at to the one it sought, if that is
    later, and for every step [k] in between the state tape holds at [k+1]
    the state, and the algebraic tape at [k] the algebraic variable, that
    the memory had when step [k] was completed; the last of them are the
    state and the algebraic variable [advance] leaves in the memory; every
    other entry of either tape is as it was.  [retreat] never changes a
    tape. *)
Theorem tape_discipline
    (self : FixedStepIntegrator) (m : FixedStepMemory) (t : double) :
  0 < nk_ self -> 0 <= nx_ (base self) -> 0 <= nZ_ self ->
  let m0 := init_memory self FixedStepMemory_new in
  (0 < nrx_ (base self) ->
     Z.of_nat (length (m_x_tape m0)) = nk_ self + 1 /\
     Forall (fun e => Z.of_nat (length e) = nx_ (base self)) (m_x_tape m0) /\
     Z.of_nat (length (m_Z_tape m0)) = nk_ self /\
     Forall (fun e => Z.of_nat (length e) = nZ_ self) (m_Z_tape m0)) /\
  (nrx_ (base self) <= 0 ->
     m_x_tape m0 = [] /\ m_Z_tape m0 = [] /\
     tapes (init_memory self m) = tapes m /\
     (forall x z p, tapes (snd (FixedStepIntegrator_reset self t x z p m)) = tapes m) /\
     tapes (snd (FixedStepIntegrator_advance self t m)) = tapes m) /\
  (0 < nrx_ (base self) -> memory_sized self m ->
     forall m', advance_step self m = (Ok tt, m') ->
       0 <= m_k m /\
       m_x_tape m' !! Z.to_nat (m_k m + 1) = Some (m_x m') /\
       m_Z_tape m' !! Z.to_nat (m_k m) = Some (m_Z m') /\
       (forall i, i <> Z.to_nat (m_k m + 1) -> m_x_tape m' !! i = m_x_tape m !! i) /\
       (forall i, i <> Z.to_nat (m_k m) -> m_Z_tape m' !! i = m_Z_tape m !! i)) /\
  (0 < nrx_ (base self) -> memory_sized self m -> 0 <= m_k m ->
     forall out m', FixedStepIntegrator_advance self t m = (Ok out, m') ->
       (exists k_out,
          advance_k_out self t = Ok k_out /\ m_k m' = Z.max (m_k m) k_out) /\
       (forall k, m_k m <= k < m_k m' ->
          exists mk,
            iterate_step (Z.to_nat (k + 1 - m_k m)) (advance_step self) m = (Ok tt, mk) /\
            m_k mk = k + 1 /\
            m_x_tape m' !! Z.to_nat (k + 1) = Some (m_x mk) /\
            m_Z_tape m' !! Z.to_nat k = Some (m_Z mk)) /\
       (m_k m < m_k m' ->
          m_x_tape m' !! Z.to_nat (m_k m') = Some (m_x m') /\
          m_Z_tape m' !! Z.to_nat (m_k m' - 1) = Some (m_Z m')) /\
       (forall j, (j <= Z.to_nat (m_k m))%nat \/ (Z.to_nat (m_k m') < j)%nat ->
          m_x_tape m' !! j = m_x_tape m !! j) /\
       (forall j, (j < Z.to_nat (m_k m))%nat \/ (Z.to_nat (m_k m') <= j)%nat ->
          m_Z_tape m' !! j = m_Z_tape m !! j)) /\
  tapes (snd (FixedStepIntegrator_retreat self t m)) = tapes m.
Proof.
  intros Hnk Hnx HnZ m0. split; [|split; [|split; [|split]]].
  - intros Hnrx. unfold m0. rewrite init_memory_new. cbv zeta. unfold zeros.
    cbn [m_x_tape m_Z_tape].
    destruct (Z.ltb_spec 0 (nrx_ (base self))); [|lia].
    rewrite !length_replicate.
    repeat split; try lia; apply Forall_replicate; rewrite length_replicate; lia.
  - intros Hnrx. pose proof (init_memory_tapes_unused self FixedStepMemory_new Hnrx) as H0.
    fold m0 in H0. unfold tapes in H0. simpl in H0.
    repeat split.
    + exact (f_equal fst H0).
    + exact (f_equal snd H0).
    + apply init_memory_tapes_unused, Hnrx.
    + intros x z p. apply reset_tapes_unused, Hnrx.
    + apply advance_preserves, advance_step_tapes_unused, Hnrx.
  - intros Hnrx Hsized m' Hstep. eapply advance_step_tape; eassumption.
  - intros Hnrx Hsized Hk0 out m' Hrun.
    destruct (advance_k_out self t) as [k_out|e] eqn:Hk;
      [|rewrite (advance_refuses _ _ _ m Hk) in Hrun; discriminate Hrun].
    rewrite (advance_run _ _ _ _ Hk) in Hrun. unfold bind in Hrun.
    destruct (iterate_step _ (advance_step self) m) as [[[]|e] m1] eqn:Hit;
      [|discriminate Hrun].
    cbv [advance_outputs bind get ret] in Hrun. injection Hrun as _ Hm. subst m1.
    pose proof (iterate_step_k_up _ _ _ _ Hit) as Hkm.
    destruct (iterate_advance_tapes _ _ _ _ Hnrx Hsized Hk0 Hit) as (Hnew & Hxold & HZold).
    assert (Hsteps :
      forall k, m_k m <= k < m_k m' ->
        exists mk,
          iterate_step (Z.to_nat (k + 1 - m_k m)) (advance_step self) m = (Ok tt, mk) /\
          m_k mk = k + 1 /\
          m_x_tape m' !! Z.to_nat (k + 1) = Some (m_x mk) /\
          m_Z_tape m' !! Z.to_nat k = Some (m_Z mk)).
    { intros k Hkr.
      destruct (Hnew (Z.to_nat (k - m_k m))) as (mk & Hmk & Hkk & Hx & HZ); [lia|].
      exists mk.
      replace (Z.to_nat (k + 1 - m_k m)) with (S (Z.to_nat (k - m_k m))) by lia.
      split; [exact Hmk|]. split; [lia|].
      replace (m_k m + Z.of_nat (Z.to_nat (k - m_k m)) + 1) with (k + 1) in Hx by lia.
      replace (m_k m + Z.of_nat (Z.to_nat (k - m_k m))) with k in HZ by lia.
      split; assumption. }
    split; [exists k_out; split; [reflexivity | lia]|].
    split; [exact Hsteps|]. split; [|split].
    + intros Hlt. destruct (Hsteps (m_k m' - 1)) as (mk & Hmk & _ & Hx & HZ); [lia|].
      replace (Z.to_nat (m_k m' - 1 + 1 - m_k m)) with (Z.to_nat (k_out - m_k m)) in Hmk
        by lia.
      rewrite Hit in Hmk. injection Hmk as <-.
      replace (m_k m' - 1 + 1) with (m_k m') in Hx by lia. split; assumption.
    + intros j Hj. apply Hxold. lia.
    + intros j Hj. apply HZold. lia.
  - pose proof (retreat_preserves forward_side self t
                  (retreat_step_forward_side self) m) as H.
    unfold forward_side in H. unfold tapes. congruence.
Qed.

Lemma tape_discipline_witness :
  let self := decay_self true 2 [0; 1]%float false in
  let m0 := init_memory self FixedStepMemory_new in
  (0 < nk_ self /\ 0 <= nx_ (base self) /\ 0 <= nZ_ self) /\
  Z.of_nat (length (m_x_tape m0)) = nk_ self + 1 /\
  Z.of_nat (length (m_Z_tape m0)) = nk_ self /\
  exists m1 out m',
    FixedStepIntegrator_reset self 0%float (Some [1%float]) None None m0 = (Ok tt, m1) /\
    FixedStepIntegrator_advance self 1%float m1 = (Ok out, m') /\
    m_k m1 = 0 /\ m_k m' = 2 /\
    m_x_tape m' !! 2%nat = Some (m_x m') /\
    m_Z_tape m' !! 1%nat = Some (m_Z m') /\
    m_x_tape m' !! 0%nat = m_x_tape m1 !! 0%nat.
Proof.
  intros self m0.
  assert (Hnk : 0 < nk_ self) by (vm_compute; reflexivity).
  assert (Hnx : 0 <= nx_ (base self)) by (vm_compute; discriminate).
  assert (HnZ : 0 <= nZ_ self) by (vm_compute; discriminate).
  assert (Hnrx : 0 < nrx_ (base self)) by (vm_compute; reflexivity).
  assert (Hsized : memory_sized self m0) by (apply init_memory_sized; reflexivity).
  destruct (reset_ready self 0%float [1%float] None None _
              (sized_x _ _ Hsized) (sized_tapes _ _ Hsized))
    as (m1 & Hreset & _ & Hk0 & Hready); [vm_compute; discriminate | reflexivity|].
  assert (Hsized1 : memory_sized self m1).
  { assert (Hx : holds_at_least (Some [1%float]) (nx_ (base self)))
      by (intros xs [= <-]; vm_compute; lia).
    assert (Hnull : forall n, holds_at_least None n) by (intros n xs [=]).
    pose proof (reset_sized self 0%float (Some [1%float]) None None
                  Hx (Hnull _) (Hnull _) _ Hsized) as Hkeep.
    rewrite Hreset in Hkeep. exact Hkeep. }
  assert (Hk : advance_k_out self 1%float = Ok 2) by (vm_compute; reflexivity).
  destruct (advance_ok self 1%float 2 m1 (fun a => eq_refl) Hready Hk)
    as (m' & Hrun & _ & Hkm & _).
  assert (Hk1 : 0 <= m_k m1) by (rewrite Hk0; reflexivity).
  destruct (tape_discipline self m1 1%float Hnk Hnx HnZ)
    as (Halloc & _ & _ & Hadv & _).
  destruct (Halloc Hnrx) as (Hx & _ & HZ & _).
  destruct (Hadv Hnrx Hsized1 Hk1 _ m' Hrun) as (_ & _ & Hlast & Hold & _).
  assert (Hkm2 : m_k m' = 2) by (rewrite Hkm, Hk0; reflexivity).
  destruct Hlast as [Hxl HZl]; [rewrite Hk0, Hkm2; reflexivity|].
  rewrite Hkm2 in Hxl, HZl.
  split; [auto|]. split; [exact Hx|]. split; [exact HZ|].
  exists m1. eexists. exists m'.
  split; [exact Hreset|]. split; [exact Hrun|]. split; [exact Hk0|].
  split; [exact Hkm2|]. split; [exact Hxl|]. split; [exact HZl|].
  apply Hold. left. lia.
Defined.

(** ** A failing discrete map is fatal for the call *)

(** X19: when [advance] has a step to take and the call of the forward map
    in its first pass throws, [advance] throws that exception.  The memory
    then holds the previous-step copies and what the call has written, and
    nothing else has happened: the quadrature is not accumulated, the tapes
    are as they were, and so are the discrete time and the time. *)
Theorem advance_rethrows
    (self : FixedStepIntegrator) (t : double) (k_out : Z) (m : FixedStepMemory)
    (e : Exception) :
  advance_k_out self t = Ok k_out -> m_k m < k_out ->
  call_throws (getExplicit self) (advance_arg (update_previous self m)) = Some e ->
  let r := FixedStepIntegrator_advance self t m in
  r = (Throw e, call_F (getExplicit self) (update_previous self m)) /\
  m_k (snd r) = m_k m /\ m_t (snd r) = m_t m /\ tapes (snd r) = tapes m.
Proof.
  intros Hk Hlt He r.
  assert (Hr : r = (Throw e, call_F (getExplicit self) (update_previous self m))).
  { unfold r. rewrite (advance_run _ _ _ _ Hk).
    replace (Z.to_nat (k_out - m_k m)) with (S (Z.to_nat (k_out - m_k m - 1))) by lia.
    cbn [iterate_step]. unfold bind. rewrite advance_step_run. cbv zeta.
    rewrite He. reflexivity. }
  split; [exact Hr|]. rewrite Hr. cbn [snd]. destruct m; repeat split; reflexivity.
Qed.

Lemma advance_rethrows_witness :
  let self := failing_self 2 [0; 1]%float in
  let m := init_memory self FixedStepMemory_new in
  exists m',
    FixedStepIntegrator_advance self 1%float m
      = (Throw (CallError "rootfinder failed"), m') /\
    m_k m' = 0 /\ tapes m' = tapes m.
Proof.
  intros self m.
  assert (Hk : advance_k_out self 1%float = Ok 2) by (vm_compute; reflexivity).
  assert (Hlt : m_k m < 2) by (vm_compute; reflexivity).
  destruct (advance_rethrows self 1%float 2 m (CallError "rootfinder failed") Hk Hlt)
    as (Hr & Hkm & _ & Htapes); [reflexivity|].
  eexists. split; [exact Hr|]. rewrite Hr in Hkm, Htapes. cbn [snd] in Hkm, Htapes.
  split; [exact Hkm | exact Htapes].
Defined.

(** X20: when [retreat] has a step to take and the call of the backward
    map in its first pass throws, [retreat] throws that exception.  By then
    the pass has decremented the discrete time and recomputed the time, so
    the memory is left at the discrete time of the step that failed, with
    the previous-step copies and what the call has written; the backward
    quadrature is not accumulated and the tapes are as they were. *)
Theorem retreat_rethrows
    (self : FixedStepIntegrator) (G : CasadiFunction RDAEInput RDAEOutput)
    (t : double) (k_out : Z) (m : FixedStepMemory) (x Zt : list double)
    (e : Exception) :
  retreat_k_out self t = Ok k_out -> getExplicitB self = Some G -> k_out < m_k m ->
  let m1 := update_previousB self (retreat_time self m) in
  tape_read (m_x_tape m) (m_k m - 1) = Ok x ->
  tape_read (m_Z_tape m) (m_k m - 1) = Ok Zt ->
  call_throws G (retreat_arg m1 x Zt) = Some e ->
  let r := FixedStepIntegrator_retreat self t m in
  r = (Throw e, call_G G x Zt m1) /\
  m_k (snd r) = m_k m - 1 /\
  m_t (snd r) = (grid_front (base self) + int_to_double (m_k m - 1) * h_ self)%float /\
  tapes (snd r) = tapes m.
Proof.
  intros Hk HG Hlt m1 Hx HZ He r.
  assert (Hk1 : m_k m1 = m_k m - 1) by (destruct m; reflexivity).
  assert (Hxt : m_x_tape m1 = m_x_tape m) by (destruct m; reflexivity).
  assert (HZt : m_Z_tape m1 = m_Z_tape m) by (destruct m; reflexivity).
  assert (Hr : r = (Throw e, call_G G x Zt m1)).
  { unfold r. rewrite (retreat_run _ _ _ _ _ Hk HG).
    replace (Z.to_nat (m_k m - k_out)) with (S (Z.to_nat (m_k m - k_out - 1))) by lia.
    cbn [iterate_step]. unfold bind. rewrite retreat_step_run. cbv zeta.
    fold m1. rewrite Hxt, HZt, Hk1, Hx, HZ, He. reflexivity. }
  split; [exact Hr|]. rewrite Hr. cbn [snd]. destruct m; repeat split; reflexivity.
Qed.

Lemma retreat_rethrows_witness :
  let self := failing_self 2 [0; 1]%float in
  exists m1 m',
    FixedStepIntegrator_resetB self 1%float (Some [0%float]) None None
      (init_memory self FixedStepMemory_new) = (Ok tt, m1) /\
    FixedStepIntegrator_retreat self 0%float m1
      = (Throw (CallError "backward rootfinder failed"), m') /\
    m_k m1 = 2 /\ m_k m' = 1.
Proof.
  intros self.
  destruct (FixedStepIntegrator_resetB self 1%float (Some [0%float]) None None
              (init_memory self FixedStepMemory_new)) as [[[]|e] m1] eqn:Hreset;
    [|vm_compute in Hreset; discriminate Hreset].
  assert (Hm1 : m_k m1 = 2)
    by (rewrite (resetB_k _ _ _ _ _ _ _ Hreset); reflexivity).
  assert (Hk : retreat_k_out self 0%float = Ok 0) by (vm_compute; reflexivity).
  destruct (getExplicitB self) as [G|] eqn:HG; [|vm_compute in HG; discriminate HG].
  assert (He : forall a, call_throws G a = Some (CallError "backward rootfinder failed"))
    by (intros a; vm_compute in HG; injection HG as <-; reflexivity).
  assert (Hlt : 0 < m_k m1) by (rewrite Hm1; reflexivity).
  destruct (tape_read (m_x_tape m1) (m_k m1 - 1)) as [x|e] eqn:Hx;
    [|vm_compute in Hreset; injection Hreset as <-; vm_compute in Hx; discriminate Hx].
  destruct (tape_read (m_Z_tape m1) (m_k m1 - 1)) as [Zt|e] eqn:HZ;
    [|vm_compute in Hreset; injection Hreset as <-; vm_compute in HZ; discriminate HZ].
  destruct (retreat_rethrows self G 0%float 0 m1 x Zt _ Hk HG Hlt Hx HZ (He _))
    as (Hr & Hkm & _).
  exists m1. eexists. split; [reflexivity|]. split; [exact Hr|].
  split; [exact Hm1|]. rewrite Hr in Hkm. cbn [snd] in Hkm.
  rewrite Hkm, Hm1. reflexivity.
Defined.

(** ** From init to the first steps *)

(** X12: a freshly initialised integrator can be reset and advanced.  If
    [FixedStepIntegrator::init] returned, the memory [init_memory] builds
    has every member at its size; [reset] with an initial state of [nx]
    entries returns on it, with that state and the discrete time 0; and,
    when the discrete map returns, [advance] to any time whose step index
    passes its assertion returns at that index. *)
Theorem fresh_memory_steps self0 opts setupFG (self : FixedStepIntegrator)
    (t0 : double) (x0 : list double) (z p : cptr double) (t : double) (k_out : Z) :
  FixedStepIntegrator_init self0 opts setupFG = Ok self ->
  returns_always (getExplicit self) ->
  length x0 = Z.to_nat (nx_ (base self)) ->
  advance_k_out self t = Ok k_out ->
  memory_sized self (init_memory self FixedStepMemory_new) /\
  exists m1 out m2,
    FixedStepIntegrator_reset self t0 (Some x0) z p (init_memory self FixedStepMemory_new)
      = (Ok tt, m1) /\
    m_x m1 = x0 /\ m_k m1 = 0 /\
    FixedStepIntegrator_advance self t m1 = (Ok out, m2) /\
    m_k m2 = k_out.
Proof.
  intros Hinit HF Hx0 Hk.
  destruct (FixedStepIntegrator_init_dims _ _ _ _ Hinit) as (Hnk & HZ & HRZ & _).
  pose proof (init_memory_sized self HZ HRZ) as Hsized.
  split; [exact Hsized|].
  destruct (reset_ready self t0 x0 z p _ (sized_x _ _ Hsized) (sized_tapes _ _ Hsized))
    as (m1 & Hreset & Hx & Hk0 & Hready); [lia | exact Hx0 |].
  destruct (advance_ok self t k_out m1 HF Hready Hk) as (m2 & Hrun & _ & Hkm & _).
  pose proof (advance_k_out_range _ _ _ Hk) as Hrange.
  exists m1. eexists. exists m2.
  split; [exact Hreset|]. split; [exact Hx|]. split; [exact Hk0|].
  split; [exact Hrun|]. rewrite Hkm, Hk0. lia.
Qed.

Lemma fresh_memory_steps_witness :
  exists self,
    decay_fixed_step true 2 (decay_options 2 [0; 1]%float false) = Ok self /\
    memory_sized self (init_memory self FixedStepMemory_new) /\
    exists m1 out m2,
      FixedStepIntegrator_reset self 0%float (Some [1%float]) None None
        (init_memory self FixedStepMemory_new) = (Ok tt, m1) /\
      m_x m1 = [1%float] /\ m_k m1 = 0 /\
      FixedStepIntegrator_advance self 1%float m1 = (Ok out, m2) /\
      m_k m2 = 2.
Proof.
  destruct (decay_fixed_step true 2 (decay_options 2 [0; 1]%float false)) as [self|e] eqn:E;
    [|vm_compute in E; discriminate E].
  exists self. split; [reflexivity|].
  unfold decay_fixed_step in E.
  apply (fresh_memory_steps _ _ _ self 0%float [1%float] None None 1%float 2 E).
  - vm_compute in E. injection E as <-. intros a. reflexivity.
  - vm_compute in E. injection E as <-. reflexivity.
  - vm_compute in E. injection E as <-. vm_compute. reflexivity.
Defined.
(** ** Integrator::sp_fwd never writes to its arguments *)

Lemma oracle_fwd_call_sp_arg o arg1 res1 w m i :
  (forall out, res1 out <> ArgPtr i) ->
  sp_arg (oracle_fwd_call o arg1 res1 w m) i = sp_arg m i.
Proof.
  intros Hr. unfold oracle_fwd_call.
  generalize (sp_forward o (fun i0 => load m (arg1 i0) (oracle_nnz_in o i0))).
  intros outs. cbv [all_DEOutput foldl].
  rewrite !store_sp_arg; auto.
Qed.

(** X13: forward propagation reads its argument buffers and never writes
    to them: whatever the integrator and the contents of the buffers,
    every argument buffer is the same after [Integrator::sp_fwd] as
    before. *)
Theorem sp_fwd_keeps_arguments (self : Integrator) (m : SpMemory) (i : IntegratorInput) :
  sp_arg (sp_fwd self m) i = sp_arg m i.
Proof.
  set (Post := fun R : SpMemory => sp_arg R i = sp_arg m i).
  change (Post (sp_fwd self m)). cbv beta delta [sp_fwd].
  intro_let o. intro_let nx. intro_let nz. intro_let nrx. intro_let nrz.
  intro_let tmp_x. intro_let tmp_z. intro_let tmp_rx. intro_let tmp_rz. intro_let w.
  intro_let arg1a. intro_let arg1b. intro_let arg1.
  intro_let res1a. intro_let res1b. intro_let res1.
  intro_let m1. intro_let m2. intro_let m3. intro_let m4. intro_let m5.
  intro_let m6. intro_let m7.
  assert (A1 : sp_arg m1 i = sp_arg m i)
    by (apply oracle_fwd_call_sp_arg; unfold res1, res1b, res1a; ptr_side).
  assert (A2 : sp_arg m2 i = sp_arg m i)
    by (unfold m2; destruct (is_null (arg_ptr m1 _));
        [|unfold or_into; rewrite store_sp_arg by discriminate]; exact A1).
  assert (A5 : sp_arg m5 i = sp_arg m i)
    by (unfold m5, m4, m3, spsolve_call, fill_n, copy_n;
        rewrite !store_sp_arg by discriminate; exact A2).
  assert (A6 : sp_arg m6 i = sp_arg m i)
    by (unfold m6; destruct (is_null (res_ptr m5 _));
        [|unfold copy_n; rewrite store_sp_arg by apply res_ptr_other]; exact A5).
  assert (A7 : sp_arg m7 i = sp_arg m i)
    by (unfold m7; destruct (is_null (res_ptr m6 _));
        [|unfold copy_n; rewrite store_sp_arg by apply res_ptr_other]; exact A6).
  clear A1 A2 A5 A6. clearbody m7. clear m1 m2 m3 m4 m5 m6.
  lazymatch goal with
  | |- context [if ((0 <? nq_ self) && ?c)%bool then ?T else ?F] =>
      let T' := eval cbv zeta in T in
      change T with T'; set (E := if ((0 <? nq_ self) && c)%bool then T' else F)
  end.
  set (mQ := snd E).
  assert (HE : E = (fst (fst E), snd (fst E), mQ))
    by (unfold mQ; destruct E as [[? ?] ?]; reflexivity).
  rewrite HE. cbv beta iota.
  assert (AQ : sp_arg mQ i = sp_arg m i).
  { unfold mQ, E. destruct (_ && _)%bool; cbn [snd]; [|exact A7].
    rewrite oracle_fwd_call_sp_arg; [exact A7|].
    unfold res1, res1b, res1a. ptr_side. }
  clearbody mQ. clear HE E A7 m7 arg1a arg1b arg1 res1a res1b res1.
  destruct (0 <? nrx); [|exact AQ].
  intro_let a0. intro_let a1. intro_let a2. intro_let a3. intro_let a4.
  intro_let a5. intro_let arg1. intro_let r0. intro_let r1. intro_let res1.
  intro_let m8. intro_let m9. intro_let m10. intro_let m11. intro_let m12.
  intro_let m13. intro_let m14.
  assert (A8 : sp_arg m8 i = sp_arg m i)
    by (unfold m8; rewrite oracle_fwd_call_sp_arg;
        [exact AQ | unfold res1, r1, r0; ptr_side]).
  assert (A9 : sp_arg m9 i = sp_arg m i)
    by (unfold m9; destruct (is_null (arg_ptr m8 _));
        [|unfold or_into; rewrite store_sp_arg by discriminate]; exact A8).
  assert (A12 : sp_arg m12 i = sp_arg m i)
    by (unfold m12, m11, m10, spsolve_call, fill_n, copy_n;
        rewrite !store_sp_arg by discriminate; exact A9).
  assert (A13 : sp_arg m13 i = sp_arg m i)
    by (unfold m13; destruct (is_null (res_ptr m12 _));
        [|unfold copy_n; rewrite store_sp_arg by apply res_ptr_other]; exact A12).
  assert (A14 : sp_arg m14 i = sp_arg m i)
    by (unfold m14; destruct (is_null (res_ptr m13 _));
        [|unfold copy_n; rewrite store_sp_arg by apply res_ptr_other]; exact A13).
  clear A8 A9 A12 A13. clearbody m14.
  unfold Post. destruct (_ && _)%bool; [|exact A14].
  cbv zeta. rewrite oracle_fwd_call_sp_arg; [exact A14|].
  unfold res1, r1, r0. ptr_side.
Qed.
(** ** Integrator::sp_fwd does not read the initial guesses *)

Lemma load_same m m' p n :
  same_but_guesses m m' ->
  p <> ArgPtr INTEGRATOR_Z0 -> p <> ArgPtr INTEGRATOR_RZ0 ->
  load m' p n = load m p n.
Proof.
  intros (Hres & Hw & Harg) Hz Hrz. destruct p as [|i|o|off]; cbn [load].
  - reflexivity.
  - rewrite Harg by congruence. reflexivity.
  - rewrite Hres. reflexivity.
  - f_equal. apply list_fmap_ext. intros k j _. symmetry. apply Hw.
Qed.

Lemma loaded_same m m' p n :
  same_but_guesses m m' ->
  p <> ArgPtr INTEGRATOR_Z0 -> p <> ArgPtr INTEGRATOR_RZ0 ->
  loaded m' p n = loaded m p n.
Proof. intros. unfold loaded. rewrite (load_same m m') by assumption. reflexivity. Qed.

Lemma arg_ptr_same m m' i :
  same_but_guesses m m' -> i <> INTEGRATOR_Z0 -> i <> INTEGRATOR_RZ0 ->
  arg_ptr m' i = arg_ptr m i.
Proof. intros (_ & _ & Harg) Hz Hrz. unfold arg_ptr. rewrite Harg by assumption. reflexivity. Qed.

Lemma res_ptr_same m m' o :
  same_but_guesses m m' -> res_ptr m' o = res_ptr m o.
Proof. intros (Hres & _). unfold res_ptr. rewrite Hres. reflexivity. Qed.

Lemma store_same m m' p v :
  same_but_guesses m m' ->
  p <> ArgPtr INTEGRATOR_Z0 -> p <> ArgPtr INTEGRATOR_RZ0 ->
  same_but_guesses (store m p v) (store m' p v).
Proof.
  intros (Hres & Hw & Harg) Hz Hrz. destruct p as [|i|o|off]; cbn [store].
  - repeat split; assumption.
  - rewrite <- (Harg i) by congruence. destruct (sp_arg m i) as [old|];
      [|repeat split; assumption].
    split; [exact Hres|]. split; [exact Hw|].
    intros j Hjz Hjrz. cbn [sp_arg]. unfold slot_set.
    destruct (decide (j = i)); [reflexivity|apply Harg; assumption].
  - rewrite <- (Hres o). destruct (sp_res m o) as [old|];
      [|repeat split; assumption].
    split; [|split; [exact Hw|exact Harg]].
    intros o'. cbn [sp_res]. unfold slot_set.
    destruct (decide (o' = o)); [reflexivity|apply Hres].
  - split; [exact Hres|]. split; [|exact Harg].
    intros j. cbn [sp_w]. destruct (_ && _)%bool; [reflexivity|apply Hw].
Qed.

Lemma copy_n_same src n dst m m' :
  same_but_guesses m m' ->
  src <> ArgPtr INTEGRATOR_Z0 -> src <> ArgPtr INTEGRATOR_RZ0 ->
  dst <> ArgPtr INTEGRATOR_Z0 -> dst <> ArgPtr INTEGRATOR_RZ0 ->
  same_but_guesses (copy_n src n dst m) (copy_n src n dst m').
Proof.
  intros. unfold copy_n. rewrite (loaded_same m m') by assumption.
  apply store_same; assumption.
Qed.

Lemma fill_n_same dst n v m m' :
  same_but_guesses m m' ->
  dst <> ArgPtr INTEGRATOR_Z0 -> dst <> ArgPtr INTEGRATOR_RZ0 ->
  same_but_guesses (fill_n dst n v m) (fill_n dst n v m').
Proof. intros. unfold fill_n. apply store_same; assumption. Qed.

Lemma or_into_same dst n src m m' :
  same_but_guesses m m' ->
  dst <> ArgPtr INTEGRATOR_Z0 -> dst <> ArgPtr INTEGRATOR_RZ0 ->
  src <> ArgPtr INTEGRATOR_Z0 -> src <> ArgPtr INTEGRATOR_RZ0 ->
  same_but_guesses (or_into dst n src m) (or_into dst n src m').
Proof.
  intros. unfold or_into. rewrite !(loaded_same m m') by assumption.
  apply store_same; assumption.
Qed.

Lemma spsolve_call_same sp X B n tr m m' :
  same_but_guesses m m' ->
  X <> ArgPtr INTEGRATOR_Z0 -> X <> ArgPtr INTEGRATOR_RZ0 ->
  B <> ArgPtr INTEGRATOR_Z0 -> B <> ArgPtr INTEGRATOR_RZ0 ->
  same_but_guesses (spsolve_call sp X B n tr m) (spsolve_call sp X B n tr m').
Proof.
  intros. unfold spsolve_call. rewrite !(loaded_same m m') by assumption.
  apply store_same; assumption.
Qed.

Lemma oracle_fwd_call_same o arg1 res1 w m m' :
  same_but_guesses m m' ->
  (forall i, arg1 i <> ArgPtr INTEGRATOR_Z0) -> (forall i, arg1 i <> ArgPtr INTEGRATOR_RZ0) ->
  (forall k, res1 k <> ArgPtr INTEGRATOR_Z0) -> (forall k, res1 k <> ArgPtr INTEGRATOR_RZ0) ->
  same_but_guesses (oracle_fwd_call o arg1 res1 w m) (oracle_fwd_call o arg1 res1 w m').
Proof.
  intros H Haz Harz Hrz Hrrz. unfold oracle_fwd_call. cbv zeta.
  replace (fun i => load m' (arg1 i) (oracle_nnz_in o i))
    with (fun i => load m (arg1 i) (oracle_nnz_in o i))
    by (apply functional_extensionality; intros i; symmetry; apply load_same; auto).
  cbv [all_DEOutput foldl].
  repeat (apply store_same; [|solve [auto | discriminate] ..]).
  exact H.
Qed.

(** Names the next local variable of the method on both sides of a
    relation between two runs. *)
Ltac intro_let2 y y' :=
  lazymatch goal with
  | |- ?R (let x := ?A in @?B x) (let x' := ?A in @?B' x') =>
      pose (y := A); change (R (B y) (B' y)); cbv beta
  | |- ?R (let x := ?A in @?B x) (let x' := ?A' in @?B' x') =>
      pose (y := A); pose (y' := A'); change (R (B y) (B' y')); cbv beta
  end.

Lemma sp_fwd_same self m m' :
  same_but_guesses m m' -> same_but_guesses (sp_fwd self m) (sp_fwd self m').
Proof.
  intros H0. cbv beta delta [sp_fwd].
  intro_let2 o o'. intro_let2 nx nx'. intro_let2 nz nz'.
  intro_let2 nrx nrx'. intro_let2 nrz nrz'.
  intro_let2 tmp_x tmp_x'. intro_let2 tmp_z tmp_z'.
  intro_let2 tmp_rx tmp_rx'. intro_let2 tmp_rz tmp_rz'. intro_let2 w w'.
  intro_let2 arg1a arg1a'. intro_let2 arg1b arg1b'. intro_let2 arg1 arg1'.
  intro_let2 res1a res1a'. intro_let2 res1b res1b'. intro_let2 res1 res1'.
  intro_let2 m1 m1'. intro_let2 m2 m2'. intro_let2 m3 m3'. intro_let2 m4 m4'.
  intro_let2 m5 m5'. intro_let2 m6 m6'. intro_let2 m7 m7'.
  assert (Ea : arg1' = arg1)
    by (unfold arg1', arg1, arg1b', arg1b;
        rewrite !(arg_ptr_same m m' _ H0) by discriminate; reflexivity).
  assert (Haz : forall i, arg1 i <> ArgPtr INTEGRATOR_Z0)
    by (unfold arg1, arg1b, arg1a; ptr_side).
  assert (Harz : forall i, arg1 i <> ArgPtr INTEGRATOR_RZ0)
    by (unfold arg1, arg1b, arg1a; ptr_side).
  assert (A1 : same_but_guesses m1 m1')
    by (unfold m1, m1'; rewrite Ea; apply oracle_fwd_call_same;
        [exact H0 | exact Haz | exact Harz
        | unfold res1, res1b, res1a; ptr_side | unfold res1, res1b, res1a; ptr_side]).
  assert (A2 : same_but_guesses m2 m2')
    by (unfold m2, m2'; rewrite !(arg_ptr_same m1 m1' _ A1) by discriminate;
        destruct (is_null (arg_ptr m1 _));
        [exact A1 | apply or_into_same; [exact A1 | ptr_side ..]]).
  assert (A3 : same_but_guesses m3 m3')
    by (apply copy_n_same; [exact A2 | discriminate ..]).
  assert (A4 : same_but_guesses m4 m4')
    by (apply fill_n_same; [exact A3 | discriminate ..]).
  assert (A5 : same_but_guesses m5 m5')
    by (apply spsolve_call_same; [exact A4 | discriminate ..]).
  assert (A6 : same_but_guesses m6 m6')
    by (unfold m6, m6'; rewrite !(res_ptr_same m5 m5' _ A5);
        destruct (is_null (res_ptr m5 _));
        [exact A5 | apply copy_n_same; [exact A5 | ptr_side ..]]).
  assert (A7 : same_but_guesses m7 m7')
    by (unfold m7, m7'; rewrite !(res_ptr_same m6 m6' _ A6);
        destruct (is_null (res_ptr m6 _));
        [exact A6 | apply copy_n_same; [exact A6 | ptr_side ..]]).
  clear A1 A2 A3 A4 A5 A6.
  clearbody m7 m7'. clear m1 m2 m3 m4 m5 m6 m1' m2' m3' m4' m5' m6'.
  lazymatch goal with
  | |- context [if ((0 <? nq_ self) && negb (is_null (res_ptr m7 ?q)))%bool then ?T else ?F] =>
      let T' := eval cbv zeta in T in
      change T with T';
      set (E := if ((0 <? nq_ self) && negb (is_null (res_ptr m7 q)))%bool then T' else F)
  end.
  lazymatch goal with
  | |- context [if ((0 <? nq_ self) && negb (is_null (res_ptr m7' ?q)))%bool then ?T else ?F] =>
      let T' := eval cbv zeta in T in
      change T with T';
      set (E' := if ((0 <? nq_ self) && negb (is_null (res_ptr m7' q)))%bool then T' else F)
  end.
  set (mQ := snd E). set (mQ' := snd E').
  assert (HE : E = (fst (fst E), snd (fst E), mQ))
    by (unfold mQ; destruct E as [[? ?] ?]; reflexivity).
  assert (HE' : E' = (fst (fst E'), snd (fst E'), mQ'))
    by (unfold mQ'; destruct E' as [[? ?] ?]; reflexivity).
  rewrite HE, HE'. cbv beta iota.
  assert (AQ : same_but_guesses mQ mQ').
  { unfold mQ, mQ', E, E'. rewrite !(res_ptr_same m7 m7' _ A7), Ea.
    destruct (_ && _)%bool; cbn [snd]; [|exact A7].
    apply oracle_fwd_call_same; [exact A7 | | | |].
    - apply slot_set_avoids; [discriminate|]. apply slot_set_avoids; [discriminate|exact Haz].
    - apply slot_set_avoids; [discriminate|]. apply slot_set_avoids; [discriminate|exact Harz].
    - unfold res1, res1b, res1a. ptr_side.
    - unfold res1, res1b, res1a. ptr_side. }
  clearbody mQ mQ'. clear HE HE' E E' A7 m7 m7' Ea Haz Harz arg1 arg1' arg1b arg1b' arg1a
    res1 res1b res1a.
  destruct (0 <? nrx); [|exact AQ].
  intro_let2 a0 a0'. intro_let2 a1 a1'. intro_let2 a2 a2'. intro_let2 a3 a3'.
  intro_let2 a4 a4'. intro_let2 a5 a5'. intro_let2 arg1 arg1'.
  intro_let2 r0 r0'. intro_let2 r1 r1'. intro_let2 res1 res1'.
  intro_let2 m8 m8'. intro_let2 m9 m9'. intro_let2 m10 m10'. intro_let2 m11 m11'.
  intro_let2 m12 m12'. intro_let2 m13 m13'. intro_let2 m14 m14'.
  assert (Ea : arg1' = arg1)
    by (unfold arg1', arg1, a5', a5, a4', a4, a3', a3, a2', a2;
        rewrite !(arg_ptr_same mQ mQ' _ AQ) by discriminate; reflexivity).
  assert (Haz : forall i, arg1 i <> ArgPtr INTEGRATOR_Z0)
    by (unfold arg1, a5, a4, a3, a2, a1, a0; ptr_side).
  assert (Harz : forall i, arg1 i <> ArgPtr INTEGRATOR_RZ0)
    by (unfold arg1, a5, a4, a3, a2, a1, a0; ptr_side).
  assert (A8 : same_but_guesses m8 m8')
    by (unfold m8, m8'; rewrite Ea; apply oracle_fwd_call_same;
        [exact AQ | exact Haz | exact Harz
        | unfold res1, r1, r0; ptr_side | unfold res1, r1, r0; ptr_side]).
  assert (A9 : same_but_guesses m9 m9')
    by (unfold m9, m9'; rewrite !(arg_ptr_same m8 m8' _ A8) by discriminate;
        destruct (is_null (arg_ptr m8 _));
        [exact A8 | apply or_into_same; [exact A8 | ptr_side ..]]).
  assert (A10 : same_but_guesses m10 m10')
    by (apply copy_n_same; [exact A9 | discriminate ..]).
  assert (A11 : same_but_guesses m11 m11')
    by (apply fill_n_same; [exact A10 | discriminate ..]).
  assert (A12 : same_but_guesses m12 m12')
    by (apply spsolve_call_same; [exact A11 | discriminate ..]).
  assert (A13 : same_but_guesses m13 m13')
    by (unfold m13, m13'; rewrite !(res_ptr_same m12 m12' _ A12);
        destruct (is_null (res_ptr m12 _));
        [exact A12 | apply copy_n_same; [exact A12 | ptr_side ..]]).
  assert (A14 : same_but_guesses m14 m14')
    by (unfold m14, m14'; rewrite !(res_ptr_same m13 m13' _ A13);
        destruct (is_null (res_ptr m13 _));
        [exact A13 | apply copy_n_same; [exact A13 | ptr_side ..]]).
  rewrite !(res_ptr_same m14 m14' _ A14), Ea.
  destruct (_ && _)%bool; [|exact A14].
  cbv zeta. apply oracle_fwd_call_same; [exact A14 | | | |].
  - apply slot_set_avoids; [discriminate|]. apply slot_set_avoids; [discriminate|exact Haz].
  - apply slot_set_avoids; [discriminate|]. apply slot_set_avoids; [discriminate|exact Harz].
  - unfold res1, r1, r0. ptr_side.
  - unfold res1, r1, r0. ptr_side.
Qed.

(** X14: forward propagation does not read the initial guesses.  Two
    runs of [Integrator::sp_fwd] on buffers that differ at most in the
    argument buffers of Z0 and RZ0 leave the same bits in every result
    buffer (and the same work vector): the guesses carry no dependency to
    any output. *)
Theorem sp_fwd_ignores_guesses (self : Integrator) (m m' : SpMemory) :
  same_but_guesses m m' ->
  (forall o, sp_res (sp_fwd self m) o = sp_res (sp_fwd self m') o) /\
  (forall j, sp_w (sp_fwd self m) j = sp_w (sp_fwd self m') j).
Proof.
  intros H. destruct (sp_fwd_same self m m' H) as (Hres & Hw & _). split; assumption.
Qed.

Lemma sp_fwd_ignores_guesses_witness :
  exists self,
    coupled_integrator (dense 1 1) = Ok self /\
    let m := sp_buffers [1; 2; 4; 8; 16; 32] [0; 0; 0; 0; 0; 0] in
    let m' := sp_buffers [1; 2; 64; 8; 16; 128] [0; 0; 0; 0; 0; 0] in
    same_but_guesses m m' /\
    (forall o, sp_res (sp_fwd self m) o = sp_res (sp_fwd self m') o) /\
    (forall j, sp_w (sp_fwd self m) j = sp_w (sp_fwd self m') j).
Proof.
  destruct (coupled_integrator (dense 1 1)) as [self|e] eqn:E;
    [|vm_compute in E; discriminate E].
  exists self. split; [reflexivity|]. cbv zeta.
  assert (H : same_but_guesses (sp_buffers [1; 2; 4; 8; 16; 32] [0; 0; 0; 0; 0; 0])
                (sp_buffers [1; 2; 64; 8; 16; 128] [0; 0; 0; 0; 0; 0])).
  { split; [reflexivity|]. split; [reflexivity|].
    intros i Hz Hrz. destruct i; try congruence; reflexivity. }
  split; [exact H|]. apply (sp_fwd_ignores_guesses self _ _ H).
Defined.
(** ** Integrator::sp_rev consumes the seeds of the states *)

Lemma store_sp_res m p v o :
  p <> ResPtr o -> sp_res (store m p v) o = sp_res m o.
Proof.
  intros Hp. destruct p as [|j|o'|off]; simpl; try reflexivity.
  - destruct (sp_arg m j); reflexivity.
  - destruct (sp_res m o'); simpl; [|reflexivity].
    unfold slot_set. destruct (decide (o = o')) as [->|]; [congruence|reflexivity].
Qed.

Lemma arg_ptr_no_result m i o : arg_ptr m i <> ResPtr o.
Proof. unfold arg_ptr. destruct (sp_arg m i); congruence. Qed.

Lemma res_ptr_other_result m o' o : o' <> o -> res_ptr m o' <> ResPtr o.
Proof. unfold res_ptr. destruct (sp_res m o'); congruence. Qed.

Lemma slot_set_never {I} `{EqDecision I} (a : I -> bptr) j v (q : bptr) :
  v <> q -> (forall k, a k <> q) -> forall k, slot_set a j v k <> q.
Proof. intros Hv Ha k. unfold slot_set. destruct (decide (k = j)); auto. Qed.

Ltac res_side :=
  repeat first
    [ apply arg_ptr_no_result
    | apply res_ptr_other_result; discriminate
    | apply slot_set_never
    | discriminate
    | intros ?; discriminate ].

Lemma store_res_frame m p v o r :
  p <> ResPtr o -> sp_res m o = r -> sp_res (store m p v) o = r.
Proof. intros Hp <-. apply store_sp_res, Hp. Qed.

Lemma oracle_rev_call_sp_res o arg1 res1 w m out r :
  (forall j, arg1 j <> ResPtr out) -> (forall k, res1 k <> ResPtr out) ->
  sp_res m out = r -> sp_res (oracle_rev_call o arg1 res1 w m) out = r.
Proof.
  intros Ha Hr <-. unfold oracle_rev_call.
  generalize (sp_reverse o (fun i0 => load m (arg1 i0) (oracle_nnz_in o i0))
                (fun k => load m (res1 k) (oracle_nnz_out o k))).
  intros new.
  cbv [all_DEInput all_DEOutput foldl].
  rewrite !store_sp_res; auto.
Qed.

Lemma take_seed_res_frame out n tmp m o r :
  out <> ResPtr o -> tmp <> ResPtr o ->
  sp_res m o = r -> sp_res (take_seed out n tmp m) o = r.
Proof.
  intros Ho Ht <-. unfold take_seed, fill_n, copy_n.
  destruct (is_null out); rewrite !store_sp_res; auto.
Qed.

Lemma store_res_same m o v :
  sp_res (store m (ResPtr o) v) o = store_result v <$> sp_res m o.
Proof.
  cbn [store]. destruct (sp_res m o) as [old|] eqn:E; cbn [sp_res fmap option_fmap option_map].
  - unfold slot_set. rewrite decide_True by reflexivity. reflexivity.
  - exact E.
Qed.

(** The seed of a result is read into the work vector and its buffer
    filled with zeros; a null result gives a zero seed. *)
Lemma take_seed_clears m0 o n tmp m r :
  tmp <> ResPtr o -> sp_res m o = sp_res m0 o -> sp_res m o = r ->
  sp_res (take_seed (res_ptr m0 o) n tmp m) o
  = store_result (replicate (Z.to_nat n) 0) <$> r.
Proof.
  intros Ht H0 <-. unfold take_seed, fill_n, copy_n, res_ptr.
  rewrite <- H0. destruct (sp_res m o) as [old|] eqn:E; cbn [is_null].
  - rewrite store_res_same, store_sp_res by assumption. rewrite E. reflexivity.
  - rewrite store_sp_res by assumption. rewrite E. reflexivity.
Qed.

Lemma if_null_sp_res (b : bool) f m o v :
  (forall m', sp_res (f m') o = sp_res m' o) ->
  sp_res m o = v -> sp_res (if b then m else f m) o = v.
Proof. intros Hf <-. destruct b; [reflexivity|apply Hf]. Qed.

Lemma if_call_sp_res (b : bool) f m o v :
  (forall m', sp_res (f m') o = sp_res m' o) ->
  sp_res m o = v -> sp_res (if b then f m else m) o = v.
Proof. intros Hf <-. destruct b; [apply Hf|reflexivity]. Qed.

Ltac res_frame :=
  repeat lazymatch goal with
    | |- sp_res ?m ?o = sp_res ?m ?o => reflexivity
    | |- sp_res (oracle_rev_call _ _ _ _ _) _ = _ =>
        apply oracle_rev_call_sp_res; [res_side | res_side |]
    | |- sp_res (take_seed _ _ _ _) _ = _ =>
        first [ apply take_seed_res_frame; [solve [res_side] | solve [res_side] |]
              | apply take_seed_clears; [solve [res_side] | |] ]
    | |- sp_res (store _ _ _) _ = _ => apply store_res_frame; [res_side |]
    | |- sp_res (if _ then ?m else or_into ?d ?n ?s ?m) _ = _ =>
        apply (if_null_sp_res _ (fun m' => or_into d n s m'));
        [intros m'; apply store_sp_res; res_side |]
    | |- sp_res (if _ then oracle_rev_call ?o ?a ?r ?w ?m else ?m) _ = _ =>
        apply (if_call_sp_res _ (fun m' => oracle_rev_call o a r w m'));
        [intros m'; apply oracle_rev_call_sp_res; [res_side | res_side | reflexivity] |]
    end.

(** X15: reverse propagation consumes the seeds of the states.  After
    [Integrator::sp_rev] the result buffers of XF and ZF hold zeros in
    their first nx and nz entries, and a null one is still null; with
    backward states the same holds of RXF and RZF; without backward
    states the three backward result buffers are not touched at all. *)
Theorem sp_rev_consumes_seeds (self : Integrator) (m : SpMemory) :
  sp_res (sp_rev self m) INTEGRATOR_XF
    = store_result (replicate (Z.to_nat (nx_ self)) 0) <$> sp_res m INTEGRATOR_XF /\
  sp_res (sp_rev self m) INTEGRATOR_ZF
    = store_result (replicate (Z.to_nat (nz_ self)) 0) <$> sp_res m INTEGRATOR_ZF /\
  (0 < nrx_ self ->
   sp_res (sp_rev self m) INTEGRATOR_RXF
     = store_result (replicate (Z.to_nat (nrx_ self)) 0) <$> sp_res m INTEGRATOR_RXF /\
   sp_res (sp_rev self m) INTEGRATOR_RZF
     = store_result (replicate (Z.to_nat (nrz_ self)) 0) <$> sp_res m INTEGRATOR_RZF) /\
  (nrx_ self <= 0 ->
   forall o, backward_output o = true -> sp_res (sp_rev self m) o = sp_res m o).
Proof.
  unfold sp_rev, copy_n, fill_n, spsolve_call.
  destruct (0 <? nrx_ self) eqn:Hrx; cbv beta iota zeta.
  - split; [res_frame | split; [res_frame | split]].
    + intros _. split; res_frame.
    + apply Z.ltb_lt in Hrx. lia.
  - split; [res_frame | split; [res_frame | split]].
    + apply Z.ltb_ge in Hrx. lia.
    + intros _ [] Ho; try discriminate Ho; res_frame.
Qed.
(** ** Integrator::getAugOffset: the offsets in closed form *)

Lemma for_loop_ind {S} (P : nat -> S -> Prop) (body : Z -> S -> S) n :
  forall lo s,
    P 0%nat s ->
    (forall k s, (k < n)%nat -> P k s -> P (Datatypes.S k) (body (lo + Z.of_nat k) s)) ->
    P n (for_loop n lo body s).
Proof.
  revert P. induction n as [|n IH]; intros P lo s H0 Hstep; [exact H0|].
  cbn [for_loop].
  apply (IH (fun k s => P (Datatypes.S k) s)).
  - replace lo with (lo + Z.of_nat 0) at 1 by (simpl; lia). apply Hstep; [lia|exact H0].
  - intros k s' Hk HP. replace (lo + 1 + Z.of_nat k) with (lo + Z.of_nat (Datatypes.S k)) by lia.
    apply Hstep; [lia|exact HP].
Qed.

Lemma push_if_at (c : bool) (ret : AugOffset) g e f :
  push_if c ret g e f = if decide (f = g) then (if c then ret f ++ [e] else ret f) else ret f.
Proof.
  unfold push_if, push_back, slot_set. destruct c; destruct (decide (f = g)) as [->|]; reflexivity.
Qed.

Lemma for_loop_push (g : AugOffset -> AugOffset) (c : bool) e f :
  (forall ret, g ret f = if c then ret f ++ [e] else ret f) ->
  forall n i ret,
    for_loop n i (fun _ => g) ret f = ret f ++ (if c then replicate n e else []).
Proof.
  intros Hg. induction n as [|n IH]; intros i ret; cbn [for_loop].
  - destruct c; simpl; rewrite app_nil_r; reflexivity.
  - rewrite IH, Hg. destruct c; [|reflexivity].
    rewrite <- app_assoc. reflexivity.
Qed.

(** The vector of column counts before the cumulative sum. *)
Lemma getAugOffset_counts self nfwd nadj f :
  getAugOffset self nfwd nadj f
  = cumsum ([0] ++ replicate (forward_entries self nfwd f) (size2 (quantity_pattern self f))
                ++ replicate (adjoint_entries self nadj f)
                     (size2 (quantity_pattern self (adjoint_counted f)))).
Proof.
  unfold getAugOffset, for_range. f_equal.
  rewrite (for_loop_push _ (0 <? dimension self (adjoint_partner f))
             (size2 (quantity_pattern self (adjoint_counted f))) f).
  2:{ intros ret. rewrite !push_if_at. destruct f; reflexivity. }
  rewrite (for_loop_push _ (0 <? dimension self f) (size2 (quantity_pattern self f)) f).
  2:{ intros ret. rewrite !push_if_at. destruct f; reflexivity. }
  unfold forward_entries, adjoint_entries.
  replace (nfwd - -1) with (nfwd + 1) by lia. replace (nadj - 0) with nadj by lia.
  rewrite <- app_assoc.
  destruct (0 <? dimension self f), (0 <? dimension self (adjoint_partner f)); reflexivity.
Qed.

Lemma Zsum_app u v : Zsum (u ++ v) = Zsum u + Zsum v.
Proof. unfold Zsum. induction u as [|x u IH]; simpl; [reflexivity|rewrite IH; lia]. Qed.

Lemma Zsum_replicate n c : Zsum (replicate n c) = Z.of_nat n * c.
Proof. unfold Zsum. induction n as [|n IH]; [reflexivity|]. cbn [replicate foldr]. rewrite IH. lia. Qed.

Lemma Zsum_take_S v k x :
  v !! k = Some x -> Zsum (take (S k) v) = Zsum (take k v) + x.
Proof.
  intros H. rewrite (take_S_r _ _ _ H), Zsum_app. unfold Zsum at 2. simpl. lia.
Qed.

(** The in-place loop of [cumsum] leaves the partial sums. *)
Lemma cumsum_spec v :
  length (cumsum v) = length v /\
  forall k, (k < length v)%nat -> cumsum v !! k = Some (Zsum (take (S k) v)).
Proof.
  unfold cumsum, for_range.
  destruct v as [|x0 v']; [split; [reflexivity|simpl; intros; lia]|].
  set (v := x0 :: v').
  set (P := fun (j : nat) (w : list Z) =>
              length w = length v /\
              forall k, (k < length v)%nat ->
                w !! k = if decide (k < S j)%nat then Some (Zsum (take (S k) v)) else v !! k).
  assert (HP : P (Z.to_nat (Z.of_nat (length v) - 1))
                 (for_loop (Z.to_nat (Z.of_nat (length v) - 1)) 1
                    (fun i w => <[Z.to_nat i :=
                       default 0 (w !! Z.to_nat i) + default 0 (w !! Z.to_nat (i - 1))]> w) v)).
  { apply for_loop_ind.
    - split; [reflexivity|]. intros k Hk. destruct (decide (k < 1)%nat) as [Hk1|]; [|reflexivity].
      replace k with 0%nat by lia. unfold v, Zsum. simpl. f_equal. lia.
    - intros j w Hj [Hlen Hw]. split; [rewrite length_insert; exact Hlen|].
      intros k Hk.
      replace (Z.to_nat (1 + Z.of_nat j)) with (S j) by lia.
      replace (Z.to_nat (1 + Z.of_nat j - 1)) with j by lia.
      assert (HSj : (S j < length v)%nat) by lia.
      destruct (decide (k = S j)) as [->|Hne].
      + rewrite list_lookup_insert_eq by lia. rewrite decide_True by lia.
        rewrite (Hw (S j) HSj), decide_False by lia.
        rewrite (Hw j) by lia. rewrite decide_True by lia.
        destruct (lookup_lt_is_Some_2 v (S j) HSj) as [x Hx]. rewrite Hx.
        rewrite (Zsum_take_S _ _ _ Hx). simpl. f_equal. lia.
      + rewrite list_lookup_insert_ne by congruence. rewrite (Hw k Hk).
        destruct (decide (k < S j)%nat), (decide (k < S (S j))%nat); try reflexivity; lia. }
  destruct HP as [Hlen Hw]. split; [exact Hlen|].
  intros k Hk. rewrite (Hw k Hk). rewrite decide_True by lia. reflexivity.
Qed.

Lemma take_counts (nf na : nat) c a (k : nat) :
  Zsum (take (S k) ([0] ++ replicate nf c ++ replicate na a))
  = Z.of_nat (k `min` nf) * c + Z.of_nat ((k - nf) `min` na) * a.
Proof.
  cbn [app take]. unfold Zsum at 1. cbn [foldr]. fold (Zsum (take k (replicate nf c ++ replicate na a))).
  rewrite take_app, Zsum_app, !take_replicate, !Zsum_replicate, length_replicate. lia.
Qed.

(** X16: the offsets [getAugOffset] returns, in closed form.  The vector
    of a quantity starts at 0; if the quantity has nonzeros it grows by the
    column count of its pattern for the nondifferentiated problem and for
    every forward direction; then, if its adjoint partner has nonzeros, by
    the column count the adjoint loop names for every adjoint direction.
    A quantity without nonzeros gets no forward entries. *)
Theorem getAugOffset_closed_form (self : Integrator) (nfwd nadj : Z) (f : Quantity) :
  length (getAugOffset self nfwd nadj f)
    = (1 + forward_entries self nfwd f + adjoint_entries self nadj f)%nat /\
  (forall k, (k <= forward_entries self nfwd f)%nat ->
     getAugOffset self nfwd nadj f !! k
     = Some (Z.of_nat k * size2 (quantity_pattern self f))) /\
  (forall j, (j <= adjoint_entries self nadj f)%nat ->
     getAugOffset self nfwd nadj f !! (forward_entries self nfwd f + j)%nat
     = Some (Z.of_nat (forward_entries self nfwd f) * size2 (quantity_pattern self f)
             + Z.of_nat j * size2 (quantity_pattern self (adjoint_counted f)))).
Proof.
  rewrite getAugOffset_counts.
  set (nf := forward_entries self nfwd f). set (na := adjoint_entries self nadj f).
  set (c := size2 (quantity_pattern self f)).
  set (a := size2 (quantity_pattern self (adjoint_counted f))).
  destruct (cumsum_spec ([0] ++ replicate nf c ++ replicate na a)) as [Hlen Hk].
  assert (Hl : length ([0] ++ replicate nf c ++ replicate na a) = (1 + nf + na)%nat)
    by (rewrite !length_app, !length_replicate; simpl; lia).
  rewrite Hl in *. split; [exact Hlen|]. split.
  - intros k Hle. rewrite Hk by lia. rewrite take_counts. f_equal.
    replace (k `min` nf)%nat with k by lia. replace ((k - nf) `min` na)%nat with 0%nat by lia. lia.
  - intros j Hle. rewrite Hk by lia. rewrite take_counts. f_equal.
    replace ((nf + j) `min` nf)%nat with nf by lia.
    replace ((nf + j - nf) `min` na)%nat with j by lia. lia.
Qed.
(** ** Integrator::aug_fwd and Integrator::aug_adj: the width of the blocks *)

Lemma columns_app u w :
  columns (Horzcat (u ++ w)) = columns (Horzcat u) + columns (Horzcat w).
Proof. cbn [columns]. rewrite foldr_app. induction u as [|x u IH]; simpl; lia. Qed.

Lemma width_push_back v g e f :
  width (push_back v g e) f
  = width v f + (if decide (block_vector f = g) then columns e else 0).
Proof.
  unfold width, push_back, slot_set, horzcat.
  destruct (decide (block_vector f = g)) as [->|]; [|lia].
  rewrite columns_app. simpl. lia.
Qed.

Ltac decide_slots :=
  repeat first [rewrite decide_True by reflexivity | rewrite decide_False by discriminate].

Lemma block_columns_aug_ret o v f :
  block_columns (Ok (aug_ret o v)) f = Some (width v f).
Proof.
  unfold block_columns, aug_ret, width.
  destruct f; cbn [block_name block_vector];
    repeat (rewrite lookup_insert_ne by discriminate); rewrite lookup_insert_eq; reflexivity.
Qed.

Lemma width_aug_start o f :
  width (aug_start o) f
  = size2 (match f with
           | Q_x => sparsity_in o DE_X | Q_z => sparsity_in o DE_Z
           | Q_q => sparsity_out o DE_QUAD | Q_p => sparsity_in o DE_P
           | Q_rx => sparsity_in o DE_RX | Q_rz => sparsity_in o DE_RZ
           | Q_rq => sparsity_out o DE_RQUAD | Q_rp => sparsity_in o DE_RP
           end).
Proof.
  unfold aug_start. cbv zeta. rewrite !width_push_back.
  destruct f; cbn [block_vector]; decide_slots; cbn; lia.
Qed.

(** The loop over the sensitivities returns when every row has the
    expected size, and every round adds [inc f] columns to block [f]. *)
Lemma collect_sens_width sens n_expected cond n body v (inc : Quantity -> Z) :
  0 <= n -> Z.of_nat (length sens) = n ->
  Forall (fun row => Z.of_nat (length row) = n_expected) sens ->
  (forall row v f, width (body row v) f = width v f + inc f) ->
  exists v', collect_sens sens n_expected cond n body v = Ok v' /\
             forall f, width v' f = width v f + n * inc f.
Proof.
  intros Hn Hlen Hrows Hbody. unfold collect_sens, for_range.
  replace (n - 0) with n by lia.
  set (P := fun (k : nat) (r : Result (AugVec -> list MatType)) =>
              exists v', r = Ok v' /\ forall f, width v' f = width v f + Z.of_nat k * inc f).
  assert (HP : P (Z.to_nat n)
                 (for_loop (Z.to_nat n) 0
                    (fun d r => v0 <-- r;
                       let row := default [] (sens !! Z.to_nat d) in
                       if Z.of_nat (length row) =? n_expected then Ok (body row v0)
                       else Throw (CasadiAssert cond))
                    (Ok v))).
  { apply for_loop_ind.
    - exists v. split; [reflexivity|]. intros f. lia.
    - intros k r Hk (v' & -> & Hv'). cbn [rbind].
      replace (Z.to_nat (0 + Z.of_nat k)) with k by lia.
      destruct (lookup_lt_is_Some_2 sens k) as [row Hrow]; [lia|].
      cbv zeta. rewrite Hrow. cbn [default from_option id].
      rewrite Forall_lookup in Hrows. rewrite (Hrows _ _ Hrow), Z.eqb_refl.
      eexists. split; [reflexivity|]. intros f. rewrite Hbody, Hv'. lia. }
  destruct HP as (v' & E & Hv'). exists v'. split; [exact E|].
  intros f. rewrite Hv'. rewrite Z2Nat.id by lia. reflexivity.
Qed.

Lemma init_patterns name oracle jd jr opts self :
  Integrator_init (Integrator_new name oracle jd jr) opts = Ok self ->
  oracle_ self = oracle /\
  (forall f, quantity_pattern self f
             = match f with
               | Q_x => sparsity_in oracle DE_X | Q_z => sparsity_in oracle DE_Z
               | Q_q => sparsity_out oracle DE_QUAD | Q_p => sparsity_in oracle DE_P
               | Q_rx => sparsity_in oracle DE_RX | Q_rz => sparsity_in oracle DE_RZ
               | Q_rq => sparsity_out oracle DE_RQUAD | Q_rp => sparsity_in oracle DE_RP
               end) /\
  (forall f, dimension self f = nnz (quantity_pattern self f)).
Proof.
  unfold Integrator_init. intros H.
  repeat match type of H with
         | rbind ?r _ = Ok _ => destruct r; cbn [rbind] in H; [|discriminate H]
         end.
  injection H as <-. split; [reflexivity|]. split; intros []; reflexivity.
Qed.

Lemma final_offset_getAugOffset self nfwd nadj f :
  final_offset (getAugOffset self nfwd nadj) f
  = Z.of_nat (forward_entries self nfwd f) * size2 (quantity_pattern self f)
    + Z.of_nat (adjoint_entries self nadj f) * size2 (quantity_pattern self (adjoint_counted f)).
Proof.
  unfold final_offset. rewrite getAugOffset_counts.
  set (nf := forward_entries self nfwd f). set (na := adjoint_entries self nadj f).
  set (raw := [0] ++ _ ++ _).
  destruct (cumsum_spec raw) as [Hlen Hk].
  assert (Hl : length raw = (1 + nf + na)%nat)
    by (unfold raw; rewrite !length_app, !length_replicate; simpl; lia).
  rewrite last_lookup, Hlen, Hl.
  replace (Nat.pred (1 + nf + na)) with (nf + na)%nat by lia.
  rewrite Hk by lia. unfold raw. rewrite take_counts. cbn [default from_option id].
  replace ((nf + na) `min` nf)%nat with nf by lia.
  replace ((nf + na - nf) `min` na)%nat with na by lia. reflexivity.
Qed.
Lemma aug_fwd_seeds self n v0 :
  let L :=
    for_loop n 0
      (fun d '(v, seed) =>
         let sd : DEInput -> MatType := fun _ => MatType_empty in
         let sd := slot_set sd DE_T (Zeros (t_ self)) in
         let pref := "aug" +:+ pretty d +:+ "_" in
         let e := Sym (pref +:+ "x") (x_ self) in
         let sd := slot_set sd DE_X e in let v := push_back v aug_x e in
         let e := Sym (pref +:+ "z") (z_ self) in
         let sd := slot_set sd DE_Z e in let v := push_back v aug_z e in
         let e := Sym (pref +:+ "p") (p_ self) in
         let sd := slot_set sd DE_P e in let v := push_back v aug_p e in
         let e := Sym (pref +:+ "rx") (rx_ self) in
         let sd := slot_set sd DE_RX e in let v := push_back v aug_rx e in
         let e := Sym (pref +:+ "rz") (rz_ self) in
         let sd := slot_set sd DE_RZ e in let v := push_back v aug_rz e in
         let e := Sym (pref +:+ "rp") (rp_ self) in
         let sd := slot_set sd DE_RP e in let v := push_back v aug_rp e in
         (v, seed ++ [sd]))
      (v0, []) in
  length (snd L) = n /\
  forall f, width (fst L) f
            = width v0 f
              + Z.of_nat n * (match f with Q_q | Q_rq => 0 | _ => size2 (quantity_pattern self f) end).
Proof.
  cbv zeta.
  apply (for_loop_ind
           (fun k (st : (AugVec -> list MatType) * list (DEInput -> MatType)) =>
              length (snd st) = k /\
              forall f, width (fst st) f
                        = width v0 f
                          + Z.of_nat k * (match f with
                                          | Q_q | Q_rq => 0
                                          | _ => size2 (quantity_pattern self f)
                                          end))).
  - split; [reflexivity|]. intros f. cbn [fst]. lia.
  - intros k [v seed] Hk [Hlen Hw]. cbn [fst snd] in *. split.
    + rewrite length_app, Hlen. simpl. lia.
    + intros f. rewrite !width_push_back, Hw.
      destruct f; cbn [block_vector quantity_pattern columns]; decide_slots; lia.
Qed.

Lemma aug_adj_seeds self n v0 :
  let L :=
    for_loop n 0
      (fun d '(v, seed) =>
         let sd : DEOutput -> MatType := fun _ => MatType_empty in
         let pref := "aug" +:+ pretty d +:+ "_" in
         let e := Sym (pref +:+ "ode") (x_ self) in
         let sd := slot_set sd DE_ODE e in let v := push_back v aug_rx e in
         let e := Sym (pref +:+ "alg") (z_ self) in
         let sd := slot_set sd DE_ALG e in let v := push_back v aug_rz e in
         let e := Sym (pref +:+ "quad") (q_ self) in
         let sd := slot_set sd DE_QUAD e in let v := push_back v aug_rp e in
         let e := Sym (pref +:+ "rode") (rx_ self) in
         let sd := slot_set sd DE_RODE e in let v := push_back v aug_x e in
         let e := Sym (pref +:+ "ralg") (rz_ self) in
         let sd := slot_set sd DE_RALG e in let v := push_back v aug_z e in
         let e := Sym (pref +:+ "rquad") (rq_ self) in
         let sd := slot_set sd DE_RQUAD e in let v := push_back v aug_p e in
         (v, seed ++ [sd]))
      (v0, []) in
  length (snd L) = n /\
  forall f, width (fst L) f
            = width v0 f
              + Z.of_nat n * (match f with
                              | Q_q | Q_rq => 0
                              | _ => size2 (quantity_pattern self (adjoint_partner f))
                              end).
Proof.
  cbv zeta.
  apply (for_loop_ind
           (fun k (st : (AugVec -> list MatType) * list (DEOutput -> MatType)) =>
              length (snd st) = k /\
              forall f, width (fst st) f
                        = width v0 f
                          + Z.of_nat k * (match f with
                                          | Q_q | Q_rq => 0
                                          | _ => size2 (quantity_pattern self (adjoint_partner f))
                                          end))).
  - split; [reflexivity|]. intros f. cbn [fst]. lia.
  - intros k [v seed] Hk [Hlen Hw]. cbn [fst snd] in *. split.
    + rewrite length_app, Hlen. simpl. lia.
    + intros f. rewrite !width_push_back, Hw.
      destruct f; cbn [block_vector quantity_pattern adjoint_partner columns];
        decide_slots; lia.
Qed.

(** X17: the augmented problem with [nfwd] forward directions.  For an
    integrator initialised on an oracle whose forward derivative has one
    row of [DE_NUM_OUT] sensitivities for every seed, [Integrator::aug_fwd]
    returns, every state, parameter and quadrature block is [1 + nfwd]
    copies of the quantity's pattern wide, and for every quantity with
    nonzeros that width is the final offset of [getAugOffset(nfwd, 0)]. *)
Theorem aug_fwd_blocks name oracle jd jr opts (self : Integrator) (nfwd : Z) :
  Integrator_init (Integrator_new name oracle jd jr) opts = Ok self ->
  0 <= nfwd ->
  derivative_shape (forward oracle (oracle_arg oracle) (oracle_res oracle)) DE_NUM_OUT ->
  (exists ret, aug_fwd self nfwd = Ok ret) /\
  forall f,
    block_columns (aug_fwd self nfwd) f
      = Some ((1 + nfwd) * size2 (quantity_pattern self f)) /\
    (0 < dimension self f ->
     block_columns (aug_fwd self nfwd) f
       = Some (final_offset (getAugOffset self nfwd 0) f)).
Proof.
  intros Hinit Hn Hshape.
  destruct (init_patterns _ _ _ _ _ _ Hinit) as (Ho & Hpat & _).
  assert (Hret : exists ret, aug_fwd self nfwd = Ok ret /\
            forall f, block_columns (Ok ret) f
                      = Some ((1 + nfwd) * size2 (quantity_pattern self f))).
  { unfold aug_fwd, for_range. cbv zeta. rewrite Ho.
    destruct (Z.ltb_spec nfwd 0) as [Hneg|_]; [lia|].
    replace (nfwd - 0) with nfwd by lia.
    pose proof (aug_fwd_seeds self (Z.to_nat nfwd) (aug_start oracle)) as HL.
    cbv zeta in HL. destruct (for_loop _ _ _ _) as [v seed].
    cbn [fst snd] in HL. destruct HL as [Hlen Hw].
    destruct (Hshape seed) as [Hrows Hrow].
    replace (Z.of_nat (length (forward oracle (oracle_arg oracle) (oracle_res oracle) seed))
             =? nfwd) with true by (symmetry; apply Z.eqb_eq; lia).
    cbn [negb].
    lazymatch goal with
    | |- context [collect_sens ?s ?w ?c ?n ?b ?v0] =>
        destruct (collect_sens_width s w c n b v0
                    (fun f => match f with
                              | Q_q | Q_rq => size2 (quantity_pattern self f)
                              | _ => 0
                              end)) as (v' & E & Hv');
          [exact Hn | lia | exact Hrow | | rewrite E]
    end.
    { intros row v1 f. rewrite !width_push_back.
      destruct f; cbn [block_vector quantity_pattern columns project]; decide_slots; lia. }
    cbn [rbind]. eexists. split; [reflexivity|].
    intros f. rewrite block_columns_aug_ret, Hv', Hw, width_aug_start, <- Hpat.
    f_equal. rewrite Z2Nat.id by lia. destruct f; ring. }
  destruct Hret as (ret & Hret & Hcols). split; [exists ret; exact Hret|].
  intros f. rewrite Hret. split; [apply Hcols|].
  intros Hdim. rewrite Hcols, final_offset_getAugOffset. f_equal.
  unfold forward_entries, adjoint_entries.
  replace (0 <? dimension self f) with true by (symmetry; apply Z.ltb_lt; exact Hdim).
  change (Z.to_nat 0) with 0%nat. destruct (0 <? _); lia.
Qed.

(** X18: the augmented problem with [nadj] adjoint directions.  Under the
    same conditions on the reverse derivative, [Integrator::aug_adj]
    returns and the block of a quantity is its own pattern followed by
    [nadj] copies of the pattern of its adjoint partner.  For every
    quantity but the state [x], if the quantity and its partner have
    nonzeros, that width is the final offset of [getAugOffset(0, nadj)];
    for [x] the offset is [(1 + nadj)] times the columns of [x] instead,
    whatever the pattern of [rx]. *)
Theorem aug_adj_blocks name oracle jd jr opts (self : Integrator) (nadj : Z) :
  Integrator_init (Integrator_new name oracle jd jr) opts = Ok self ->
  0 <= nadj ->
  derivative_shape (reverse oracle (oracle_arg oracle) (oracle_res oracle)) DE_NUM_IN ->
  (exists ret, aug_adj self nadj = Ok ret) /\
  (forall f,
     block_columns (aug_adj self nadj) f
       = Some (size2 (quantity_pattern self f)
               + nadj * size2 (quantity_pattern self (adjoint_partner f))) /\
     (f <> Q_x -> 0 < dimension self f -> 0 < dimension self (adjoint_partner f) ->
      block_columns (aug_adj self nadj) f
        = Some (final_offset (getAugOffset self 0 nadj) f))) /\
  (0 < nx_ self -> 0 < nrx_ self ->
   final_offset (getAugOffset self 0 nadj) Q_x = (1 + nadj) * size2 (x_ self)).
Proof.
  intros Hinit Hn Hshape.
  destruct (init_patterns _ _ _ _ _ _ Hinit) as (Ho & Hpat & _).
  assert (Hret : exists ret, aug_adj self nadj = Ok ret /\
            forall f, block_columns (Ok ret) f
                      = Some (size2 (quantity_pattern self f)
                              + nadj * size2 (quantity_pattern self (adjoint_partner f)))).
  { unfold aug_adj, for_range. cbv zeta. rewrite Ho.
    destruct (Z.ltb_spec nadj 0) as [Hneg|_]; [lia|].
    replace (nadj - 0) with nadj by lia.
    pose proof (aug_adj_seeds self (Z.to_nat nadj) (aug_start oracle)) as HL.
    cbv zeta in HL. destruct (for_loop _ _ _ _) as [v seed].
    cbn [fst snd] in HL. destruct HL as [Hlen Hw].
    destruct (Hshape seed) as [Hrows Hrow].
    replace (Z.of_nat (length (reverse oracle (oracle_arg oracle) (oracle_res oracle) seed))
             =? nadj) with true by (symmetry; apply Z.eqb_eq; lia).
    cbn [negb].
    lazymatch goal with
    | |- context [collect_sens ?s ?w ?c ?n ?b ?v0] =>
        destruct (collect_sens_width s w c n b v0
                    (fun f => match f with
                              | Q_q | Q_rq =>
                                  size2 (quantity_pattern self (adjoint_partner f))
                              | _ => 0
                              end)) as (v' & E & Hv');
          [exact Hn | lia | exact Hrow | | rewrite E]
    end.
    { intros row v1 f. rewrite !width_push_back.
      destruct f; cbn [block_vector quantity_pattern adjoint_partner columns project];
        decide_slots; lia. }
    cbn [rbind]. eexists. split; [reflexivity|].
    intros f. rewrite block_columns_aug_ret, Hv', Hw, width_aug_start, <- Hpat.
    f_equal. rewrite Z2Nat.id by lia. destruct f; cbn [adjoint_partner]; ring. }
  destruct Hret as (ret & Hret & Hcols). split; [exists ret; exact Hret|]. split.
  - intros f. rewrite Hret. split; [apply Hcols|].
    intros Hf Hdim Hpart. rewrite Hcols, final_offset_getAugOffset. f_equal.
    unfold forward_entries, adjoint_entries.
    replace (0 <? dimension self f) with true by (symmetry; apply Z.ltb_lt; exact Hdim).
    replace (0 <? dimension self (adjoint_partner f)) with true
      by (symmetry; apply Z.ltb_lt; exact Hpart).
    change (Z.to_nat (0 + 1)) with 1%nat. rewrite Z2Nat.id by lia.
    destruct f; try congruence; cbn [adjoint_counted adjoint_partner]; lia.
  - intros Hx Hrx. rewrite final_offset_getAugOffset.
    unfold forward_entries, adjoint_entries. cbn [dimension adjoint_partner].
    replace (0 <? nx_ self) with true by (symmetry; apply Z.ltb_lt; exact Hx).
    replace (0 <? nrx_ self) with true by (symmetry; apply Z.ltb_lt; exact Hrx).
    change (Z.to_nat (0 + 1)) with 1%nat. rewrite Z2Nat.id by lia.
    cbn [adjoint_counted quantity_pattern]. lia.
Qed.

Lemma coupled_forward_shape rx a r :
  derivative_shape (forward (coupled_oracle rx) a r) DE_NUM_OUT.
Proof.
  intros seed. cbn [forward coupled_oracle]. split; [apply length_imap|].
  apply Forall_lookup. intros i row Hrow.
  rewrite list_lookup_imap in Hrow.
  destruct (seed !! i); [|discriminate Hrow]. injection Hrow as <-. reflexivity.
Qed.

Lemma coupled_reverse_shape rx a r :
  derivative_shape (reverse (coupled_oracle rx) a r) DE_NUM_IN.
Proof.
  intros seed. cbn [reverse coupled_oracle]. split; [apply length_imap|].
  apply Forall_lookup. intros i row Hrow.
  rewrite list_lookup_imap in Hrow.
  destruct (seed !! i); [|discriminate Hrow]. injection Hrow as <-. reflexivity.
Qed.

Lemma aug_fwd_blocks_witness :
  exists self,
    coupled_integrator (dense 1 2) = Ok self /\
    (exists ret, aug_fwd self 3 = Ok ret) /\
    forall f,
      block_columns (aug_fwd self 3) f = Some ((1 + 3) * size2 (quantity_pattern self f)) /\
      (0 < dimension self f ->
       block_columns (aug_fwd self 3) f = Some (final_offset (getAugOffset self 3 0) f)).
Proof.
  destruct (coupled_integrator (dense 1 2)) as [self|e] eqn:E;
    [|vm_compute in E; discriminate E].
  exists self. split; [reflexivity|].
  apply (aug_fwd_blocks "coupled" (coupled_oracle (dense 1 2)) dense_pattern dense_pattern ∅).
  - exact E.
  - lia.
  - apply coupled_forward_shape.
Defined.

Lemma aug_adj_blocks_witness :
  exists self,
    coupled_integrator (dense 1 2) = Ok self /\
    (exists ret, aug_adj self 3 = Ok ret) /\
    (forall f,
       block_columns (aug_adj self 3) f
         = Some (size2 (quantity_pattern self f)
                 + 3 * size2 (quantity_pattern self (adjoint_partner f))) /\
       (f <> Q_x -> 0 < dimension self f -> 0 < dimension self (adjoint_partner f) ->
        block_columns (aug_adj self 3) f
          = Some (final_offset (getAugOffset self 0 3) f))) /\
    (0 < nx_ self -> 0 < nrx_ self ->
     final_offset (getAugOffset self 0 3) Q_x = (1 + 3) * size2 (x_ self)).
Proof.
  destruct (coupled_integrator (dense 1 2)) as [self|e] eqn:E;
    [|vm_compute in E; discriminate E].
  exists self. split; [reflexivity|].
  apply (aug_adj_blocks "coupled" (coupled_oracle (dense 1 2)) dense_pattern dense_pattern ∅).
  - exact E.
  - lia.
  - apply coupled_reverse_shape.
Defined.
